(** * tg-address-scraper: a shallow embedding of [bot.js]

    The bot watches chats, extracts hex addresses and [.eth] names from
    message text, keeps them per chat in an in-memory registry, resolves
    names in the background and, on [/makelist], sends the sorted list to
    the owner.  This development embeds the second (current) revision of
    [bot.js]: the extractor regexes, the registry, the collector
    [handleText], the command handlers and the channel-post dispatcher.
    [resolveEnsOnceCached] is defined in the source and called nowhere, so
    it is no part of the behaviour; [console.log] output is left out. *)

From Stdlib Require Import NArith ZArith String Ascii DecimalString Lia.
From stdpp Require Import gmap list sorting.

Local Open Scope nat_scope.

(* ===================================================================== *)
(** ** JavaScript strings

    A JavaScript string is a sequence of UTF-16 code units; [length],
    indexing, [startsWith] and the regex engine all work on code units. *)
(* ===================================================================== *)

Module JsString.

Abbreviation jsstring := (list N) (only parsing).

(** An ASCII literal as a JavaScript string. *)
Definition js (s : string) : jsstring :=
  map N_of_ascii (list_ascii_of_string s).

(** The line feed written [\n] in the source. *)
Definition nl : jsstring := [10%N].

Definition between (lo hi c : N) : bool := (lo <=? c)%N && (c <=? hi)%N.

Definition isDigit (c : N) : bool := between 48 57 c.
Definition isUpper (c : N) : bool := between 65 90 c.
Definition isLower (c : N) : bool := between 97 122 c.

(** [String.prototype.toLowerCase], on the Basic Latin block.  Every string
    the bot lower-cases is a regex match over Basic Latin characters or a
    hex address; code units outside Basic Latin are left as they are. *)
Definition lowerChar (c : N) : N := if isUpper c then (c + 32)%N else c.
Definition toLowerCase (s : jsstring) : jsstring := map lowerChar s.

(** White space and line terminators removed by [String.prototype.trim]. *)
Definition isTrimChar (c : N) : bool :=
  between 9 13 c || (c =? 32)%N || (c =? 160)%N || (c =? 5760)%N
  || between 8192 8202 c || (c =? 8232)%N || (c =? 8233)%N
  || (c =? 8239)%N || (c =? 8287)%N || (c =? 12288)%N || (c =? 65279)%N.

Fixpoint trimStart (s : jsstring) : jsstring :=
  match s with
  | c :: s' => if isTrimChar c then trimStart s' else s
  | [] => []
  end.

Definition trim (s : jsstring) : jsstring :=
  rev (trimStart (rev (trimStart s))).

Fixpoint startsWith (s p : jsstring) : bool :=
  match p, s with
  | [], _ => true
  | _ :: _, [] => false
  | a :: p', b :: s' => (a =? b)%N && startsWith s' p'
  end.

(** [Array.prototype.join]. *)
Fixpoint join (sep : jsstring) (l : list jsstring) : jsstring :=
  match l with
  | [] => []
  | [x] => x
  | x :: l' => x ++ sep ++ join sep l'
  end.

(** Template-literal rendering of an integer. *)
Definition decimal (z : Z) : jsstring :=
  js (NilZero.string_of_int (Z.to_int z)).

(** [a.localeCompare(b)].  The host collation orders digits before letters
    and letters alphabetically, so on the strings that reach it here
    (lower-cased hex addresses) it is the code-unit lexicographic order. *)
Fixpoint localeCompare (a b : jsstring) : comparison :=
  match a, b with
  | [], [] => Eq
  | [], _ :: _ => Lt
  | _ :: _, [] => Gt
  | x :: a', y :: b' =>
      match (x ?= y)%N with
      | Eq => localeCompare a' b'
      | c => c
      end
  end.

(** [s.substring(i, j)] for [i <= j]. *)
Definition substring (s : jsstring) (i j : nat) : jsstring :=
  take (j - i) (drop i s).

(** A JavaScript string used as a condition: empty is falsy. *)
Definition truthy (s : jsstring) : bool :=
  match s with [] => false | _ => true end.

End JsString.

Import JsString.

(* ===================================================================== *)
(** ** The regular-expression engine

    A backtracking matcher in continuation-passing style, after the
    ECMAScript pattern semantics, for the constructs the two patterns of
    [bot.js] use: literals, character classes, sequencing, greedy
    quantifiers and the word-boundary assertion, with the [i] flag. *)
(* ===================================================================== *)

Module Regex.

Inductive Regex : Type :=
| WordBoundary
| Lit (c : N)
| Class (ranges : list (N * N))
| Seq (r1 r2 : Regex)
| Quant (min : nat) (max : option nat) (r : Regex).

(** The characters [\b] counts as word characters (no [u] flag). *)
Definition isWordChar (c : N) : bool :=
  isLower c || isUpper c || isDigit c || (c =? 95)%N.

Definition isWordAt (input : jsstring) (i : nat) : bool :=
  match input !! i with
  | Some c => isWordChar c
  | None => false
  end.

Definition wordBoundaryAt (input : jsstring) (e : nat) : bool :=
  xorb (match e with O => false | S p => isWordAt input p end)
       (isWordAt input e).

(** Canonicalize: with the [i] flag a character is compared through its
    upper-case form; a character outside Basic Latin never canonicalizes
    into Basic Latin, so it cannot match the Basic Latin patterns here. *)
Definition canonicalize (ignoreCase : bool) (c : N) : N :=
  if ignoreCase && isLower c then (c - 32)%N else c.

Definition members (ranges : list (N * N)) : list N :=
  flat_map (fun r => map N.of_nat
              (seq (N.to_nat (fst r)) (S (N.to_nat (snd r)) - N.to_nat (fst r))))
           ranges.

Definition charSetMatches (ignoreCase : bool) (ranges : list (N * N)) (c : N) : bool :=
  existsb (fun a => (canonicalize ignoreCase a =? canonicalize ignoreCase c)%N)
          (members ranges).

Definition Continuation := nat -> option nat.
Definition Matcher := nat -> Continuation -> option nat.

(** RepeatMatcher.  [fuel] bounds the nesting of iterations: an iteration
    either uses up one of the [min] required ones or consumes input. *)
Fixpoint repeatMatcher (m : Matcher) (fuel : nat) (min : nat) (max : option nat)
    (x : nat) (c : Continuation) : option nat :=
  match fuel with
  | O => None
  | S fuel' =>
      if bool_decide (max = Some 0) then c x
      else
        let d : Continuation := fun y =>
          if (min =? 0) && (y =? x) then None
          else repeatMatcher m fuel' (pred min) (pred <$> max) y c in
        if min =? 0 then
          match m x d with
          | Some z => Some z
          | None => c x
          end
        else m x d
  end.

Fixpoint compile (ignoreCase : bool) (input : jsstring) (r : Regex) : Matcher :=
  match r with
  | WordBoundary => fun x c =>
      if wordBoundaryAt input x then c x else None
  | Lit ch => fun x c =>
      match input !! x with
      | Some a =>
          if (canonicalize ignoreCase a =? canonicalize ignoreCase ch)%N
          then c (S x) else None
      | None => None
      end
  | Class ranges => fun x c =>
      match input !! x with
      | Some a => if charSetMatches ignoreCase ranges a then c (S x) else None
      | None => None
      end
  | Seq r1 r2 => fun x c =>
      compile ignoreCase input r1 x
        (fun y => compile ignoreCase input r2 y c)
  | Quant min max r' => fun x c =>
      repeatMatcher (compile ignoreCase input r')
        (min + length input + 2) min max x c
  end.

(** One attempt at [lastIndex]: the end index of the match, if any. *)
Definition matchAt (ignoreCase : bool) (r : Regex) (input : jsstring)
    (lastIndex : nat) : option nat :=
  compile ignoreCase input r lastIndex Some.

(** [input.match(r)] for a pattern with the [g] flag: scan from index 0,
    collect each match and resume at its end (one further on after an
    empty match); a failed attempt moves one code unit on. *)
Fixpoint execFrom (ignoreCase : bool) (r : Regex) (input : jsstring)
    (fuel lastIndex : nat) : list jsstring :=
  match fuel with
  | O => []
  | S fuel' =>
      if length input <? lastIndex then []
      else
        match matchAt ignoreCase r input lastIndex with
        | Some e =>
            substring input lastIndex e ::
            execFrom ignoreCase r input fuel' (if e =? lastIndex then S e else e)
        | None => execFrom ignoreCase r input fuel' (S lastIndex)
        end
  end.

(** [text.match(re) || []]. *)
Definition matchAll (ignoreCase : bool) (r : Regex) (input : jsstring) : list jsstring :=
  execFrom ignoreCase r input (S (length input)) 0.

Fixpoint seqAll (rs : list Regex) (last : Regex) : Regex :=
  match rs with
  | [] => last
  | r :: rs' => Seq r (seqAll rs' last)
  end.

End Regex.

Import Regex.

(** [const ethRegex = /\b0x[a-fA-F0-9]{40}\b/g] *)
Definition hexClass : list (N * N) := [(97, 102); (65, 70); (48, 57)]%N.

Definition ethRegex : Regex :=
  seqAll [WordBoundary; Lit 48; Lit 120; Quant 40 (Some 40) (Class hexClass)]
         WordBoundary.

(** [const ensRegex = /\b[a-z0-9-]+(?:\.[a-z0-9-]+)*\.eth\b/gi] *)
Definition labelClass : list (N * N) := [(97, 122); (48, 57); (45, 45)]%N.

Definition ensRegex : Regex :=
  seqAll [WordBoundary;
          Quant 1 None (Class labelClass);
          Quant 0 None (Seq (Lit 46) (Quant 1 None (Class labelClass)));
          Lit 46; Lit 101; Lit 116; Lit 104]
         WordBoundary.

Definition ethMatches (text : jsstring) : list jsstring := matchAll false ethRegex text.
Definition ensMatches (text : jsstring) : list jsstring := matchAll true ensRegex text.

(* ===================================================================== *)
(** ** Containers: [Set] and [Map]

    Both iterate in insertion order, which [handleMakeList] observes
    through [Array.from]; they are kept as lists in that order. *)
(* ===================================================================== *)

Module JsColl.

(** [set.add(x)]: a present element keeps its place. *)
Definition setAdd (x : jsstring) (s : list jsstring) : list jsstring :=
  if bool_decide (x ∈ s) then s else s ++ [x].

(** [map.has(k)] *)
Definition mapHas {V} (k : jsstring) (m : list (jsstring * V)) : bool :=
  bool_decide (k ∈ m.*1).

(** [map.get(k)] *)
Fixpoint mapGet {V} (k : jsstring) (m : list (jsstring * V)) : option V :=
  match m with
  | [] => None
  | (k', v) :: m' => if bool_decide (k' = k) then Some v else mapGet k m'
  end.

(** [map.set(k, v)]: a present key keeps its place and takes the new value;
    a new key goes last. *)
Fixpoint mapSet {V} (k : jsstring) (v : V) (m : list (jsstring * V)) : list (jsstring * V) :=
  match m with
  | [] => [(k, v)]
  | (k', v') :: m' =>
      if bool_decide (k' = k) then (k, v) :: m' else (k', v') :: mapSet k v m'
  end.

End JsColl.

Import JsColl.

(* ===================================================================== *)
(** ** The bot *)
(* ===================================================================== *)

(** [{ watching, ethSet, ensMap }]; a name maps to its resolved address or
    to [null] ([None]). *)
Record ChatState : Type := mkChat {
  watching : bool;
  ethSet : list jsstring;
  ensMap : list (jsstring * option jsstring)
}.

Definition freshChat : ChatState :=
  {| watching := false; ethSet := []; ensMap := [] |}.

(** What a handler reads from the Telegraf context. *)
Record Ctx : Type := mkCtx {
  chatId : Z;
  chatTitle : option jsstring;
  fromId : option Z;
  channelPost : bool
}.

(** The process state: the registry [memoryStore], the backend calls that
    have been issued and not yet settled, and a log of every launch of the
    background resolver (one entry per run of the detached closure). *)
Record Sys : Type := mkSys {
  memoryStore : gmap Z ChatState;
  inflight : list (Z * jsstring);
  launched : list (Z * jsstring)
}.

Definition initSys : Sys :=
  {| memoryStore := ∅; inflight := []; launched := [] |}.

(** Messages the bot sends: [ctx.reply] into the originating chat and
    [ctx.telegram.sendMessage] to a user. *)
Inductive Action : Type :=
| Reply (chat : Z) (text : jsstring)
| SendMessage (to : Z) (text : jsstring).

Inductive Command : Type := CmdHelp | CmdWhoami | CmdStatus | CmdMakelist.

Inductive ChatType : Type := Private | Group | Supergroup | Channel.

Inductive MemberStatus : Type :=
| Creator | Administrator | Member | Restricted | Left | Kicked.

(** [function ensureChat(chatId)]: the registry afterwards and the state
    object it returns. *)
Definition ensureChat (c : Z) (store : gmap Z ChatState) : gmap Z ChatState * ChatState :=
  match store !! c with
  | Some st => (store, st)
  | None => (<[c := freshChat]> store, freshChat)
  end.

(** [function isCmd(text, cmdName)] *)
Definition isCmd (text cmdName : jsstring) : bool :=
  startsWith (trim text) (js "/" ++ cmdName).

(** The [if (isCmd(...)) return ...] chain of the channel-post handler. *)
Definition channelCommand (text : jsstring) : option Command :=
  if isCmd text (js "help") then Some CmdHelp
  else if isCmd text (js "whoami") then Some CmdWhoami
  else if isCmd text (js "status") then Some CmdStatus
  else if isCmd text (js "makelist") then Some CmdMakelist
  else None.

(** The header glyph as the source file spells it (four code units). *)
Definition clipboard : jsstring := [240; 376; 8220; 8249]%N.

(** The sort comparator [a.toLowerCase().localeCompare(b.toLowerCase())]. *)
Definition compareAddr (a b : jsstring) : comparison :=
  localeCompare (toLowerCase a) (toLowerCase b).

(** [Array.prototype.sort] is stable; a stable insertion sort. *)
Fixpoint insertSorted (x : jsstring) (l : list jsstring) : list jsstring :=
  match l with
  | [] => [x]
  | y :: l' =>
      match compareAddr x y with
      | Gt => y :: insertSorted x l'
      | _ => x :: y :: l'
      end
  end.

Fixpoint sortAddresses (l : list jsstring) : list jsstring :=
  match l with
  | [] => []
  | x :: l' => insertSorted x (sortAddresses l')
  end.

(** The set [addressSet] built by [handleMakeList]. *)
Definition addressSet (st : ChatState) : list jsstring :=
  let s1 := foldl (fun s addr => setAdd (toLowerCase addr) s) [] (ethSet st) in
  foldl (fun s entry =>
           match entry.2 with
           | Some resolved =>
               if truthy resolved then setAdd (toLowerCase resolved) s else s
           | None => s
           end) s1 (ensMap st).

Definition maxLength : nat := 4096.

(** The chunking loop: the chunks pushed so far and [currentChunk]. *)
Definition chunkStep (acc : list jsstring * jsstring) (addr : jsstring)
    : list jsstring * jsstring :=
  let '(chunks, currentChunk) := acc in
  if maxLength <? length (currentChunk ++ addr ++ nl)
  then (chunks ++ [currentChunk], addr ++ nl)
  else (chunks, currentChunk ++ addr ++ nl).

Definition makeChunks (header : jsstring) (addresses : list jsstring) : list jsstring :=
  let '(chunks, currentChunk) := foldl chunkStep ([], header) addresses in
  if truthy currentChunk then chunks ++ [currentChunk] else chunks.

Definition partMessage (total i : nat) (chunk : jsstring) : jsstring :=
  js "Part " ++ decimal (Z.of_nat (i + 1)) ++ js "/" ++ decimal (Z.of_nat total)
  ++ js ":" ++ nl ++ nl ++ chunk.

Section Bot.

(** Start-up configuration: the owner's id, whether name resolution is on
    ([useEns && publicClient]), the checksum function [getAddress] when
    viem could be loaded ([None] stands for a thrown exception), and
    whether the transport accepts a direct message. *)
Variable ownerTelegramId : Z.
Variable useEns : bool.
Variable getAddress : option (jsstring -> option jsstring).
Variable sendMessageOk : Z -> jsstring -> bool.

(** [function ownerOnly(ctx)] *)
Definition ownerOnly (ctx : Ctx) : bool :=
  if channelPost ctx then true
  else match fromId ctx with
       | Some id => bool_decide (id = ownerTelegramId)
       | None => false
       end.

(** The [addresses] array after the checksum map and the sort. *)
Definition checksummed (addrs : list jsstring) : list jsstring :=
  match getAddress with
  | Some f => map (fun addr => match f addr with Some c => c | None => addr end) addrs
  | None => addrs
  end.

Definition exportAddresses (st : ChatState) : list jsstring :=
  sortAddresses (checksummed (addressSet st)).

Definition ensResolvedCount (st : ChatState) : nat :=
  length (filter (fun v : option jsstring => v ≠ None) (ensMap st).*2).

Definition chatName (ctx : Ctx) : jsstring :=
  match chatTitle ctx with
  | Some t => if truthy t then t else js "Chat " ++ decimal (chatId ctx)
  | None => js "Chat " ++ decimal (chatId ctx)
  end.

Definition exportHeader (ctx : Ctx) (st : ChatState) : jsstring :=
  clipboard ++ js " Collected Addresses from " ++ chatName ctx ++ nl
  ++ js "(" ++ decimal (Z.of_nat (length (ethSet st))) ++ js " ETH + "
  ++ decimal (Z.of_nat (ensResolvedCount st)) ++ js " resolved ENS = "
  ++ decimal (Z.of_nat (length (exportAddresses st))) ++ js " unique)" ++ nl ++ nl.

(** The texts [handleMakeList] hands to [sendMessage], in order, for a
    non-empty list. *)
Definition exportBlocks (ctx : Ctx) (st : ChatState) : list jsstring :=
  let addresses := exportAddresses st in
  let header := exportHeader ctx st in
  let content := header ++ join nl addresses in
  if length content <=? maxLength then [content]
  else
    let chunks := makeChunks header addresses in
    imap (partMessage (length chunks)) chunks.

(** The [try] block: messages go out one by one until one is refused. *)
Fixpoint sendAll (msgs : list jsstring) : list Action * bool :=
  match msgs with
  | [] => ([], true)
  | m :: msgs' =>
      if sendMessageOk ownerTelegramId m then
        let '(acts, ok) := sendAll msgs' in (SendMessage ownerTelegramId m :: acts, ok)
      else ([], false)
  end.

Definition helpMessage : jsstring :=
  [240; 376; 8220]%N ++ js " Available Commands:" ++ nl ++ nl
  ++ js "/help - Show this help message" ++ nl
  ++ js "/whoami - Show your Telegram ID" ++ nl
  ++ js "/status - Show collection statistics" ++ nl
  ++ js "/makelist - Send collected addresses to DM" ++ nl ++ nl
  ++ [240; 376; 164; 8211]%N
  ++ js " This bot automatically collects ETH addresses and ENS names from all posts.".

Definition handleHelp (ctx : Ctx) (s : Sys) : Sys * list Action :=
  (s, [Reply (chatId ctx) helpMessage]).

Definition handleWhoami (ctx : Ctx) (s : Sys) : Sys * list Action :=
  (s, [Reply (chatId ctx)
         (js "Your Telegram ID: " ++
          match fromId ctx with
          | Some id => decimal id
          | None => js "Channel Post (no user ID)"
          end)]).

Definition showBool (b : bool) : jsstring := if b then js "true" else js "false".

Definition handleStatus (ctx : Ctx) (s : Sys) : Sys * list Action :=
  if negb (ownerOnly ctx) then (s, [])
  else
    let '(store, st) := ensureChat (chatId ctx) (memoryStore s) in
    let ethCount := length (ethSet st) in
    let ensCount := length (ensMap st) in
    ({| memoryStore := store; inflight := inflight s; launched := launched s |},
     [Reply (chatId ctx)
        (js "Watched: " ++ showBool (watching st) ++ nl ++ js "Collected: "
         ++ decimal (Z.of_nat (ethCount + ensCount)) ++ js " (ETH: "
         ++ decimal (Z.of_nat ethCount) ++ js ", ENS: "
         ++ decimal (Z.of_nat ensCount) ++ js ")")]).

(** [async function handleMakeList(ctx)], with every [ctx.reply] accepted
    by the transport; [handleMakeListReplies] below is the handler with
    replies that can be refused. *)
Definition handleMakeList (ctx : Ctx) (s : Sys) : Sys * list Action :=
  if negb (ownerOnly ctx) then (s, [])
  else
    let '(store, st) := ensureChat (chatId ctx) (memoryStore s) in
    let s' := {| memoryStore := store; inflight := inflight s; launched := launched s |} in
    if length (exportAddresses st) =? 0 then
      (s', [Reply (chatId ctx) (js "No addresses collected yet.")])
    else
      let '(acts, ok) := sendAll (exportBlocks ctx st) in
      (s', acts ++
           [Reply (chatId ctx)
              (if ok then js "Sent you a DM with the results."
               else js "Failed to DM results. (Is the bot allowed to message you? Send /start to the bot in DM once.)")]).

(** The name loop of [handleText]: an unseen name is stored as [null] and
    the detached resolver is launched; it calls the backend only when
    resolution is configured. *)
Definition nameStep (c : Z) (acc : list (jsstring * option jsstring) * list (Z * jsstring) * list (Z * jsstring))
    (raw : jsstring) :=
  let '(names, fl, la) := acc in
  let ensName := toLowerCase raw in
  if mapHas ensName names then acc
  else (mapSet ensName None names,
        if useEns then fl ++ [(c, ensName)] else fl,
        la ++ [(c, ensName)]).

(** [async function handleText(ctx, text)] *)
Definition handleText (ctx : Ctx) (text : jsstring) (s : Sys) : Sys :=
  let c := chatId ctx in
  let '(store, st) := ensureChat c (memoryStore s) in
  if negb (watching st) then
    {| memoryStore := store; inflight := inflight s; launched := launched s |}
  else
    let eths := foldl (fun e m => setAdd (toLowerCase m) e) (ethSet st) (ethMatches text) in
    let '(names, fl, la) :=
      foldl (nameStep c) (ensMap st, inflight s, launched s) (ensMatches text) in
    {| memoryStore :=
         <[c := {| watching := watching st; ethSet := eths; ensMap := names |}]> store;
       inflight := fl; launched := la |}.

Definition runCommand (cmd : Command) (ctx : Ctx) (s : Sys) : Sys * list Action :=
  match cmd with
  | CmdHelp => handleHelp ctx s
  | CmdWhoami => handleWhoami ctx s
  | CmdStatus => handleStatus ctx s
  | CmdMakelist => handleMakeList ctx s
  end.

(** [bot.on('channel_post', ...)] *)
Definition onChannelPost (ctx : Ctx) (text : jsstring) (s : Sys) : Sys * list Action :=
  if negb (truthy text) then (s, [])
  else match channelCommand text with
       | Some cmd => runCommand cmd ctx s
       | None => (handleText ctx text s, [])
       end.

(** [bot.on('text', ...)] *)
Definition onText (ctx : Ctx) (text : jsstring) (s : Sys) : Sys * list Action :=
  if negb (truthy text) then (s, []) else (handleText ctx text s, []).

(** [bot.on('my_chat_member', ...)] *)
Definition onMyChatMember (ctx : Ctx) (type : ChatType)
    (old new : option MemberStatus) (s : Sys) : Sys * list Action :=
  let wasNotMember :=
    match old with Some Left | Some Kicked => true | _ => false end in
  let isNowMember :=
    match new with
    | Some Member | Some Administrator | Some Creator => true
    | _ => false
    end in
  let grouplike :=
    match type with Channel | Group | Supergroup => true | Private => false end in
  if wasNotMember && isNowMember && grouplike then
    let '(store, st) := ensureChat (chatId ctx) (memoryStore s) in
    ({| memoryStore :=
          <[chatId ctx := {| watching := true; ethSet := ethSet st; ensMap := ensMap st |}]> store;
        inflight := inflight s; launched := launched s |}, [])
  else (s, []).

(** The settling of a backend call issued for [name] in chat [c]: the
    closure stores a truthy result and ignores [null] or a rejection
    ([None]). *)
Definition onResolved (c : Z) (name : jsstring) (result : option jsstring)
    (s : Sys) : option (Sys * list Action) :=
  if bool_decide ((c, name) ∈ inflight s) then
    let fl := filter (fun t => t ≠ (c, name)) (inflight s) in
    match result, memoryStore s !! c with
    | Some resolved, Some st =>
        if truthy resolved then
          Some ({| memoryStore :=
                     <[c := {| watching := watching st; ethSet := ethSet st;
                               ensMap := mapSet name (Some resolved) (ensMap st) |}]>
                       (memoryStore s);
                   inflight := fl; launched := launched s |}, [])
        else Some ({| memoryStore := memoryStore s; inflight := fl; launched := launched s |}, [])
    | _, _ => Some ({| memoryStore := memoryStore s; inflight := fl; launched := launched s |}, [])
    end
  else None.

(** What can happen to the process.  Telegraf routes a regular message
    either to a registered command or to the ['text'] handler, and a
    channel post to the ['channel_post'] handler. *)
Inductive Event : Type :=
| EvMyChatMember (ctx : Ctx) (type : ChatType) (old new : option MemberStatus)
| EvCommand (cmd : Command) (ctx : Ctx)
| EvText (ctx : Ctx) (text : jsstring)
| EvChannelPost (ctx : Ctx) (text : jsstring)
| EvResolved (c : Z) (name : jsstring) (result : option jsstring).

Definition handle (e : Event) (s : Sys) : option (Sys * list Action) :=
  match e with
  | EvMyChatMember ctx type old new => Some (onMyChatMember ctx type old new s)
  | EvCommand cmd ctx => Some (runCommand cmd ctx s)
  | EvText ctx text => Some (onText ctx text s)
  | EvChannelPost ctx text => Some (onChannelPost ctx text s)
  | EvResolved c name result => onResolved c name result s
  end.

Inductive reachable : Sys -> Prop :=
| reach_init : reachable initSys
| reach_step s e s' acts :
    reachable s -> handle e s = Some (s', acts) -> reachable s'.

(** Running a list of events from a state; [None] if a settling arrives
    for a call that is not in flight. *)
Fixpoint run (evs : list Event) (s : Sys) : option Sys :=
  match evs with
  | [] => Some s
  | e :: evs' =>
      match handle e s with
      | Some (s', _) => run evs' s'
      | None => None
      end
  end.

End Bot.

(* ===================================================================== *)
(** ** Vocabulary of the statements

    Views of the state, invariants, and the declarative reading of the
    export layout and of the address pattern that the theorems use. *)
(* ===================================================================== *)

(** The matcher looks at its continuation only on [x .. n]. *)
Definition progressive (n : nat) (m : Matcher) : Prop :=
  forall x c c', x <= n ->
    (forall y, x <= y <= n -> c y = c' y) -> m x c = m x c'.

(** A result of the matcher is a result of its continuation on [x .. n]. *)
Definition provenant (n : nat) (m : Matcher) : Prop :=
  forall x c z, x <= n -> m x c = Some z -> exists y, x <= y <= n /\ c y = Some z.

(** The address set and the name mapping of a chat; a chat that has no
    state yet has collected nothing. *)
Definition collected (s : Sys) (c : Z) : list jsstring * list (jsstring * option jsstring) :=
  match memoryStore s !! c with
  | Some st => (ethSet st, ensMap st)
  | None => ([], [])
  end.

(** The state with its registry replaced. *)
Definition withStore (s : Sys) (store : gmap Z ChatState) : Sys :=
  {| memoryStore := store; inflight := inflight s; launched := launched s |}.


(** The address loop of [handleText]. *)
Definition addAll (e : list jsstring) (ms : list jsstring) : list jsstring :=
  foldl (fun e m => setAdd (toLowerCase m) e) e ms.

(** The state the name loop of [handleText] threads: the name mapping, the
    calls in flight and the launch log. *)
Definition NameAcc : Type :=
  list (jsstring * option jsstring) * list (Z * jsstring) * list (Z * jsstring).

(** The name loop of [handleText]. *)
Definition scanNames (useEns : bool) (c : Z) (acc : NameAcc) (ms : list jsstring) : NameAcc :=
  foldl (nameStep useEns c) acc ms.

(** The name mapping of a chat. *)
Definition namesOf (s : Sys) (c : Z) : list (jsstring * option jsstring) :=
  (collected s c).2.

(** What holds of one chat's name mapping in every state the bot reaches:
    keys are unique, a name with a backend call in flight is still [null],
    every launched name is in the mapping, and stored addresses are truthy. *)
Record NamesInv (c : Z) (names : list (jsstring * option jsstring))
    (fl la : list (Z * jsstring)) : Prop := {
  ni_keys : NoDup names.*1;
  ni_inflight : forall n, (c, n) ∈ fl -> mapGet n names = Some None;
  ni_launched : forall n, (c, n) ∈ la -> n ∈ names.*1;
  ni_truthy : forall n r, mapGet n names = Some (Some r) -> truthy r = true
}.

(** The invariant of the process state. *)
Record Inv (s : Sys) : Prop := {
  inv_names : forall c, NamesInv c (namesOf s c) (inflight s) (launched s);
  inv_launched : NoDup (launched s)
}.

(** The way a stored outcome may change: not at all, or away from [null]. *)
Definition outcomeStep (v v' : option jsstring) : Prop := v = None \/ v' = v.

(** Every entry of [names] is still in [names'], with its outcome the same
    or moved away from [null]. *)
Definition namesStep (names names' : list (jsstring * option jsstring)) : Prop :=
  forall n v, mapGet n names = Some v ->
    exists v', mapGet n names' = Some v' /\ outcomeStep v v'.

(** The same, for every chat of the registry. *)
Definition sysStep (s s' : Sys) : Prop :=
  forall c, namesStep (namesOf s c) (namesOf s' c).

(** The invariant of chat [c], on the state of the name loop. *)
Definition accInv (c : Z) (acc : NameAcc) : Prop :=
  NamesInv c acc.1.1 acc.1.2 acc.2 /\ NoDup acc.2.

(** The loop only ever adds tasks of chat [c], and never drops one. *)
Definition accRel (c : Z) (acc acc' : NameAcc) : Prop :=
  (forall n v, mapGet n acc.1.1 = Some v -> mapGet n acc'.1.1 = Some v) /\
  (forall t, t ∈ acc'.1.2 -> t ∈ acc.1.2 \/ t.1 = c) /\
  (forall t, t ∈ acc'.2 -> t ∈ acc.2 \/ t.1 = c).

(** Later states of the process. *)
Inductive steps (ownerTelegramId : Z) (useEns : bool)
    (getAddress : option (jsstring -> option jsstring))
    (sendMessageOk : Z -> jsstring -> bool) : Sys -> Sys -> Prop :=
| steps_refl s : steps ownerTelegramId useEns getAddress sendMessageOk s s
| steps_step s e s1 acts s2 :
    handle ownerTelegramId useEns getAddress sendMessageOk e s = Some (s1, acts) ->
    steps ownerTelegramId useEns getAddress sendMessageOk s1 s2 ->
    steps ownerTelegramId useEns getAddress sendMessageOk s s2.

(** The second loop of the result set: resolved names. *)
Definition addResolved (s : list jsstring) (entries : list (jsstring * option jsstring))
    : list jsstring :=
  foldl (fun s entry =>
           match entry.2 with
           | Some resolved =>
               if truthy resolved then setAdd (toLowerCase resolved) s else s
           | None => s
           end) s entries.

(** [a] may stand before [b]: the comparator does not put [b] first. *)
Definition addrLe (a b : jsstring) : Prop := compareAddr a b ≠ Gt.

(** The lines of one chunk, each ended by a line feed. *)
Definition renderLines (g : list jsstring) : jsstring :=
  concat (map (fun a => a ++ nl) g).

(** The chunks for a grouping of the lines: the header opens the first. *)
Definition chunkTexts (pre : jsstring) (groups : list (list jsstring)) : list jsstring :=
  match groups with
  | [] => []
  | g :: gs => (pre ++ renderLines g) :: map renderLines gs
  end.

(** What [exportBlocks] looks like for the lines it is given: one block
    with the header and the joined lines, or numbered parts that cut the
    lines into consecutive groups. *)
Definition blocksLayout (header : jsstring) (lines : list jsstring)
    (blocks : list jsstring) : Prop :=
  blocks = [header ++ join nl lines] \/
  exists groups,
    concat groups = lines /\
    blocks = imap (partMessage (length groups)) (chunkTexts header groups).

(** One address through [getAddress], kept as it is when that throws. *)
Definition checksumOrKeep (f : jsstring -> option jsstring) (addr : jsstring) : jsstring :=
  match f addr with
  | Some c => c
  | None => addr
  end.

(** [[0-9A-Fa-f]] *)
Definition isHexDigit (c : N) : bool :=
  between 48 57 c || between 65 70 c || between 97 102 c.

Definition isHexAt (input : jsstring) (i : nat) : bool :=
  match input !! i with
  | Some c => isHexDigit c
  | None => false
  end.

Definition charAt (input : jsstring) (i : nat) (c : N) : bool :=
  match input !! i with
  | Some a => (a =? c)%N
  | None => false
  end.

(** An address stands at index [i]: a word boundary, [0], lower-case [x],
    forty hex digits of either case, a word boundary. *)
Definition isAddressAt (input : jsstring) (i : nat) : bool :=
  wordBoundaryAt input i && charAt input i 48 && charAt input (S i) 120
  && forallb (isHexAt input) (seq (S (S i)) 40)
  && wordBoundaryAt input (i + 42).

(** The indices of the input at which an address stands, in order. *)
Definition addressPositions (input : jsstring) : list nat :=
  filter (fun i => isAddressAt input i = true) (seq 0 (length input)).

(** The pattern read as the specification words it, with the whole match
    case-insensitive: an address stands at [i] of the lower-cased input. *)
Definition spec_isAddressAt (input : jsstring) (i : nat) : bool :=
  isAddressAt (toLowerCase input) i.

(* ===================================================================== *)
(** ** Sample chats, states and traces *)
(* ===================================================================== *)

Definition addr_a : jsstring := js "0x" ++ repeat 97%N 40.

Definition addr_b : jsstring := js "0x" ++ repeat 98%N 40.

Definition ctx_group : Ctx :=
  {| chatId := -1001; chatTitle := Some (js "Airdrop"); fromId := Some 42%Z;
     channelPost := false |}.

Definition ctx_channel : Ctx :=
  {| chatId := -1002; chatTitle := Some (js "Announcements"); fromId := None;
     channelPost := true |}.

Definition sys_channel : Sys :=
  handleText true ctx_channel (js "gm " ++ addr_a ++ js " vitalik.eth")
    (mkSys {[ chatId ctx_channel := mkChat true [] [] ]} [] []).

Definition trace_one : list Event :=
  [EvMyChatMember ctx_group Supergroup (Some Left) (Some Member);
   EvText ctx_group (js "gm vitalik.eth and nick.eth " ++ addr_a)].

Definition trace_two : list Event :=
  [EvResolved (chatId ctx_group) (js "vitalik.eth") (Some addr_b);
   EvText ctx_group (js "Vitalik.ETH again, and nick.eth");
   EvResolved (chatId ctx_group) (js "nick.eth") None;
   EvCommand CmdStatus ctx_group].

Definition sys_one : Sys :=
  {| memoryStore :=
       {[ chatId ctx_group :=
            {| watching := true; ethSet := [addr_a];
               ensMap := [(js "vitalik.eth", None); (js "nick.eth", None)] |} ]};
     inflight := [(chatId ctx_group, js "vitalik.eth"); (chatId ctx_group, js "nick.eth")];
     launched := [(chatId ctx_group, js "vitalik.eth"); (chatId ctx_group, js "nick.eth")] |}.

Definition sys_two : Sys :=
  {| memoryStore :=
       {[ chatId ctx_group :=
            {| watching := true; ethSet := [addr_a];
               ensMap := [(js "vitalik.eth", Some addr_b); (js "nick.eth", None)] |} ]};
     inflight := [];
     launched := [(chatId ctx_group, js "vitalik.eth"); (chatId ctx_group, js "nick.eth")] |}.

Definition trace_three : list Event :=
  [EvMyChatMember ctx_group Supergroup (Some Left) (Some Member);
   EvText ctx_group (js "pay " ++ js "0x" ++ repeat 66%N 40 ++ js " or vitalik.eth or nick.eth");
   EvResolved (chatId ctx_group) (js "vitalik.eth") (Some (js "0x" ++ repeat 66%N 40))].

Definition sys_three : Sys :=
  {| memoryStore :=
       {[ chatId ctx_group :=
            {| watching := true; ethSet := [addr_b];
               ensMap := [(js "vitalik.eth", Some (js "0x" ++ repeat 66%N 40));
                          (js "nick.eth", None)] |} ]};
     inflight := [(chatId ctx_group, js "nick.eth")];
     launched := [(chatId ctx_group, js "vitalik.eth"); (chatId ctx_group, js "nick.eth")] |}.

(** A checksum function that throws on one address and upper-cases the rest. *)
Definition demoChecksum (a : jsstring) : option jsstring :=
  if bool_decide (a = addr_a) then None else Some (map (fun c => if isLower c then (c - 32)%N else c) a).

Definition sys_four : Sys :=
  {| memoryStore :=
       {[ chatId ctx_group :=
            {| watching := true; ethSet := [addr_b; addr_a]; ensMap := [] |} ]};
     inflight := []; launched := [] |}.

Definition ctx_big : Ctx :=
  {| chatId := -1001; chatTitle := Some (js "Token Airdrop Signups 2025");
     fromId := Some 42%Z; channelPost := false |}.

(** Ninety-six distinct addresses, posted twelve to a message. *)
Definition mkAddr (i : nat) : jsstring :=
  js "0x" ++ repeat 48%N 37 ++ decimal (Z.of_nat (100 + i)).

Definition batchText (k : nat) : jsstring :=
  join (js " ") (map mkAddr (seq (12 * k) 12)).

Definition trace_big : list Event :=
  EvMyChatMember ctx_big Supergroup (Some Left) (Some Member)
  :: map (fun k => EvText ctx_big (batchText k)) (seq 0 8).

Definition sys_big : Sys :=
  default initSys (run 42 false None (fun _ _ => true) trace_big initSys).

Definition chat_big : ChatState :=
  (ensureChat (chatId ctx_big) (memoryStore sys_big)).2.

(** The chat of [sys_four]. *)
Definition chat_four : ChatState :=
  (ensureChat (chatId ctx_group) (memoryStore sys_four)).2.

(** The name of a command, as the dispatchers write it. *)
Definition cmdName (c : Command) : jsstring :=
  match c with
  | CmdHelp => js "help"
  | CmdWhoami => js "whoami"
  | CmdStatus => js "status"
  | CmdMakelist => js "makelist"
  end.

(** The two replies that close a delivery. *)
Definition sentReply : jsstring := js "Sent you a DM with the results.".

Definition failedReply : jsstring :=
  js "Failed to DM results. (Is the bot allowed to message you? Send /start to the bot in DM once.)".

(** The end of a delivery when [ctx.reply] can be refused like any other
    call of the transport.  The reply that confirms the delivery is awaited
    inside the [try], after the parts: when a part was refused, or this
    reply is, the [catch] runs and awaits the reply that reports a failure;
    when that one is refused too, the handler rejects, which the flag
    records.  A message that was refused is not in the list. *)
Definition closeDelivery (replyOk : Z -> jsstring -> bool) (chat : Z)
    (sent : list Action) (ok : bool) : list Action * bool :=
  if ok && replyOk chat sentReply then (sent ++ [Reply chat sentReply], false)
  else if replyOk chat failedReply then (sent ++ [Reply chat failedReply], false)
  else (sent, true).

(** [async function handleMakeList(ctx)] with every [await] subject to the
    transport: the messages that went out, and whether the handler
    rejected.  [handleMakeList] is the case in which no reply is refused. *)
Definition handleMakeListReplies (ownerTelegramId : Z)
    (getAddress : option (jsstring -> option jsstring))
    (sendMessageOk replyOk : Z -> jsstring -> bool)
    (ctx : Ctx) (s : Sys) : Sys * list Action * bool :=
  if negb (ownerOnly ownerTelegramId ctx) then (s, [], false)
  else
    let '(store, st) := ensureChat (chatId ctx) (memoryStore s) in
    let s' := {| memoryStore := store; inflight := inflight s; launched := launched s |} in
    if length (exportAddresses getAddress st) =? 0 then
      if replyOk (chatId ctx) (js "No addresses collected yet.")
      then (s', [Reply (chatId ctx) (js "No addresses collected yet.")], false)
      else (s', [], true)
    else
      let '(acts, ok) :=
        sendAll ownerTelegramId sendMessageOk (exportBlocks getAddress ctx st) in
      let '(acts', rejected) := closeDelivery replyOk (chatId ctx) acts ok in
      (s', acts', rejected).

(** The chat an event is about. *)
Definition eventChat (e : Event) : Z :=
  match e with
  | EvMyChatMember ctx _ _ _ => chatId ctx
  | EvCommand _ ctx => chatId ctx
  | EvText ctx _ => chatId ctx
  | EvChannelPost ctx _ => chatId ctx
  | EvResolved c _ _ => c
  end.

(** The state of a chat, a chat without one being as good as fresh. *)
Definition chatOf (s : Sys) (c : Z) : ChatState :=
  default freshChat (memoryStore s !! c).

(** How one event may change a chat: watching is not switched off, the
    address set takes the lower-cased address matches of some texts, and a
    new key of the name mapping is a lower-cased name match. *)
Record chatGrow (st st' : ChatState) : Prop := {
  cg_watch : watching st = true -> watching st' = true;
  cg_eth : exists ms,
      (forall m, m ∈ ms -> exists text, m ∈ ethMatches text) /\
      ethSet st' = addAll (ethSet st) ms;
  cg_names : forall k, k ∈ (ensMap st').*1 ->
      k ∈ (ensMap st).*1 \/ exists text raw, raw ∈ ensMatches text /\ k = toLowerCase raw
}.

(** [[0-9a-f]] *)
Definition isLowerHex (c : N) : bool := isDigit c || between 97 102 c.

(** The form of a stored address: [0x] and forty lower-case hex digits. *)
Definition isStoredAddress (a : jsstring) : bool :=
  match a with
  | 48%N :: 120%N :: ds => (length ds =? 40) && forallb isLowerHex ds
  | _ => false
  end.

(** The form of a stored name: lower-case, ending in [.eth]. *)
Definition isStoredName (k : jsstring) : Prop :=
  toLowerCase k = k /\ exists label, label ≠ [] /\ k = label ++ js ".eth".

(** What holds of every chat state the bot reaches. *)
Record ChatInv (st : ChatState) : Prop := {
  ci_eth_nodup : NoDup (ethSet st);
  ci_eth_form : forall a, a ∈ ethSet st -> isStoredAddress a = true;
  ci_names_form : forall k, k ∈ (ensMap st).*1 -> isStoredName k
}.

(** Case analysis on every comparison of code units in sight. *)
Ltac leb_cases :=
  repeat match goal with
         | |- context [(?a <=? ?b)%N] => destruct (N.leb_spec a b)
         | H : context [(?a <=? ?b)%N] |- _ => destruct (N.leb_spec a b)
         end;
  cbn [andb orb negb] in *.

(** A later state of a chat: watching was not switched off, and the address
    set and the keys of the name mapping were only extended at the end. *)
Definition chatMono (st st' : ChatState) : Prop :=
  (watching st = true -> watching st' = true) /\
  ethSet st `prefix_of` ethSet st' /\
  (ensMap st).*1 `prefix_of` (ensMap st').*1.

(** The condition under which [my_chat_member] switches watching on. *)
Definition joinsChat (type : ChatType) (old new : option MemberStatus) : bool :=
  match old with Some Left | Some Kicked => true | _ => false end
  && match new with
     | Some Member | Some Administrator | Some Creator => true
     | _ => false
     end
  && match type with Channel | Group | Supergroup => true | Private => false end.

(** A chat collected without a resolution backend. *)
Definition trace_five : list Event :=
  [EvMyChatMember ctx_group Supergroup (Some Left) (Some Member);
   EvText ctx_group (js "gm vitalik.eth " ++ addr_a)].

Definition sys_five : Sys :=
  {| memoryStore :=
       {[ chatId ctx_group :=
            {| watching := true; ethSet := [addr_a];
               ensMap := [(js "vitalik.eth", None)] |} ]};
     inflight := [];
     launched := [(chatId ctx_group, js "vitalik.eth")] |}.

Definition chat_five : ChatState :=
  (ensureChat (chatId ctx_group) (memoryStore sys_five)).2.

(** The chat of [sys_three]. *)
Definition chat_three : ChatState :=
  (ensureChat (chatId ctx_group) (memoryStore sys_three)).2.

(* ===================================================================== *)
(** ** The first revision of the bot

    The first revision in [bot.js] starts and stops watching on command,
    names one label before [.eth], takes channel posts for text only, and
    wraps the collection up into a text file for the owner. *)
(* ===================================================================== *)

Module Rev1.

(** [const ensRegex = /\b[a-z0-9-]{1,63}\.eth\b/gi] *)
Definition ensRegex : Regex :=
  seqAll [WordBoundary; Quant 1 (Some 63) (Class labelClass);
          Lit 46; Lit 101; Lit 116; Lit 104]
         WordBoundary.

Definition ensMatches (text : jsstring) : list jsstring := matchAll true ensRegex text.

(** [ctx.reply] and [ctx.telegram.sendDocument]. *)
Inductive Action : Type :=
| Reply (chat : Z) (text : jsstring)
| SendDocument (to : Z) (filename content caption : jsstring).

(** [Array.prototype.sort] with a comparator, as a stable insertion sort. *)
Fixpoint insertBy (cmp : jsstring -> jsstring -> comparison) (x : jsstring)
    (l : list jsstring) : list jsstring :=
  match l with
  | [] => [x]
  | y :: l' =>
      match cmp x y with
      | Gt => y :: insertBy cmp x l'
      | _ => x :: y :: l'
      end
  end.

Fixpoint sortBy (cmp : jsstring -> jsstring -> comparison) (l : list jsstring)
    : list jsstring :=
  match l with
  | [] => []
  | x :: l' => insertBy cmp x (sortBy cmp l')
  end.

(** The line of a name: [name addr] when resolved, else the name alone. *)
Definition nameLine (entry : jsstring * option jsstring) : jsstring :=
  match entry.2 with
  | Some resolved =>
      if truthy resolved then entry.1 ++ js " " ++ resolved else entry.1
  | None => entry.1
  end.

(** The array [lines] of the wrap-up after its final sort: the addresses
    sorted by [localeCompare], then the lines of the names, and the whole
    sorted by the case-insensitive comparator. *)
Definition wrapupLines (st : ChatState) : list jsstring :=
  sortBy compareAddr
    (sortBy localeCompare (ethSet st) ++ map nameLine (ensMap st)).

Definition wrapupContent (c : Z) (st : ChatState) : jsstring :=
  match wrapupLines st with
  | [] => js "(Chat " ++ decimal c ++ js ") No ENS/ETH collected."
  | lines => join nl lines
  end.

Section Handlers.

Variable ownerTelegramId : Z.
Variable useEns : bool.
Variable sendDocumentOk : Z -> jsstring -> bool.
Variable replyOk : Z -> jsstring -> bool.

(** [function ownerOnly(ctx)] *)
Definition ownerOnly (ctx : Ctx) : bool :=
  match fromId ctx with
  | Some id => bool_decide (id = ownerTelegramId)
  | None => false
  end.

Definition setWatching (b : bool) (ctx : Ctx) (s : Sys) : Sys :=
  let '(store, st) := ensureChat (chatId ctx) (memoryStore s) in
  {| memoryStore :=
       <[chatId ctx := {| watching := b; ethSet := ethSet st; ensMap := ensMap st |}]> store;
     inflight := inflight s; launched := launched s |}.

(** [bot.command('whoami', ...)] *)
Definition handleWhoami (ctx : Ctx) (s : Sys) : Sys * list Action :=
  (s, [Reply (chatId ctx)
         (js "Your Telegram ID: " ++
          match fromId ctx with
          | Some id => decimal id
          | None => js "unknown"
          end)]).

(** [bot.command('watch', ...)] *)
Definition handleWatch (ctx : Ctx) (s : Sys) : Sys * list Action :=
  if negb (ownerOnly ctx) then (s, [])
  else (setWatching true ctx s,
        [Reply (chatId ctx)
           (js "Watching this chat. I will collect ETH addresses and ENS names from messages going forward.")]).

(** [bot.command('stop', ...)] *)
Definition handleStop (ctx : Ctx) (s : Sys) : Sys * list Action :=
  if negb (ownerOnly ctx) then (s, [])
  else (setWatching false ctx s, [Reply (chatId ctx) (js "Stopped watching this chat.")]).

(** [bot.command('status', ...)] *)
Definition handleStatus (ctx : Ctx) (s : Sys) : Sys * list Action :=
  if negb (ownerOnly ctx) then (s, [])
  else
    let '(store, st) := ensureChat (chatId ctx) (memoryStore s) in
    let ethCount := length (ethSet st) in
    let ensCount := length (ensMap st) in
    ({| memoryStore := store; inflight := inflight s; launched := launched s |},
     [Reply (chatId ctx)
        (js "Watched: " ++ (if watching st then js "true" else js "false") ++ nl
         ++ js "Collected: " ++ decimal (Z.of_nat (ethCount + ensCount)) ++ js " (ETH: "
         ++ decimal (Z.of_nat ethCount) ++ js ", ENS: "
         ++ decimal (Z.of_nat ensCount) ++ js ")")]).

(** The [catch] of the wrap-up: it awaits the reply that reports a failure,
    and the handler rejects when that reply is refused. *)
Definition reportFailure (chat : Z) (sent : list Action) : list Action * bool :=
  if replyOk chat failedReply then (sent ++ [Reply chat failedReply], false)
  else (sent, true).

(** [bot.command('wrapup', ...)]: the messages that went out, and whether
    the handler rejected.  The file and the reply that confirms it are
    awaited inside the [try]; a refusal of either runs the [catch]. *)
Definition handleWrapup (ctx : Ctx) (s : Sys) : Sys * list Action * bool :=
  if negb (ownerOnly ctx) then (s, [], false)
  else
    let '(store, st) := ensureChat (chatId ctx) (memoryStore s) in
    let s' := {| memoryStore := store; inflight := inflight s; launched := launched s |} in
    let content := wrapupContent (chatId ctx) st in
    let fileName := js "addresses_" ++ decimal (chatId ctx) ++ js ".txt" in
    let caption := js "Collected from chat " ++ decimal (chatId ctx) ++ js "." in
    let file := SendDocument ownerTelegramId fileName content caption in
    let '(acts, rejected) :=
      if sendDocumentOk ownerTelegramId content then
        if replyOk (chatId ctx) sentReply
        then ([file; Reply (chatId ctx) sentReply], false)
        else reportFailure (chatId ctx) [file]
      else reportFailure (chatId ctx) [] in
    (s', acts, rejected).

(** [async function handleText(ctx, text)], called for a regular text
    message and for a channel post alike. *)
Definition handleText (ctx : Ctx) (text : jsstring) (s : Sys) : Sys :=
  let c := chatId ctx in
  let '(store, st) := ensureChat c (memoryStore s) in
  if negb (watching st) then
    {| memoryStore := store; inflight := inflight s; launched := launched s |}
  else
    let eths := foldl (fun e m => setAdd (toLowerCase m) e) (ethSet st) (ethMatches text) in
    let '(names, fl, la) :=
      foldl (nameStep useEns c) (ensMap st, inflight s, launched s) (ensMatches text) in
    {| memoryStore :=
         <[c := {| watching := watching st; ethSet := eths; ensMap := names |}]> store;
       inflight := fl; launched := la |}.

End Handlers.

End Rev1.

(* ===================================================================== *)
(** ** The extractors on a sample text *)
(* ===================================================================== *)

Example eth_ex1 :
  ethMatches (js "send to " ++ addr_a ++ js " and vitalik.eth, a.B.Eth!")
  = [addr_a].
Proof. vm_compute. reflexivity. Qed.

Example ens_ex1 :
  ensMatches (js "send to " ++ addr_a ++ js " and vitalik.eth, a.B.Eth! x.ethy foo.eth.eth")
  = [js "vitalik.eth"; js "a.B.Eth"; js "foo.eth.eth"].
Proof. vm_compute. reflexivity. Qed.

(* ===================================================================== *)
(** ** Basic facts about strings and containers *)
(* ===================================================================== *)

Lemma isCmd_nil cmd : isCmd [] cmd = false.
Proof. reflexivity. Qed.

Lemma isCmd_truthy text cmd : isCmd text cmd = true -> truthy text = true.
Proof. destruct text; [rewrite isCmd_nil; discriminate | reflexivity]. Qed.

Lemma setAdd_elem x s : x ∈ setAdd x s.
Proof.
  unfold setAdd. case_bool_decide; [done | set_solver].
Qed.

Lemma setAdd_mono x y s : y ∈ s -> y ∈ setAdd x s.
Proof. unfold setAdd. case_bool_decide; set_solver. Qed.

Lemma setAdd_present x s : x ∈ s -> setAdd x s = s.
Proof. intros H. unfold setAdd. by rewrite bool_decide_eq_true_2. Qed.

Lemma setAdd_elem_of x y s : y ∈ setAdd x s <-> y = x \/ y ∈ s.
Proof. unfold setAdd. case_bool_decide; set_solver. Qed.

Lemma setAdd_NoDup x s : NoDup s -> NoDup (setAdd x s).
Proof.
  intros H. unfold setAdd. case_bool_decide; [done |].
  apply NoDup_app. split_and!; [done | set_solver | apply NoDup_singleton].
Qed.

Lemma mapSet_keys_present {V} k (v : V) m :
  k ∈ m.*1 -> (mapSet k v m).*1 = m.*1.
Proof.
  induction m as [|[k' v'] m IH]; simpl.
  - intros H. by apply elem_of_nil in H.
  - intros H. case_bool_decide; subst; simpl; [done |].
    f_equal. apply IH. apply elem_of_cons in H as [->|H]; done.
Qed.

Lemma mapSet_keys_absent {V} k (v : V) m :
  k ∉ m.*1 -> mapSet k v m = m ++ [(k, v)].
Proof.
  induction m as [|[k' v'] m IH]; simpl; [done |].
  intros H. apply not_elem_of_cons in H as [Hne H].
  rewrite bool_decide_eq_false_2 by done.
  f_equal. by apply IH.
Qed.

Lemma mapGet_Some_elem {V} k (v : V) m : mapGet k m = Some v -> (k, v) ∈ m.
Proof.
  induction m as [|[k' v'] m IH]; simpl; [done |].
  case_bool_decide; subst; [intros [= ->]; set_solver | set_solver].
Qed.

Lemma mapGet_elem_NoDup {V} k (v : V) m :
  NoDup m.*1 -> (k, v) ∈ m -> mapGet k m = Some v.
Proof.
  induction m as [|[k' v'] m IH]; simpl; [set_solver |].
  intros Hnd Hin. apply NoDup_cons in Hnd as [Hk Hnd].
  apply elem_of_cons in Hin as [[= <- <-]|Hin].
  - by rewrite bool_decide_eq_true_2.
  - case_bool_decide; subst; [| by apply IH].
    exfalso. apply Hk. apply list_elem_of_fmap. by exists (k, v).
Qed.

Lemma mapGet_None {V} k (m : list (jsstring * V)) : mapGet k m = None <-> k ∉ m.*1.
Proof.
  induction m as [|[k' v'] m IH]; simpl; [set_solver |].
  case_bool_decide; subst; [split; [done | set_solver] |].
  rewrite IH. set_solver.
Qed.

Lemma mapGet_mapSet_eq {V} k (v : V) m : mapGet k (mapSet k v m) = Some v.
Proof.
  induction m as [|[k' v'] m IH]; simpl.
  - by rewrite bool_decide_eq_true_2.
  - case_bool_decide; simpl; subst.
    + by rewrite bool_decide_eq_true_2.
    + by rewrite bool_decide_eq_false_2.
Qed.

Lemma mapGet_mapSet_ne {V} k k' (v : V) m :
  k ≠ k' -> mapGet k' (mapSet k v m) = mapGet k' m.
Proof.
  intros Hne. induction m as [|[k0 v0] m IH]; simpl.
  - by rewrite bool_decide_eq_false_2.
  - case_bool_decide; simpl; subst.
    + by rewrite !bool_decide_eq_false_2.
    + case_bool_decide; [done | apply IH].
Qed.

Lemma mapSet_NoDup {V} k (v : V) m : NoDup m.*1 -> NoDup (mapSet k v m).*1.
Proof.
  intros H. destruct (decide (k ∈ m.*1)) as [Hin|Hin].
  - by rewrite mapSet_keys_present.
  - rewrite mapSet_keys_absent by done. rewrite fmap_app. simpl.
    apply NoDup_app. split_and!; [done | set_solver | apply NoDup_singleton].
Qed.

(* ===================================================================== *)
(** ** The engine's fuel is never used up

    A matcher built by [compile] calls its continuation only at indices
    between its start and the end of the input, and its result is one its
    continuation gave.  So the nesting bound of a quantifier and the
    iteration bound of the global scan are never reached: more fuel gives
    the same result. *)
(* ===================================================================== *)

Section Fuel.

Variable n : nat.

Lemma repeatMatcher_progressive m fuel min max :
  progressive n m -> progressive n (repeatMatcher m fuel min max).
Proof.
  intros Hm. revert min max. induction fuel as [|fuel IH]; intros min max x c c' Hx Hc.
  - done.
  - cbn [repeatMatcher]. case_bool_decide; [apply Hc; lia |].
    set (d := fun y => if (min =? 0) && (y =? x) then None
                       else repeatMatcher m fuel (pred min) (pred <$> max) y c).
    set (d' := fun y => if (min =? 0) && (y =? x) then None
                        else repeatMatcher m fuel (pred min) (pred <$> max) y c').
    assert (Hd : m x d = m x d').
    { apply Hm; [done |]. intros y Hy. unfold d, d'.
      destruct ((min =? 0) && (y =? x)); [done |].
      apply IH; [lia |]. intros y' Hy'. apply Hc. lia. }
    rewrite Hd. destruct (min =? 0); [| done].
    destruct (m x d'); [done |]. apply Hc. lia.
Qed.

Lemma repeatMatcher_provenant m fuel min max :
  provenant n m -> provenant n (repeatMatcher m fuel min max).
Proof.
  intros Hm. revert min max. induction fuel as [|fuel IH]; intros min max x c z Hx.
  - done.
  - cbn [repeatMatcher]. case_bool_decide.
    { intros Hc. exists x. split; [lia | done]. }
    set (d := fun y => if (min =? 0) && (y =? x) then None
                       else repeatMatcher m fuel (pred min) (pred <$> max) y c).
    assert (Hd : m x d = Some z -> exists y, x <= y <= n /\ c y = Some z).
    { intros H'. destruct (Hm x d z Hx H') as (y & Hy & Hdy). unfold d in Hdy.
      destruct ((min =? 0) && (y =? x)); [done |].
      destruct (IH _ _ y c z ltac:(lia) Hdy) as (y' & Hy' & Hc').
      exists y'. split; [lia | done]. }
    destruct (min =? 0); [| exact Hd].
    destruct (m x d) as [z'|] eqn:E.
    + intros [= ->]. by apply Hd.
    + intros Hc. exists x. split; [lia | done].
Qed.

(** Any two fuels above the nesting bound give the same result. *)
Lemma repeatMatcher_fuel m :
  progressive n m ->
  forall fuel1 fuel2 min max x c,
    x <= n -> min + (n - x) < fuel1 -> min + (n - x) < fuel2 ->
    repeatMatcher m fuel1 min max x c = repeatMatcher m fuel2 min max x c.
Proof.
  intros Hm. induction fuel1 as [|fuel1 IH]; intros fuel2 min max x c Hx H1 H2; [lia |].
  destruct fuel2 as [|fuel2]; [lia |].
  cbn [repeatMatcher]. case_bool_decide; [done |].
  set (d1 := fun y => if (min =? 0) && (y =? x) then None
                      else repeatMatcher m fuel1 (pred min) (pred <$> max) y c).
  set (d2 := fun y => if (min =? 0) && (y =? x) then None
                      else repeatMatcher m fuel2 (pred min) (pred <$> max) y c).
  assert (Hd : m x d1 = m x d2).
  { apply Hm; [done |]. intros y Hy. unfold d1, d2.
    destruct (min =? 0) eqn:Emin; cbn [andb].
    - destruct (y =? x) eqn:Ey; [done |].
      apply Nat.eqb_eq in Emin. apply Nat.eqb_neq in Ey.
      apply IH; lia.
    - apply Nat.eqb_neq in Emin. apply IH; lia. }
  by rewrite Hd.
Qed.

End Fuel.

Lemma compile_progressive ic input r :
  progressive (length input) (compile ic input r).
Proof.
  induction r as [|ch|ranges|r1 IH1 r2 IH2|min max r IH]; intros x c c' Hx Hc;
    cbn [compile].
  - destruct (wordBoundaryAt input x); [apply Hc; lia | done].
  - destruct (input !! x) as [a|] eqn:E; [| done].
    apply lookup_lt_Some in E. destruct (_ =? _)%N; [apply Hc; lia | done].
  - destruct (input !! x) as [a|] eqn:E; [| done].
    apply lookup_lt_Some in E. destruct (charSetMatches _ _ _); [apply Hc; lia | done].
  - apply IH1; [done |]. intros y Hy. apply IH2; [lia |].
    intros y' Hy'. apply Hc. lia.
  - by apply (repeatMatcher_progressive (length input) _ _ _ _ IH).
Qed.

Lemma compile_provenant ic input r :
  provenant (length input) (compile ic input r).
Proof.
  induction r as [|ch|ranges|r1 IH1 r2 IH2|min max r IH]; intros x c z Hx;
    cbn [compile].
  - destruct (wordBoundaryAt input x); [| done].
    intros H. exists x. split; [lia | done].
  - destruct (input !! x) as [a|] eqn:E; [| done].
    apply lookup_lt_Some in E. destruct (_ =? _)%N; [| done].
    intros H. exists (S x). split; [lia | done].
  - destruct (input !! x) as [a|] eqn:E; [| done].
    apply lookup_lt_Some in E. destruct (charSetMatches _ _ _); [| done].
    intros H. exists (S x). split; [lia | done].
  - intros H. destruct (IH1 x _ z Hx H) as (y & Hy & H2).
    destruct (IH2 y c z ltac:(lia) H2) as (y' & Hy' & H3).
    exists y'. split; [lia | done].
  - by apply (repeatMatcher_provenant (length input) _ _ _ _ IH).
Qed.

(** The quantifier of [compile] has fuel to spare. *)
Lemma compile_Quant_fuel ic input min max r x c extra :
  x <= length input ->
  compile ic input (Quant min max r) x c
  = repeatMatcher (compile ic input r) (min + length input + 2 + extra) min max x c.
Proof.
  intros Hx. cbn [compile].
  apply (repeatMatcher_fuel (length input)); [apply compile_progressive | done | lia | lia].
Qed.

(** A match ends between its start and the end of the input. *)
Lemma matchAt_range ic r input i e :
  i <= length input -> matchAt ic r input i = Some e -> i <= e <= length input.
Proof.
  intros Hi H. destruct (compile_provenant ic input r i Some e Hi H) as (y & Hy & [= ->]).
  done.
Qed.

(** The global scan has fuel to spare. *)
Lemma execFrom_fuel ic r input fuel1 :
  forall fuel2 i,
    length input < i + fuel1 -> length input < i + fuel2 ->
    execFrom ic r input fuel1 i = execFrom ic r input fuel2 i.
Proof.
  induction fuel1 as [|fuel1 IH]; intros fuel2 i H1 H2.
  - destruct fuel2 as [|fuel2]; [done |]. cbn [execFrom].
    by rewrite (proj2 (Nat.ltb_lt _ _)) by lia.
  - destruct fuel2 as [|fuel2]; cbn [execFrom].
    { by rewrite (proj2 (Nat.ltb_lt _ _)) by lia. }
    destruct (length input <? i) eqn:E; [done |].
    apply Nat.ltb_ge in E.
    destruct (matchAt ic r input i) as [e|] eqn:M.
    + pose proof (matchAt_range ic r input i e E M) as He.
      f_equal. destruct (e =? i) eqn:Ee.
      * apply Nat.eqb_eq in Ee. apply IH; lia.
      * apply Nat.eqb_neq in Ee. apply IH; lia.
    + apply IH; lia.
Qed.

Lemma matchAll_fuel ic r input extra :
  matchAll ic r input = execFrom ic r input (S (length input) + extra) 0.
Proof. unfold matchAll. apply execFrom_fuel; lia. Qed.

(* ===================================================================== *)
(** ** The command handlers and the registry *)
(* ===================================================================== *)

Section Frame.

Variable ownerTelegramId : Z.
Variable useEns : bool.
Variable getAddress : option (jsstring -> option jsstring).
Variable sendMessageOk : Z -> jsstring -> bool.

Lemma withStore_id s : withStore s (memoryStore s) = s.
Proof. by destruct s. Qed.

Lemma ensureChat_collected s c c' :
  collected (withStore s (ensureChat c (memoryStore s)).1) c' = collected s c'.
Proof.
  unfold ensureChat, collected. simpl.
  destruct (memoryStore s !! c) eqn:E; simpl; [done |].
  destruct (decide (c = c')) as [->|Hne].
  - by rewrite lookup_insert_eq, E.
  - by rewrite lookup_insert_ne.
Qed.

Lemma ensureChat_lookup c store :
  (ensureChat c store).1 !! c = Some (ensureChat c store).2.
Proof.
  unfold ensureChat. destruct (store !! c) eqn:E; simpl; [done |].
  by rewrite lookup_insert_eq.
Qed.

Lemma handleStatus_store ctx s :
  (handleStatus ownerTelegramId ctx s).1 = s \/
  (handleStatus ownerTelegramId ctx s).1
  = withStore s (ensureChat (chatId ctx) (memoryStore s)).1.
Proof.
  unfold handleStatus. destruct (negb _); [by left |].
  destruct (ensureChat _ _) as [store st] eqn:E. right. done.
Qed.

Lemma handleMakeList_store ctx s :
  (handleMakeList ownerTelegramId getAddress sendMessageOk ctx s).1 = s \/
  (handleMakeList ownerTelegramId getAddress sendMessageOk ctx s).1
  = withStore s (ensureChat (chatId ctx) (memoryStore s)).1.
Proof.
  unfold handleMakeList. destruct (negb _); [by left |].
  destruct (ensureChat _ _) as [store st] eqn:E. right.
  destruct (_ =? 0); [done |]. by destruct (sendAll _ _ _).
Qed.

Lemma runCommand_store cmd ctx s :
  (runCommand ownerTelegramId getAddress sendMessageOk cmd ctx s).1 = s \/
  (runCommand ownerTelegramId getAddress sendMessageOk cmd ctx s).1
  = withStore s (ensureChat (chatId ctx) (memoryStore s)).1.
Proof.
  destruct cmd; simpl; [by left | by left | apply handleStatus_store
                       | apply handleMakeList_store].
Qed.

End Frame.

(* ===================================================================== *)
(** ** The collector on a chat that is not watching (C5) *)
(* ===================================================================== *)

(** C5, as stated, fails: on a chat that has no state yet the collector
    records nothing but it does put a fresh state for the chat into the
    registry. *)
Lemma handleText_unknown_chat_changes_registry :
  memoryStore initSys !! chatId ctx_group = None /\
  handleText true ctx_group (js "gm " ++ addr_a) initSys ≠ initSys /\
  memoryStore (handleText true ctx_group (js "gm " ++ addr_a) initSys)
    !! chatId ctx_group = Some freshChat.
Proof.
  split; [done |]. split; [| by vm_compute].
  intros H. apply (f_equal (fun s => memoryStore s !! chatId ctx_group)) in H.
  vm_compute in H. discriminate.
Qed.

Lemma handleText_off (useEns : bool) (ctx : Ctx) (text : jsstring) (s : Sys) :
  watching <$> memoryStore s !! chatId ctx ≠ Some true ->
  handleText useEns ctx text s =
    match memoryStore s !! chatId ctx with
    | Some _ => s
    | None => withStore s (<[chatId ctx := freshChat]> (memoryStore s))
    end.
Proof.
  intros Hw. unfold handleText, ensureChat.
  destruct (memoryStore s !! chatId ctx) as [st|] eqn:E; simpl in *.
  - destruct (watching st); [congruence |]. simpl. by destruct s.
  - done.
Qed.

(** C5 (amended): if the chat is not watching, the collector records no
    address and no name and launches no resolution; a chat that already has
    a state leaves the whole program state unchanged, and a chat without one
    gets a fresh, empty, non-watching state in the registry and nothing else
    changes. *)
Theorem handleText_not_watching (useEns : bool) (ctx : Ctx) (text : jsstring) (s : Sys) :
  watching <$> memoryStore s !! chatId ctx ≠ Some true ->
  handleText useEns ctx text s =
    match memoryStore s !! chatId ctx with
    | Some _ => s
    | None => withStore s (<[chatId ctx := freshChat]> (memoryStore s))
    end.
Proof.
  intros Hw. unfold handleText, ensureChat.
  destruct (memoryStore s !! chatId ctx) as [st|] eqn:E; simpl in *.
  - destruct (watching st); [congruence |]. simpl. by destruct s.
  - done.
Qed.

Lemma handleText_not_watching_witness :
  handleText true ctx_group (js "gm " ++ addr_a) initSys
  = withStore initSys (<[chatId ctx_group := freshChat]> (memoryStore initSys)).
Proof.
  apply (handleText_not_watching true ctx_group (js "gm " ++ addr_a) initSys).
  vm_compute. discriminate.
Defined.

(* ===================================================================== *)
(** ** Commands in channel posts (C10) *)
(* ===================================================================== *)

Lemma channelCommand_of_prefix text :
  (isCmd text (js "help") = true \/ isCmd text (js "whoami") = true \/
   isCmd text (js "status") = true \/ isCmd text (js "makelist") = true) ->
  exists cmd, channelCommand text = Some cmd.
Proof.
  unfold channelCommand. intros H.
  destruct (isCmd text (js "help")); [eauto |].
  destruct (isCmd text (js "whoami")); [eauto |].
  destruct (isCmd text (js "status")); [eauto |].
  destruct (isCmd text (js "makelist")); [eauto |].
  naive_solver.
Qed.

(** The channel-post dispatcher tests a prefix of the trimmed text only: a
    longer word that merely begins like a command is taken for it. *)
Example channelCommand_prefix_only :
  channelCommand (js "  /helpme please") = Some CmdHelp /\
  channelCommand (js "/status_report") = Some CmdStatus /\
  channelCommand (js "/makelist@some_other_bot") = Some CmdMakelist /\
  channelCommand (js "see /help") = None.
Proof. vm_compute. repeat split. Qed.

(** C10: a channel post whose trimmed text starts with [/help], [/whoami],
    [/status] or [/makelist] goes to a command handler and never to the
    collector: no backend call is issued, no resolver is launched, and the
    address set and name mapping of every chat are what they were. *)
Theorem channel_command_post_collects_nothing
    (ownerTelegramId : Z) (useEns : bool)
    (getAddress : option (jsstring -> option jsstring))
    (sendMessageOk : Z -> jsstring -> bool)
    (ctx : Ctx) (text : jsstring) (s : Sys) :
  (startsWith (trim text) (js "/help") = true \/
   startsWith (trim text) (js "/whoami") = true \/
   startsWith (trim text) (js "/status") = true \/
   startsWith (trim text) (js "/makelist") = true) ->
  let r := onChannelPost ownerTelegramId useEns getAddress sendMessageOk ctx text s in
  (exists cmd, r = runCommand ownerTelegramId getAddress sendMessageOk cmd ctx s) /\
  inflight r.1 = inflight s /\
  launched r.1 = launched s /\
  (forall c, collected r.1 c = collected s c) /\
  (forall c st, memoryStore s !! c = Some st -> memoryStore r.1 !! c = Some st).
Proof.
  intros Hp r.
  assert (Ht : truthy text = true).
  { destruct Hp as [H|[H|[H|H]]]; eapply isCmd_truthy; exact H. }
  destruct (channelCommand_of_prefix text Hp) as [cmd Hcmd].
  assert (Hr : r = runCommand ownerTelegramId getAddress sendMessageOk cmd ctx s).
  { subst r. unfold onChannelPost. by rewrite Ht, Hcmd. }
  split; [eauto |]. rewrite Hr.
  destruct (runCommand_store ownerTelegramId getAddress sendMessageOk cmd ctx s)
    as [-> | ->]; [done |].
  split_and!; [done | done | intros c; apply ensureChat_collected |].
  intros c st Hc. simpl. unfold ensureChat.
  destruct (memoryStore s !! chatId ctx) eqn:E; simpl; [done |].
  rewrite lookup_insert_ne; [done | congruence].
Qed.

Lemma channel_command_post_collects_nothing_witness :
  collected
    (onChannelPost 42 true None (fun _ _ => true) ctx_channel
       (js " /status " ++ js "0x" ++ repeat 98%N 40 ++ js " nick.eth") sys_channel).1
    (chatId ctx_channel)
  = ([addr_a], [(js "vitalik.eth", None)]).
Proof.
  destruct (channel_command_post_collects_nothing 42 true None (fun _ _ => true)
              ctx_channel (js " /status " ++ js "0x" ++ repeat 98%N 40 ++ js " nick.eth")
              sys_channel) as (_ & _ & _ & Hc & _).
  - right. right. left. vm_compute. reflexivity.
  - rewrite Hc. vm_compute. reflexivity.
Defined.

(* ===================================================================== *)
(** ** The empty export (C9) *)
(* ===================================================================== *)


Lemma sortAddresses_length l : length (sortAddresses l) = length l.
Proof.
  assert (Hi : forall x l, length (insertSorted x l) = S (length l)).
  { intros x l0. induction l0 as [|y l0 IH]; simpl; [done |].
    destruct (compareAddr x y); simpl; by rewrite ?IH. }
  induction l as [|x l IH]; simpl; [done |]. by rewrite Hi, IH.
Qed.

Lemma checksummed_length getAddress l :
  length (checksummed getAddress l) = length l.
Proof. unfold checksummed. destruct getAddress; [apply length_map | done]. Qed.

Lemma exportAddresses_length getAddress st :
  length (exportAddresses getAddress st) = length (addressSet st).
Proof.
  unfold exportAddresses. by rewrite sortAddresses_length, checksummed_length.
Qed.




(* ===================================================================== *)
(** ** Idempotence of the collector (C3) *)
(* ===================================================================== *)

Section Idempotence.

Variable useEns : bool.

Lemma addAll_mono x e ms : x ∈ e -> x ∈ addAll e ms.
Proof.
  revert e. induction ms as [|m ms IH]; intros e H; simpl; [done |].
  apply IH. by apply setAdd_mono.
Qed.

Lemma addAll_contains e ms m : m ∈ ms -> toLowerCase m ∈ addAll e ms.
Proof.
  revert e. induction ms as [|m' ms IH]; intros e H; simpl.
  - by apply elem_of_nil in H.
  - apply elem_of_cons in H as [->|H]; [| by apply IH].
    apply addAll_mono, setAdd_elem.
Qed.

Lemma addAll_present e ms :
  (forall m, m ∈ ms -> toLowerCase m ∈ e) -> addAll e ms = e.
Proof.
  induction ms as [|m ms IH]; intros H; simpl; [done |].
  rewrite setAdd_present by (apply H; left).
  apply IH. intros m' Hm'. apply H. by right.
Qed.

Lemma addAll_idempotent e ms : addAll (addAll e ms) ms = addAll e ms.
Proof. apply addAll_present. intros m Hm. by apply addAll_contains. Qed.

Lemma mapHas_true {V} k (m : list (jsstring * V)) : mapHas k m = true <-> k ∈ m.*1.
Proof. unfold mapHas. apply bool_decide_eq_true. Qed.

Lemma mapSet_keys_mono {V} k k' (v : V) m : k' ∈ m.*1 -> k' ∈ (mapSet k v m).*1.
Proof.
  intros H. destruct (decide (k ∈ m.*1)) as [Hin|Hin].
  - by rewrite mapSet_keys_present.
  - rewrite mapSet_keys_absent, fmap_app by done. apply elem_of_app. by left.
Qed.

Lemma mapSet_keys_elem {V} k (v : V) m : k ∈ (mapSet k v m).*1.
Proof.
  destruct (decide (k ∈ m.*1)) as [Hin|Hin].
  - by rewrite mapSet_keys_present.
  - rewrite mapSet_keys_absent, fmap_app by done. apply elem_of_app.
    right. simpl. left.
Qed.

Lemma nameStep_keys_mono c acc raw k :
  k ∈ acc.1.1.*1 -> k ∈ (nameStep useEns c acc raw).1.1.*1.
Proof.
  destruct acc as [[names fl] la]. unfold nameStep. simpl.
  destruct (mapHas _ names); simpl; [done | apply mapSet_keys_mono].
Qed.

Lemma scanNames_keys_mono c acc ms k :
  k ∈ acc.1.1.*1 -> k ∈ (scanNames useEns c acc ms).1.1.*1.
Proof.
  revert acc. induction ms as [|m ms IH]; intros acc H; simpl; [done |].
  apply IH. by apply nameStep_keys_mono.
Qed.

Lemma scanNames_contains c acc ms m :
  m ∈ ms -> toLowerCase m ∈ (scanNames useEns c acc ms).1.1.*1.
Proof.
  revert acc. induction ms as [|m' ms IH]; intros acc H; simpl.
  - by apply elem_of_nil in H.
  - apply elem_of_cons in H as [->|H]; [| by apply IH].
    apply scanNames_keys_mono. destruct acc as [[names fl] la].
    unfold nameStep. destruct (mapHas _ names) eqn:E; simpl.
    + by apply mapHas_true.
    + apply mapSet_keys_elem.
Qed.

Lemma scanNames_present c acc ms :
  (forall m, m ∈ ms -> toLowerCase m ∈ acc.1.1.*1) -> scanNames useEns c acc ms = acc.
Proof.
  induction ms as [|m ms IH]; intros H; simpl; [done |].
  assert (Hs : nameStep useEns c acc m = acc).
  { destruct acc as [[names fl] la]. unfold nameStep.
    assert (Hh : mapHas (toLowerCase m) names = true)
      by (apply mapHas_true, (H m); left).
    by rewrite Hh. }
  rewrite Hs. apply IH. intros m' Hm'. apply H. by right.
Qed.

Lemma scanNames_idempotent c acc ms :
  scanNames useEns c (scanNames useEns c acc ms) ms = scanNames useEns c acc ms.
Proof. apply scanNames_present. intros m Hm. by apply scanNames_contains. Qed.

Lemma handleText_watching ctx text s st :
  memoryStore s !! chatId ctx = Some st -> watching st = true ->
  handleText useEns ctx text s =
    let acc := scanNames useEns (chatId ctx) (ensMap st, inflight s, launched s) (ensMatches text) in
    {| memoryStore :=
         <[chatId ctx := {| watching := true;
                            ethSet := addAll (ethSet st) (ethMatches text);
                            ensMap := acc.1.1 |}]> (memoryStore s);
       inflight := acc.1.2; launched := acc.2 |}.
Proof.
  intros E W. unfold handleText, ensureChat. rewrite E, W. simpl.
  unfold scanNames, addAll.
  by destruct (foldl _ _ (ensMatches text)) as [[names fl] la].
Qed.

End Idempotence.

(** C3: running the collector on a text a second time changes nothing: the
    whole program state after two runs (the registry with every chat's
    address set and name mapping, the backend calls in flight and the log
    of resolver launches) is the state after one run. *)
Theorem handleText_idempotent (useEns : bool) (ctx : Ctx) (text : jsstring) (s : Sys) :
  handleText useEns ctx text (handleText useEns ctx text s)
  = handleText useEns ctx text s.
Proof.
  destruct (memoryStore s !! chatId ctx) as [st|] eqn:E.
  - destruct (watching st) eqn:W.
    + rewrite (handleText_watching useEns ctx text s st E W). simpl.
      erewrite handleText_watching; [| simpl; apply lookup_insert_eq | done].
      simpl. rewrite addAll_idempotent, insert_insert_eq.
      remember (scanNames useEns (chatId ctx) (ensMap st, inflight s, launched s)
                  (ensMatches text)) as acc eqn:Hacc.
      destruct acc as [[names fl] la]. simpl.
      rewrite Hacc, scanNames_idempotent, <- Hacc. done.
    + assert (H1 : handleText useEns ctx text s = s).
      { rewrite handleText_off; rewrite E; simpl; congruence. }
      by rewrite !H1.
  - assert (H1 : handleText useEns ctx text s
                 = withStore s (<[chatId ctx := freshChat]> (memoryStore s))).
    { rewrite handleText_off; rewrite E; simpl; congruence. }
    rewrite H1. rewrite handleText_off; simpl; rewrite lookup_insert_eq; done.
Qed.

(* ===================================================================== *)
(** ** Invariants of the name mapping *)
(* ===================================================================== *)

Lemma mapSet_elem {V} k (v : V) m x : x ∈ mapSet k v m -> x = (k, v) \/ x ∈ m.
Proof.
  induction m as [|[k' v'] m IH]; simpl.
  - intros H. apply list_elem_of_singleton in H. by left.
  - case_bool_decide; subst; intros Hx; apply elem_of_cons in Hx as [->|Hx].
    + by left.
    + right. by right.
    + right. left.
    + destruct (IH Hx) as [-> | H']; [by left | right; by right].
Qed.

Lemma mapGet_is_Some {V} k (m : list (jsstring * V)) :
  k ∈ m.*1 -> is_Some (mapGet k m).
Proof.
  intros H. destruct (mapGet k m) eqn:E; [eauto |].
  by apply mapGet_None in E.
Qed.

Lemma mapGet_keys {V} k (v : V) m : mapGet k m = Some v -> k ∈ m.*1.
Proof.
  intros H. apply mapGet_Some_elem in H.
  apply list_elem_of_fmap. by exists (k, v).
Qed.

Lemma namesOf_lookup s c st : memoryStore s !! c = Some st -> namesOf s c = ensMap st.
Proof. unfold namesOf, collected. by intros ->. Qed.

Lemma namesOf_insert s c st fl la :
  namesOf {| memoryStore := <[c := st]> (memoryStore s); inflight := fl; launched := la |} c
  = ensMap st.
Proof. unfold namesOf, collected. simpl. by rewrite lookup_insert_eq. Qed.

Lemma namesOf_insert_ne s c c' st fl la :
  c ≠ c' ->
  namesOf {| memoryStore := <[c := st]> (memoryStore s); inflight := fl; launched := la |} c'
  = namesOf s c'.
Proof. intros H. unfold namesOf, collected. simpl. by rewrite lookup_insert_ne. Qed.

Lemma namesOf_ensureChat s c c' :
  namesOf (withStore s (ensureChat c (memoryStore s)).1) c' = namesOf s c'.
Proof. unfold namesOf. by rewrite ensureChat_collected. Qed.

Lemma namesOf_ensureChat_2 s c :
  ensMap (ensureChat c (memoryStore s)).2 = namesOf s c.
Proof.
  unfold ensureChat, namesOf, collected.
  by destruct (memoryStore s !! c).
Qed.

Lemma namesStep_refl names : namesStep names names.
Proof. intros n v H. exists v. split; [done | by right]. Qed.

Lemma namesStep_trans a b c : namesStep a b -> namesStep b c -> namesStep a c.
Proof.
  intros H1 H2 n v Hn. destruct (H1 n v Hn) as (v' & Hv' & Ho).
  destruct (H2 n v' Hv') as (v'' & Hv'' & Ho'). exists v''. split; [done |].
  destruct Ho as [-> | ->]; [by left | done].
Qed.

Lemma sysStep_refl s : sysStep s s.
Proof. intros c. apply namesStep_refl. Qed.

Lemma sysStep_trans a b c : sysStep a b -> sysStep b c -> sysStep a c.
Proof. intros H1 H2 x. eapply namesStep_trans; [apply H1 | apply H2]. Qed.

Lemma Inv_init : Inv initSys.
Proof.
  split; [| apply NoDup_nil_2].
  intros c. unfold namesOf, collected. simpl. rewrite lookup_empty. simpl.
  split; simpl; [apply NoDup_nil_2 | | | done];
    intros n H; by apply elem_of_nil in H.
Qed.

Lemma Inv_ensureChat s c :
  Inv s -> Inv (withStore s (ensureChat c (memoryStore s)).1).
Proof.
  intros [Hn Hl]. split; [| done].
  intros c'. rewrite namesOf_ensureChat. apply Hn.
Qed.

Lemma sysStep_ensureChat s c :
  sysStep s (withStore s (ensureChat c (memoryStore s)).1).
Proof. intros c'. rewrite namesOf_ensureChat. apply namesStep_refl. Qed.

Section NameLoop.

Variable useEns : bool.
Variable c : Z.

Lemma accRel_refl acc : accRel c acc acc.
Proof. split_and!; auto. Qed.

Lemma accRel_trans a b d : accRel c a b -> accRel c b d -> accRel c a d.
Proof.
  intros (A1 & A2 & A3) (B1 & B2 & B3). split_and!.
  - auto.
  - intros t H. destruct (B2 t H) as [H'|H']; auto.
  - intros t H. destruct (B3 t H) as [H'|H']; auto.
Qed.

Lemma nameStep_accRel acc raw : accRel c acc (nameStep useEns c acc raw).
Proof.
  destruct acc as [[names fl] la]. unfold nameStep.
  destruct (mapHas (toLowerCase raw) names) eqn:E; [apply accRel_refl |].
  assert (Hk : toLowerCase raw ∉ names.*1).
  { intros H. apply mapHas_true in H. congruence. }
  split_and!; simpl.
  - intros n v Hn. rewrite mapGet_mapSet_ne; [done |].
    intros <-. by apply mapGet_keys in Hn.
  - intros t Ht. destruct useEns; [| by left].
    apply elem_of_app in Ht as [Ht|Ht]; [by left |].
    apply list_elem_of_singleton in Ht as ->. by right.
  - intros t Ht. apply elem_of_app in Ht as [Ht|Ht]; [by left |].
    apply list_elem_of_singleton in Ht as ->. by right.
Qed.

Lemma nameStep_accInv acc raw : accInv c acc -> accInv c (nameStep useEns c acc raw).
Proof.
  destruct acc as [[names fl] la]. intros [[K F L T] N]. simpl in *.
  unfold nameStep.
  destruct (mapHas (toLowerCase raw) names) eqn:E; [done |].
  assert (Hk : toLowerCase raw ∉ names.*1).
  { intros H. apply mapHas_true in H. congruence. }
  split; simpl; [split; simpl |].
  - by apply mapSet_NoDup.
  - intros n Hn.
    assert (Hn' : (c, n) ∈ fl \/ n = toLowerCase raw).
    { destruct useEns; [| by left].
      apply elem_of_app in Hn as [Hn|Hn]; [by left |].
      apply list_elem_of_singleton in Hn as [= ->]. by right. }
    destruct Hn' as [Hn'| ->]; [| apply mapGet_mapSet_eq].
    rewrite mapGet_mapSet_ne; [by apply F |].
    intros <-. apply F in Hn'. by apply mapGet_keys in Hn'.
  - intros n Hn. apply elem_of_app in Hn as [Hn|Hn].
    + by apply mapSet_keys_mono, L.
    + apply list_elem_of_singleton in Hn as [= ->]. apply mapSet_keys_elem.
  - intros n r Hn. destruct (decide (toLowerCase raw = n)) as [<-|Hne].
    + rewrite mapGet_mapSet_eq in Hn. discriminate.
    + rewrite mapGet_mapSet_ne in Hn by done. by eapply T.
  - apply NoDup_app. split_and!; [done | | apply NoDup_singleton].
    intros t Ht Ht'. apply list_elem_of_singleton in Ht' as ->.
    by apply L in Ht.
Qed.

Lemma scanNames_accRel acc ms : accRel c acc (scanNames useEns c acc ms).
Proof.
  revert acc. induction ms as [|m ms IH]; intros acc; simpl; [apply accRel_refl |].
  eapply accRel_trans; [apply nameStep_accRel | apply IH].
Qed.

Lemma scanNames_accInv acc ms : accInv c acc -> accInv c (scanNames useEns c acc ms).
Proof.
  revert acc. induction ms as [|m ms IH]; intros acc H; simpl; [done |].
  apply IH. by apply nameStep_accInv.
Qed.

(** The loop keeps every backend call that was already in flight. *)
Lemma scanNames_inflight_mono acc ms t :
  t ∈ acc.1.2 -> t ∈ (scanNames useEns c acc ms).1.2.
Proof.
  revert acc. induction ms as [|m ms IH]; intros acc H; simpl; [done |].
  apply IH. destruct acc as [[names fl] la]. unfold nameStep.
  destruct (mapHas _ names); simpl; [done |].
  destruct useEns; [apply elem_of_app; by left | done].
Qed.

End NameLoop.

Lemma insert_ensureChat c (x : ChatState) store :
  <[c := x]> (ensureChat c store).1 = <[c := x]> store.
Proof.
  unfold ensureChat. destruct (store !! c); simpl; [done |].
  apply insert_insert_eq.
Qed.

Lemma Inv_update s c st' fl' la' :
  Inv s ->
  NamesInv c (ensMap st') fl' la' -> NoDup la' ->
  (forall t, t ∈ fl' -> t ∈ inflight s \/ t.1 = c) ->
  (forall t, t ∈ la' -> t ∈ launched s \/ t.1 = c) ->
  Inv {| memoryStore := <[c := st']> (memoryStore s); inflight := fl'; launched := la' |}.
Proof.
  intros [Hn Hl] Hc Hnd Hfl Hla. split; [| done].
  intros c'. destruct (decide (c = c')) as [<-|Hne].
  - by rewrite namesOf_insert.
  - rewrite namesOf_insert_ne by done. destruct (Hn c') as [K F L T].
    split; simpl; [done | | | done].
    + intros n Hin. destruct (Hfl _ Hin) as [H|H]; [by apply F | simpl in H; congruence].
    + intros n Hin. destruct (Hla _ Hin) as [H|H]; [by apply L | simpl in H; congruence].
Qed.

Lemma sysStep_update s c st' fl' la' :
  namesStep (namesOf s c) (ensMap st') ->
  sysStep s {| memoryStore := <[c := st']> (memoryStore s); inflight := fl'; launched := la' |}.
Proof.
  intros H c'. destruct (decide (c = c')) as [<-|Hne].
  - by rewrite namesOf_insert.
  - rewrite namesOf_insert_ne by done. apply namesStep_refl.
Qed.

Section Reachability.

Variable ownerTelegramId : Z.
Variable useEns : bool.
Variable getAddress : option (jsstring -> option jsstring).
Variable sendMessageOk : Z -> jsstring -> bool.

Abbreviation handle' := (handle ownerTelegramId useEns getAddress sendMessageOk).
Abbreviation reachable' := (reachable ownerTelegramId useEns getAddress sendMessageOk).
Abbreviation steps' := (steps ownerTelegramId useEns getAddress sendMessageOk).

Lemma handleText_step ctx text s :
  Inv s -> Inv (handleText useEns ctx text s) /\ sysStep s (handleText useEns ctx text s).
Proof.
  intros HI.
  destruct (memoryStore s !! chatId ctx) as [st|] eqn:E.
  - destruct (watching st) eqn:W.
    + rewrite (handleText_watching useEns ctx text s st E W).
      pose proof (namesOf_lookup s _ st E) as Hnm.
      set (acc0 := (ensMap st, inflight s, launched s)).
      assert (H0 : accInv (chatId ctx) acc0).
      { split; simpl; [rewrite <- Hnm; apply HI | apply HI]. }
      pose proof (scanNames_accInv useEns (chatId ctx) acc0 (ensMatches text) H0) as [HA HN].
      pose proof (scanNames_accRel useEns (chatId ctx) acc0 (ensMatches text)) as (R1 & R2 & R3).
      cbv zeta. split.
      * apply Inv_update; simpl; done.
      * apply sysStep_update. simpl. rewrite Hnm. intros n v Hn.
        exists v. split; [by apply R1 | by right].
    + rewrite handleText_off; rewrite E; simpl; [| congruence].
      split; [done | apply sysStep_refl].
  - rewrite handleText_off; rewrite E; simpl; [| congruence].
    replace (<[chatId ctx := freshChat]> (memoryStore s))
      with (ensureChat (chatId ctx) (memoryStore s)).1
      by (unfold ensureChat; by rewrite E).
    split; [by apply Inv_ensureChat | apply sysStep_ensureChat].
Qed.

Lemma runCommand_step cmd ctx s :
  Inv s ->
  Inv (runCommand ownerTelegramId getAddress sendMessageOk cmd ctx s).1 /\
  sysStep s (runCommand ownerTelegramId getAddress sendMessageOk cmd ctx s).1.
Proof.
  intros HI.
  destruct (runCommand_store ownerTelegramId getAddress sendMessageOk cmd ctx s)
    as [-> | ->].
  - split; [done | apply sysStep_refl].
  - split; [by apply Inv_ensureChat | apply sysStep_ensureChat].
Qed.

Lemma onMyChatMember_step ctx type old new s :
  Inv s ->
  Inv (onMyChatMember ctx type old new s).1 /\
  sysStep s (onMyChatMember ctx type old new s).1.
Proof.
  intros HI. unfold onMyChatMember.
  destruct (_ && _ && _); simpl; [| split; [done | apply sysStep_refl]].
  destruct (ensureChat (chatId ctx) (memoryStore s)) as [store st] eqn:E. simpl.
  assert (Hst : ensMap st = namesOf s (chatId ctx)).
  { rewrite <- namesOf_ensureChat_2. by rewrite E. }
  replace store with (ensureChat (chatId ctx) (memoryStore s)).1 by (by rewrite E).
  rewrite insert_ensureChat. split.
  - apply Inv_update; simpl; [done | rewrite Hst; apply HI | apply HI | auto | auto].
  - apply sysStep_update. simpl. rewrite Hst. apply namesStep_refl.
Qed.

Lemma onResolved_step c name result s s' acts :
  Inv s -> onResolved c name result s = Some (s', acts) ->
  Inv s' /\ sysStep s s'.
Proof.
  intros HI. unfold onResolved. case_bool_decide as Hin; [| done].
  set (fl := filter (fun t => t ≠ (c, name)) (inflight s)).
  assert (Hfl : forall t, t ∈ fl -> t ∈ inflight s /\ t ≠ (c, name)).
  { intros t Ht. apply list_elem_of_filter in Ht. tauto. }
  assert (Hsame : Inv {| memoryStore := memoryStore s; inflight := fl; launched := launched s |}).
  { destruct HI as [Hn Hl]. split; [| done]. intros c'.
    destruct (Hn c') as [K F L T]. split; simpl; auto.
    intros n Hn'. apply F. by apply Hfl. }
  assert (Hrefl : sysStep s {| memoryStore := memoryStore s; inflight := fl; launched := launched s |}).
  { intros c'. apply namesStep_refl. }
  destruct result as [resolved|]; [| intros [= <- <-]; done].
  destruct (memoryStore s !! c) as [st|] eqn:E; [| intros [= <- <-]; done].
  destruct (truthy resolved) eqn:Ht; [| intros [= <- <-]; done].
  intros [= <- <-].
  pose proof (namesOf_lookup s c st E) as Hnm.
  destruct (inv_names s HI c) as [K F L T]. rewrite Hnm in *.
  split.
  - apply Inv_update; simpl; [done | | apply HI | | auto].
    + split; simpl.
      * by apply mapSet_NoDup.
      * intros n Hn. apply Hfl in Hn as [Hn Hne].
        rewrite mapGet_mapSet_ne by congruence. by apply F.
      * intros n Hn. by apply mapSet_keys_mono, L.
      * intros n r Hn. destruct (decide (name = n)) as [<-|Hne].
        -- rewrite mapGet_mapSet_eq in Hn. congruence.
        -- rewrite mapGet_mapSet_ne in Hn by done. by eapply T.
    + intros t Ht'. left. by apply Hfl.
  - apply sysStep_update. simpl. rewrite Hnm. intros n v Hn.
    destruct (decide (name = n)) as [<-|Hne].
    + rewrite mapGet_mapSet_eq. exists (Some resolved). split; [done |].
      left. rewrite (F name Hin) in Hn. congruence.
    + rewrite mapGet_mapSet_ne by done. exists v. split; [done | by right].
Qed.

Lemma handle_step e s s' acts :
  Inv s -> handle' e s = Some (s', acts) -> Inv s' /\ sysStep s s'.
Proof.
  intros HI. destruct e as [ctx type old new|cmd ctx|ctx text|ctx text|c name result]; simpl.
  - intros [= H]. rewrite (surjective_pairing (onMyChatMember _ _ _ _ _)) in H.
    injection H as <- <-. by apply onMyChatMember_step.
  - intros [= H]. rewrite (surjective_pairing (runCommand _ _ _ _ _ _)) in H.
    injection H as <- <-. by apply runCommand_step.
  - unfold onText. destruct (negb _); intros [= <- <-].
    + split; [done | apply sysStep_refl].
    + by apply handleText_step.
  - unfold onChannelPost. destruct (negb _).
    { intros [= <- <-]. split; [done | apply sysStep_refl]. }
    destruct (channelCommand text) as [cmd|].
    + intros [= H]. rewrite (surjective_pairing (runCommand _ _ _ _ _ _)) in H.
      injection H as <- <-. by apply runCommand_step.
    + intros [= <- <-]. by apply handleText_step.
  - by apply onResolved_step.
Qed.

Lemma reachable_Inv s : reachable' s -> Inv s.
Proof.
  induction 1 as [|s e s' acts _ IH H]; [apply Inv_init |].
  by destruct (handle_step e s s' acts IH H).
Qed.

Lemma steps_reachable s s' : reachable' s -> steps' s s' -> reachable' s'.
Proof.
  intros Hr Hs. induction Hs as [|s e s1 acts s2 H _ IH]; [done |].
  apply IH. by eapply reach_step.
Qed.

Lemma steps_sysStep s s' : Inv s -> steps' s s' -> sysStep s s'.
Proof.
  intros HI Hs. induction Hs as [|s e s1 acts s2 H _ IH]; [apply sysStep_refl |].
  destruct (handle_step e s s1 acts HI H) as [HI1 H1].
  eapply sysStep_trans; [exact H1 | by apply IH].
Qed.

End Reachability.

Section Traces.

Variable ownerTelegramId : Z.
Variable useEns : bool.
Variable getAddress : option (jsstring -> option jsstring).
Variable sendMessageOk : Z -> jsstring -> bool.

Lemma run_steps evs s s' :
  run ownerTelegramId useEns getAddress sendMessageOk evs s = Some s' ->
  steps ownerTelegramId useEns getAddress sendMessageOk s s'.
Proof.
  revert s. induction evs as [|e evs IH]; intros s; simpl.
  - intros [= ->]. apply steps_refl.
  - destruct (handle _ _ _ _ e s) as [[s1 acts]|] eqn:E; [| done].
    intros H. eapply steps_step; [exact E | by apply IH].
Qed.

Lemma run_reachable evs s' :
  run ownerTelegramId useEns getAddress sendMessageOk evs initSys = Some s' ->
  reachable ownerTelegramId useEns getAddress sendMessageOk s'.
Proof.
  intros H. eapply steps_reachable; [apply reach_init | eapply run_steps; exact H].
Qed.

(** The launch log only grows. *)
Lemma scanNames_launched_prefix c acc ms :
  acc.2 `prefix_of` (scanNames useEns c acc ms).2.
Proof.
  revert acc. induction ms as [|m ms IH]; intros acc; simpl; [done |].
  etrans; [| apply IH]. destruct acc as [[names fl] la]. unfold nameStep.
  destruct (mapHas _ names); simpl; [done | by apply prefix_app_r].
Qed.

Lemma handleText_launched_prefix ctx text s :
  launched s `prefix_of` launched (handleText useEns ctx text s).
Proof.
  destruct (memoryStore s !! chatId ctx) as [st|] eqn:E.
  - destruct (watching st) eqn:W.
    + rewrite (handleText_watching useEns ctx text s st E W). simpl.
      apply (scanNames_launched_prefix _ (ensMap st, inflight s, launched s)).
    + rewrite handleText_off; rewrite E; simpl; [done | congruence].
  - rewrite handleText_off; rewrite E; simpl; [done | congruence].
Qed.

Lemma handle_launched_prefix e s s' acts :
  handle ownerTelegramId useEns getAddress sendMessageOk e s = Some (s', acts) ->
  launched s `prefix_of` launched s'.
Proof.
  destruct e as [ctx type old new|cmd ctx|ctx text|ctx text|c name result]; simpl.
  - intros [= H]. rewrite (surjective_pairing (onMyChatMember _ _ _ _ _)) in H.
    injection H as <- _. unfold onMyChatMember.
    destruct (_ && _ && _); [| done]. by destruct (ensureChat _ _).
  - intros [= H]. rewrite (surjective_pairing (runCommand _ _ _ _ _ _)) in H.
    injection H as <- _.
    by destruct (runCommand_store ownerTelegramId getAddress sendMessageOk cmd ctx s)
      as [-> | ->].
  - unfold onText. destruct (negb _); intros [= <- _]; [done |].
    apply handleText_launched_prefix.
  - unfold onChannelPost. destruct (negb _); [by intros [= <- _] |].
    destruct (channelCommand text) as [cmd|].
    + intros [= H]. rewrite (surjective_pairing (runCommand _ _ _ _ _ _)) in H.
      injection H as <- _.
      by destruct (runCommand_store ownerTelegramId getAddress sendMessageOk cmd ctx s)
        as [-> | ->].
    + intros [= <- _]. apply handleText_launched_prefix.
  - unfold onResolved. case_bool_decide; [| done].
    destruct result as [r|]; [| by intros [= <- _]].
    destruct (memoryStore s !! c); [| by intros [= <- _]].
    destruct (truthy r); by intros [= <- _].
Qed.

Lemma steps_launched_prefix s s' :
  steps ownerTelegramId useEns getAddress sendMessageOk s s' ->
  launched s `prefix_of` launched s'.
Proof.
  induction 1 as [|s e s1 acts s2 H _ IH]; [done |].
  etrans; [by eapply handle_launched_prefix | done].
Qed.

End Traces.

(* ===================================================================== *)
(** ** The life of a name entry (C6) *)
(* ===================================================================== *)

(** C6: from any state the bot can reach to any later state, a name that is
    in a chat's mapping is still there; its stored value is the same unless
    it was [null], so it changes at most once, from [null] to an address;
    and the log of resolver launches, which only grows, never holds the
    same chat and name twice. *)
Theorem name_entry_lifecycle
    (ownerTelegramId : Z) (useEns : bool)
    (getAddress : option (jsstring -> option jsstring))
    (sendMessageOk : Z -> jsstring -> bool) (s s' : Sys) :
  reachable ownerTelegramId useEns getAddress sendMessageOk s ->
  steps ownerTelegramId useEns getAddress sendMessageOk s s' ->
  (forall c st n v,
      memoryStore s !! c = Some st -> mapGet n (ensMap st) = Some v ->
      exists st' v',
        memoryStore s' !! c = Some st' /\ mapGet n (ensMap st') = Some v' /\
        (v = None \/ v' = v)) /\
  launched s `prefix_of` launched s' /\
  NoDup (launched s').
Proof.
  intros Hr Hs.
  pose proof (reachable_Inv _ _ _ _ s Hr) as HI.
  pose proof (steps_reachable _ _ _ _ s s' Hr Hs) as Hr'.
  pose proof (reachable_Inv _ _ _ _ s' Hr') as HI'.
  split_and!; [| by eapply steps_launched_prefix | apply HI'].
  intros c st n v Hc Hn.
  pose proof (steps_sysStep _ _ _ _ s s' HI Hs c) as Hstep.
  rewrite (namesOf_lookup s c st Hc) in Hstep.
  destruct (Hstep n v Hn) as (v' & Hv' & Ho).
  unfold namesOf, collected in Hv'.
  destruct (memoryStore s' !! c) as [st'|] eqn:E'; simpl in Hv'; [| done].
  by exists st', v'.
Qed.

Lemma run_trace_one : run 42 true None (fun _ _ => true) trace_one initSys = Some sys_one.
Proof. vm_compute. reflexivity. Defined.

Lemma run_trace_two : run 42 true None (fun _ _ => true) trace_two sys_one = Some sys_two.
Proof. vm_compute. reflexivity. Defined.

Lemma name_entry_lifecycle_witness :
  launched sys_one `prefix_of` launched sys_two /\ NoDup (launched sys_two).
Proof.
  destruct (name_entry_lifecycle 42 true None (fun _ _ => true) sys_one sys_two)
    as (_ & Hp & Hn).
  - apply run_reachable with (evs := trace_one). vm_compute. reflexivity.
  - apply run_steps with (evs := trace_two). vm_compute. reflexivity.
  - split; assumption.
Defined.

(* ===================================================================== *)
(** ** The export result set (C2) *)
(* ===================================================================== *)

Lemma addAll_elem_of e ms a :
  a ∈ addAll e ms <-> a ∈ e \/ exists m, m ∈ ms /\ a = toLowerCase m.
Proof.
  revert e. induction ms as [|m ms IH]; intros e; simpl.
  - split; [by left | intros [H|(m & Hm & _)]; [done | by apply elem_of_nil in Hm]].
  - rewrite IH, setAdd_elem_of. split.
    + intros [[-> | H]|(m' & Hm' & ->)].
      * right. exists m. split; [left | done].
      * by left.
      * right. exists m'. split; [by right | done].
    + intros [H|(m' & Hm' & ->)].
      * left. by right.
      * apply elem_of_cons in Hm' as [-> | Hm']; [left; by left |].
        right. by exists m'.
Qed.

Lemma addAll_NoDup e ms : NoDup e -> NoDup (addAll e ms).
Proof.
  revert e. induction ms as [|m ms IH]; intros e H; simpl; [done |].
  by apply IH, setAdd_NoDup.
Qed.

Lemma addressSet_unfold st :
  addressSet st = addResolved (addAll [] (ethSet st)) (ensMap st).
Proof. reflexivity. Qed.

Lemma addResolved_elem_of s entries a :
  a ∈ addResolved s entries <->
  a ∈ s \/ exists n r, (n, Some r) ∈ entries /\ truthy r = true /\ a = toLowerCase r.
Proof.
  revert s. induction entries as [|[n v] entries IH]; intros s; simpl.
  - split; [by left | intros [H|(n & r & Hm & _)]; [done | by apply elem_of_nil in Hm]].
  - rewrite IH. clear IH. split.
    + intros [H|(n' & r & Hm & Ht & ->)].
      * destruct v as [r|]; [| by left].
        destruct (truthy r) eqn:Ht; [| by left].
        apply setAdd_elem_of in H as [-> | H]; [| by left].
        right. exists n, r. split_and!; [left | done | done].
      * right. exists n', r. split_and!; [by right | done | done].
    + intros [H|(n' & r & Hm & Ht & ->)].
      * left. destruct v as [r|]; [| done].
        destruct (truthy r); [by apply setAdd_mono | done].
      * apply elem_of_cons in Hm as [[= -> <-] | Hm].
        -- left. rewrite Ht. apply setAdd_elem.
        -- right. by exists n', r.
Qed.

Lemma addResolved_NoDup s entries : NoDup s -> NoDup (addResolved s entries).
Proof.
  revert s. induction entries as [|[n v] entries IH]; intros s H; simpl; [done |].
  apply IH. destruct v as [r|]; [| done].
  destruct (truthy r); [by apply setAdd_NoDup | done].
Qed.

Lemma addressSet_NoDup st : NoDup (addressSet st).
Proof.
  rewrite addressSet_unfold. apply addResolved_NoDup, addAll_NoDup, NoDup_nil_2.
Qed.

(** C2: in every state the bot can reach, the result set that makelist
    builds for a chat holds exactly the lower-cased addresses collected
    directly and the lower-cased resolved addresses of the names whose
    stored outcome is not [null]; a name with a [null] outcome adds nothing,
    and no value occurs twice, whichever way it came in. *)
Theorem export_result_set
    (ownerTelegramId : Z) (useEns : bool)
    (getAddress : option (jsstring -> option jsstring))
    (sendMessageOk : Z -> jsstring -> bool) (s : Sys) (c : Z) :
  reachable ownerTelegramId useEns getAddress sendMessageOk s ->
  let st := (ensureChat c (memoryStore s)).2 in
  NoDup (addressSet st) /\
  forall a, a ∈ addressSet st <->
    (exists e, e ∈ ethSet st /\ a = toLowerCase e) \/
    (exists n r, mapGet n (ensMap st) = Some (Some r) /\ a = toLowerCase r).
Proof.
  intros Hr st. split; [apply addressSet_NoDup |].
  pose proof (reachable_Inv _ _ _ _ s Hr) as HI.
  destruct (inv_names s HI c) as [K _ _ T].
  rewrite <- (namesOf_ensureChat_2 s c) in K, T. fold st in K, T.
  intros a. rewrite addressSet_unfold, addResolved_elem_of, addAll_elem_of.
  split.
  - intros [[H|H]|(n & r & Hm & Ht & ->)].
    + by apply elem_of_nil in H.
    + by left.
    + right. exists n, r. split; [by apply mapGet_elem_NoDup | done].
  - intros [H|(n & r & Hm & ->)].
    + left. by right.
    + right. exists n, r. split_and!; [by apply mapGet_Some_elem | by eapply T | done].
Qed.

Lemma export_result_set_witness :
  addressSet (ensureChat (chatId ctx_group) (memoryStore sys_three)).2 = [addr_b] /\
  NoDup (addressSet (ensureChat (chatId ctx_group) (memoryStore sys_three)).2).
Proof.
  split; [vm_compute; reflexivity |].
  apply (export_result_set 42 true None (fun _ _ => true) sys_three (chatId ctx_group)).
  apply run_reachable with (evs := trace_three). vm_compute. reflexivity.
Defined.

(* ===================================================================== *)
(** ** Sorting and the layout of the export *)
(* ===================================================================== *)

Lemma insertSorted_Permutation x l : insertSorted x l ≡ₚ x :: l.
Proof.
  induction l as [|y l IH]; simpl; [done |].
  destruct (compareAddr x y); [done | done |].
  rewrite IH. apply Permutation_swap.
Qed.

Lemma sortAddresses_Permutation l : sortAddresses l ≡ₚ l.
Proof.
  induction l as [|x l IH]; simpl; [done |].
  by rewrite insertSorted_Permutation, IH.
Qed.

Lemma localeCompare_antisym a b : localeCompare b a = CompOpp (localeCompare a b).
Proof.
  revert b. induction a as [|x a IH]; intros [|y b]; simpl; try done.
  rewrite (N.compare_antisym x y). destruct (x ?= y)%N; simpl; [apply IH | done | done].
Qed.

Lemma addrLe_of_Gt a b : compareAddr a b = Gt -> addrLe b a.
Proof.
  unfold addrLe, compareAddr. intros H.
  rewrite localeCompare_antisym, H. simpl. discriminate.
Qed.

Lemma insertSorted_Sorted x l : Sorted addrLe l -> Sorted addrLe (insertSorted x l).
Proof.
  induction l as [|y l IH]; intros Hs; simpl.
  - repeat constructor.
  - destruct (compareAddr x y) eqn:E.
    + constructor; [done |]. constructor. unfold addrLe. congruence.
    + constructor; [done |]. constructor. unfold addrLe. congruence.
    + apply Sorted_inv in Hs as [Hs Hh]. constructor; [by apply IH |].
      destruct l as [|z l]; simpl.
      * constructor. by apply addrLe_of_Gt.
      * destruct (compareAddr x z); constructor;
          first [by apply addrLe_of_Gt | by inversion Hh].
Qed.

Lemma sortAddresses_Sorted l : Sorted addrLe (sortAddresses l).
Proof.
  induction l as [|x l IH]; simpl; [constructor |]. by apply insertSorted_Sorted.
Qed.

Lemma renderLines_snoc g a : renderLines (g ++ [a]) = renderLines g ++ a ++ nl.
Proof.
  unfold renderLines. rewrite map_app, concat_app. simpl. by rewrite app_nil_r.
Qed.

Lemma renderLines_single a : renderLines [a] = a ++ nl.
Proof. unfold renderLines. simpl. apply app_nil_r. Qed.

Lemma chunkTexts_nil_pre groups : chunkTexts [] groups = map renderLines groups.
Proof. by destruct groups. Qed.

Lemma chunkTexts_snoc pre groups g :
  chunkTexts pre (groups ++ [g])
  = chunkTexts pre groups ++ [(if groups is [] then pre else []) ++ renderLines g].
Proof.
  destruct groups as [|g0 gs]; simpl; [done |].
  by rewrite map_app.
Qed.

Lemma chunkTexts_length pre groups : length (chunkTexts pre groups) = length groups.
Proof. destruct groups; simpl; [done | by rewrite length_map]. Qed.

Lemma foldl_chunkStep_layout addrs chunks pre g :
  exists groups last,
    concat groups ++ last = g ++ addrs /\
    foldl chunkStep (chunks, pre ++ renderLines g) addrs
    = (chunks ++ chunkTexts pre groups,
       (if groups is [] then pre else []) ++ renderLines last).
Proof.
  revert chunks pre g. induction addrs as [|a addrs IH]; intros chunks pre g.
  - exists [], g. simpl. by rewrite !app_nil_r.
  - simpl. destruct (maxLength <? length ((pre ++ renderLines g) ++ a ++ nl)) eqn:E.
    + destruct (IH (chunks ++ [pre ++ renderLines g]) [] [a]) as (groups & last & Hc & Hf).
      exists (g :: groups), last. split.
      * simpl. rewrite <- app_assoc, Hc. done.
      * change ([] ++ renderLines [a]) with (renderLines [a]) in Hf.
        rewrite renderLines_single in Hf. rewrite Hf.
        rewrite chunkTexts_nil_pre. simpl. rewrite <- app_assoc. simpl.
        by destruct groups.
    + destruct (IH chunks pre (g ++ [a])) as (groups & last & Hc & Hf).
      exists groups, last. split.
      * rewrite Hc, <- app_assoc. done.
      * rewrite renderLines_snoc in Hf. rewrite <- Hf. by rewrite <- !app_assoc.
Qed.

(** The chunking loop cuts the list into consecutive groups of whole lines. *)
Lemma makeChunks_layout header addrs :
  exists groups, concat groups = addrs /\ makeChunks header addrs = chunkTexts header groups.
Proof.
  unfold makeChunks.
  destruct (foldl_chunkStep_layout addrs [] header []) as (groups & last & Hc & Hf).
  simpl in Hc, Hf. rewrite app_nil_r in Hf. rewrite Hf.
  destruct (truthy _) eqn:T.
  - exists (groups ++ [last]). split.
    + rewrite concat_app. simpl. by rewrite app_nil_r.
    + by rewrite chunkTexts_snoc.
  - exists groups. split; [| done].
    assert (Hl : last = []).
    { destruct last as [|a last]; [done |]. exfalso.
      unfold renderLines in T. simpl in T.
      destruct groups; destruct header; destruct a; simpl in T; discriminate. }
    rewrite Hl, app_nil_r in Hc. done.
Qed.

(** Before the part prefix goes on, every chunk is within the limit. *)
Lemma foldl_chunkStep_bound addrs chunks cur :
  Forall (fun a => length a < maxLength) addrs ->
  Forall (fun ch => length ch <= maxLength) chunks -> length cur <= maxLength ->
  Forall (fun ch => length ch <= maxLength) (foldl chunkStep (chunks, cur) addrs).1 /\
  length (foldl chunkStep (chunks, cur) addrs).2 <= maxLength.
Proof.
  revert chunks cur. induction addrs as [|a addrs IH]; intros chunks cur Ha Hc Hl.
  - done.
  - apply Forall_cons in Ha as [Ha Has]. simpl.
    destruct (maxLength <? length (cur ++ a ++ nl)) eqn:E.
    + apply IH; [done | | ].
      * apply Forall_app. split; [done |]. by constructor.
      * rewrite length_app. simpl. lia.
    + apply IH; [done | done |]. apply Nat.ltb_ge in E. done.
Qed.

Lemma makeChunks_bound header addrs :
  length header <= maxLength ->
  Forall (fun a => length a < maxLength) addrs ->
  Forall (fun ch => length ch <= maxLength) (makeChunks header addrs).
Proof.
  intros Hh Ha. unfold makeChunks.
  destruct (foldl_chunkStep_bound addrs [] header Ha (Forall_nil_2 _) Hh) as [H1 H2].
  destruct (foldl chunkStep _ addrs) as [chunks cur]. simpl in *.
  destruct (truthy cur); [| done].
  apply Forall_app. split; [done | by constructor].
Qed.

Lemma exportBlocks_layout getAddress ctx st :
  blocksLayout (exportHeader getAddress ctx st) (exportAddresses getAddress st)
    (exportBlocks getAddress ctx st).
Proof.
  unfold exportBlocks. destruct (_ <=? maxLength); [by left |].
  right.
  destruct (makeChunks_layout (exportHeader getAddress ctx st)
              (exportAddresses getAddress st)) as (groups & Hc & Hm).
  exists groups. split; [done |]. by rewrite Hm, chunkTexts_length.
Qed.

Lemma sendAll_ok owner sendMessageOk msgs :
  (forall m, m ∈ msgs -> sendMessageOk owner m = true) ->
  sendAll owner sendMessageOk msgs = (map (SendMessage owner) msgs, true).
Proof.
  induction msgs as [|m msgs IH]; intros H; simpl; [done |].
  rewrite H by left. rewrite IH; [done |]. intros m' Hm'. apply H. by right.
Qed.

(* ===================================================================== *)
(** ** Checksumming with a per-item fallback (C8) *)
(* ===================================================================== *)

(** C8: with a checksum function [f] available, the lines of the export are
    the result set with every address put through [f], an address on which
    [f] throws standing in its lower-case form, in sorted order; the blocks
    are laid out from exactly these lines, and (the transport accepting the
    messages) the handler sends them all and reports success. *)
Theorem checksum_fallback_per_item
    (ownerTelegramId : Z) (f : jsstring -> option jsstring)
    (sendMessageOk : Z -> jsstring -> bool) (ctx : Ctx) (s : Sys) :
  ownerOnly ownerTelegramId ctx = true ->
  addressSet (ensureChat (chatId ctx) (memoryStore s)).2 ≠ [] ->
  (forall m, sendMessageOk ownerTelegramId m = true) ->
  let st := (ensureChat (chatId ctx) (memoryStore s)).2 in
  let lines := exportAddresses (Some f) st in
  lines = sortAddresses (map (checksumOrKeep f) (addressSet st)) /\
  lines ≡ₚ map (checksumOrKeep f) (addressSet st) /\
  (forall a, a ∈ addressSet st ->
     (f a = None -> a ∈ lines) /\ (forall c, f a = Some c -> c ∈ lines)) /\
  blocksLayout (exportHeader (Some f) ctx st) lines (exportBlocks (Some f) ctx st) /\
  (handleMakeList ownerTelegramId (Some f) sendMessageOk ctx s).2
  = map (SendMessage ownerTelegramId) (exportBlocks (Some f) ctx st)
    ++ [Reply (chatId ctx) (js "Sent you a DM with the results.")].
Proof.
  intros Ho Hne Hok st lines.
  assert (Hp : lines ≡ₚ map (checksumOrKeep f) (addressSet st))
    by apply sortAddresses_Permutation.
  split_and!; [done | done | | apply exportBlocks_layout |].
  - intros a Ha.
    assert (Hin : checksumOrKeep f a ∈ lines).
    { rewrite Hp. by apply list_elem_of_fmap_2. }
    unfold checksumOrKeep in Hin. split.
    + intros E. by rewrite E in Hin.
    + intros c E. by rewrite E in Hin.
  - unfold handleMakeList. rewrite Ho. simpl.
    destruct (ensureChat (chatId ctx) (memoryStore s)) as [store st'] eqn:E.
    simpl in st, Hne. subst st.
    rewrite exportAddresses_length.
    destruct (length (addressSet st')) eqn:El.
    { destruct (addressSet st'); [done | discriminate]. }
    simpl. rewrite sendAll_ok by (intros; apply Hok). done.
Qed.

Lemma checksum_fallback_per_item_witness :
  exportAddresses (Some demoChecksum) (ensureChat (chatId ctx_group) (memoryStore sys_four)).2
  = sortAddresses (map (checksumOrKeep demoChecksum)
      (addressSet (ensureChat (chatId ctx_group) (memoryStore sys_four)).2)) /\
  exportAddresses (Some demoChecksum) (ensureChat (chatId ctx_group) (memoryStore sys_four)).2
  = [addr_a; js "0X" ++ repeat 66%N 40].
Proof.
  split; [| vm_compute; reflexivity].
  apply (checksum_fallback_per_item 42 demoChecksum (fun _ _ => true) ctx_group sys_four).
  - vm_compute. reflexivity.
  - vm_compute. discriminate.
  - reflexivity.
Defined.

(* ===================================================================== *)
(** ** The size of the delivered parts (C1) *)
(* ===================================================================== *)

(** C1 fails on the size bound.  In a group where 96 addresses were
    collected, the chunking loop keeps each chunk within 4096 code units
    (4095 and 129), but the text handed to [sendMessage] is the chunk behind
    its [Part i/n] prefix, and the first part is 4106 code units long. *)
Theorem makelist_part_exceeds_limit :
  run 42 false None (fun _ _ => true) trace_big initSys = Some sys_big /\
  length (ethSet chat_big) = 96 /\
  map length (makeChunks (exportHeader None ctx_big chat_big)
                (exportAddresses None chat_big)) = [4095; 129] /\
  map length (exportBlocks None ctx_big chat_big) = [4106; 140] /\
  (handleMakeList 42 None (fun _ _ => true) ctx_big sys_big).2
  = map (SendMessage 42) (exportBlocks None ctx_big chat_big)
    ++ [Reply (chatId ctx_big) (js "Sent you a DM with the results.")].
Proof. vm_compute. repeat split. Qed.

(** With a transport that refuses a text of more than 4096 code units, the
    first part of that export is refused, nothing is sent, and the handler
    reports the failure. *)
Remark makelist_over_limit_fails :
  (handleMakeList 42 None (fun _ m => length m <=? maxLength) ctx_big sys_big).2
  = [Reply (chatId ctx_big)
       (js "Failed to DM results. (Is the bot allowed to message you? Send /start to the bot in DM once.)")].
Proof. vm_compute. reflexivity. Qed.

(* ===================================================================== *)
(** ** The address pattern (C4) *)
(* ===================================================================== *)

Lemma members_hexClass :
  members hexClass
  = [97; 98; 99; 100; 101; 102; 65; 66; 67; 68; 69; 70;
     48; 49; 50; 51; 52; 53; 54; 55; 56; 57]%N.
Proof. reflexivity. Qed.

Lemma hexClass_matches c : charSetMatches false hexClass c = isHexDigit c.
Proof.
  unfold charSetMatches. rewrite members_hexClass.
  unfold canonicalize. cbn [existsb andb].
  repeat match goal with
         | |- context [(?a =? c)%N] =>
             destruct (N.eqb_spec a c) as [<-|?]; [reflexivity |]
         end.
  cbn [orb]. symmetry. unfold isHexDigit, between.
  repeat match goal with
         | |- context [(?a <=? ?b)%N] => destruct (N.leb_spec a b)
         end; simpl; try reflexivity; lia.
Qed.

Lemma hex_isWordChar c : isHexDigit c = true -> isWordChar c = true.
Proof.
  unfold isHexDigit, isWordChar, isLower, isUpper, isDigit, between.
  repeat match goal with
         | |- context [(?a <=? ?b)%N] => destruct (N.leb_spec a b)
         end; simpl; try done; lia.
Qed.

(** [{40}] over a character class: forty class members in a row. *)
Lemma repeat_hex_exact input n fuel x c :
  n < fuel ->
  repeatMatcher (compile false input (Class hexClass)) fuel n (Some n) x c
  = if forallb (isHexAt input) (seq x n) then c (x + n) else None.
Proof.
  revert fuel x. induction n as [|n IH]; intros fuel x Hf.
  - destruct fuel as [|fuel]; [lia |]. simpl. by rewrite Nat.add_0_r.
  - destruct fuel as [|fuel]; [lia |]. cbn [repeatMatcher].
    rewrite bool_decide_eq_false_2 by discriminate.
    cbn [Nat.eqb andb compile pred fmap option_fmap option_map seq forallb].
    unfold isHexAt at 1. destruct (input !! x) as [a|]; [| done].
    rewrite hexClass_matches. destruct (isHexDigit a); [| done].
    cbn [andb]. rewrite IH by lia. by rewrite Nat.add_succ_r.
Qed.

Lemma compile_Seq ic input r1 r2 x c :
  compile ic input (Seq r1 r2) x c
  = compile ic input r1 x (fun y => compile ic input r2 y c).
Proof. reflexivity. Qed.

Lemma compile_WordBoundary ic input x c :
  compile ic input WordBoundary x c = if wordBoundaryAt input x then c x else None.
Proof. reflexivity. Qed.

Lemma compile_Lit input ch x c :
  compile false input (Lit ch) x c = if charAt input x ch then c (S x) else None.
Proof.
  simpl. unfold charAt, canonicalize. simpl. by destruct (input !! x).
Qed.

Lemma compile_Quant ic input min max r x c :
  compile ic input (Quant min max r) x c
  = repeatMatcher (compile ic input r) (min + length input + 2) min max x c.
Proof. reflexivity. Qed.

Lemma matchAt_ethRegex input i :
  matchAt false ethRegex input i
  = if isAddressAt input i then Some (i + 42) else None.
Proof.
  unfold matchAt, ethRegex, isAddressAt. cbn [seqAll].
  rewrite compile_Seq, compile_WordBoundary.
  destruct (wordBoundaryAt input i); [| done]. cbn [andb].
  rewrite compile_Seq, compile_Lit.
  destruct (charAt input i 48); [| done]. cbn [andb].
  rewrite compile_Seq, compile_Lit.
  destruct (charAt input (S i) 120); [| done]. cbn [andb].
  rewrite compile_Seq, compile_Quant, repeat_hex_exact by lia.
  destruct (forallb _ _); [| done]. cbn [andb].
  rewrite compile_WordBoundary.
  replace (S (S i) + 40) with (i + 42) by lia. done.
Qed.

Lemma forallb_seq_lookup (p : nat -> bool) x n k :
  forallb p (seq x n) = true -> k < n -> p (x + k) = true.
Proof.
  revert x k. induction n as [|n IH]; intros x k H Hk; [lia |].
  simpl in H. apply andb_prop in H as [H1 H2].
  destruct k as [|k]; [by rewrite Nat.add_0_r |].
  rewrite Nat.add_succ_r. apply (IH (S x) k); [done | lia].
Qed.

Lemma isAddressAt_word input i k :
  isAddressAt input i = true -> k < 42 -> isWordAt input (i + k) = true.
Proof.
  unfold isAddressAt. intros H Hk.
  repeat (apply andb_prop in H as [H ?]).
  destruct k as [|[|k]].
  - rewrite Nat.add_0_r. unfold charAt in *. unfold isWordAt.
    destruct (input !! i) as [a|]; [| done].
    match goal with Ha : (a =? 48)%N = true |- _ => apply N.eqb_eq in Ha as -> end. done.
  - replace (i + 1) with (S i) by lia. unfold charAt in *. unfold isWordAt.
    destruct (input !! S i) as [a|]; [| done].
    match goal with Ha : (a =? 120)%N = true |- _ => apply N.eqb_eq in Ha as -> end. done.
  - assert (Hh : isHexAt input (S (S i) + k) = true)
      by (eapply forallb_seq_lookup; [eassumption | lia]).
    replace (i + S (S k)) with (S (S i) + k) by lia.
    unfold isHexAt in Hh. unfold isWordAt.
    destruct (input !! (S (S i) + k)); [by apply hex_isWordChar | done].
Qed.

Lemma isAddressAt_length input i :
  isAddressAt input i = true -> i + 42 <= length input.
Proof.
  intros H. pose proof (isAddressAt_word input i 41 H ltac:(lia)) as Hw.
  unfold isWordAt in Hw. destruct (input !! (i + 41)) eqn:E; [| done].
  apply lookup_lt_Some in E. lia.
Qed.

(** Two addresses cannot overlap: inside one there is no word boundary. *)
Lemma isAddressAt_no_overlap input i j :
  isAddressAt input i = true -> i < j < i + 42 -> isAddressAt input j = false.
Proof.
  intros H Hj. unfold isAddressAt.
  assert (Hb : wordBoundaryAt input j = false).
  { unfold wordBoundaryAt. destruct j as [|p]; [lia |].
    replace p with (i + (p - i)) at 1 by lia.
    replace (S p) with (i + (S p - i)) by lia.
    rewrite !(isAddressAt_word input i) by (done || lia). done. }
  by rewrite Hb.
Qed.

Lemma filter_seq_no_address input i n :
  isAddressAt input i = true -> n <= 41 ->
  filter (fun j => isAddressAt input j = true) (seq (S i) n) = [].
Proof.
  intros H Hn. induction n as [|n IH] using nat_ind; [done |].
  rewrite seq_S, filter_app, IH by lia. simpl.
  rewrite filter_cons_False; [done |].
  rewrite (isAddressAt_no_overlap input i) by (done || lia). done.
Qed.

Lemma execFrom_ethRegex input fuel i :
  length input < i + fuel ->
  execFrom false ethRegex input fuel i
  = map (fun j => substring input j (j + 42))
      (filter (fun j => isAddressAt input j = true) (seq i (length input - i))).
Proof.
  revert i. induction fuel as [|fuel IH]; intros i Hf.
  - replace (length input - i) with 0 by lia. done.
  - cbn [execFrom]. destruct (length input <? i) eqn:E.
    { apply Nat.ltb_lt in E. replace (length input - i) with 0 by lia. done. }
    apply Nat.ltb_ge in E. rewrite matchAt_ethRegex.
    destruct (isAddressAt input i) eqn:A.
    + pose proof (isAddressAt_length input i A) as Hl.
      replace (i + 42 =? i) with false by (symmetry; apply Nat.eqb_neq; lia).
      rewrite IH by lia.
      replace (length input - i) with (S (41 + (length input - (i + 42)))) by lia.
      cbn [seq]. rewrite filter_cons_True by done.
      rewrite seq_app, filter_app, filter_seq_no_address by (done || lia).
      simpl. replace (S (i + 41)) with (i + 42) by lia. done.
    + rewrite IH by lia. destruct (decide (i = length input)) as [->|Hne].
      * rewrite Nat.sub_diag. replace (length input - S (length input)) with 0 by lia. done.
      * replace (length input - i) with (S (length input - S i)) by lia.
        cbn [seq]. rewrite filter_cons_False; [done |]. by rewrite A.
Qed.

(** C4, as stated, fails: an upper-case [0X] prefix before forty hex digits
    is not matched, although read case-insensitively it is an address. *)
Lemma upper_prefix_not_matched :
  spec_isAddressAt (js "0X" ++ repeat 97%N 40) 0 = true /\
  ethMatches (js "0X" ++ repeat 97%N 40) = [].
Proof. split; vm_compute; reflexivity. Qed.

(** C4 (amended): the extractor returns, in text order, exactly the
    substrings that stand between two word boundaries and consist of [0] and
    a lower-case [x] followed by exactly forty hex digits; the digits may be
    of either case, the prefix [0X] is not matched. *)
Theorem ethMatches_exact (text : jsstring) :
  ethMatches text
  = map (fun i => substring text i (i + 42)) (addressPositions text).
Proof.
  unfold ethMatches, matchAll, addressPositions.
  rewrite execFrom_ethRegex by lia. by rewrite Nat.sub_0_r.
Qed.

(* ===================================================================== *)
(** ** Further properties of the export *)
(* ===================================================================== *)

Lemma localeCompare_le_trans a b c :
  localeCompare a b ≠ Gt -> localeCompare b c ≠ Gt -> localeCompare a c ≠ Gt.
Proof.
  revert b c. induction a as [|x a IH]; intros [|y b] [|z c]; simpl; try done.
  destruct (N.compare_spec x y) as [-> | Hxy | Hxy]; [| | done].
  - destruct (N.compare_spec y z) as [-> | Hyz | Hyz]; [apply IH | done | done].
  - destruct (N.compare_spec y z) as [-> | Hyz | Hyz]; [| | done].
    + intros _ _. destruct (N.compare_spec x z); [lia | done | lia].
    + intros _ _. destruct (N.compare_spec x z); [lia | done | lia].
Qed.

Lemma addrLe_trans a b c : addrLe a b -> addrLe b c -> addrLe a c.
Proof. unfold addrLe, compareAddr. apply localeCompare_le_trans. Qed.

Lemma sortAddresses_StronglySorted l : StronglySorted addrLe (sortAddresses l).
Proof.
  apply Sorted_StronglySorted; [| apply sortAddresses_Sorted].
  intros a b c. apply addrLe_trans.
Qed.

(** X1: the lines of the export are the result set after the checksum map,
    rearranged so that every line stands before every line the
    case-insensitive comparator does not put ahead of it. *)
Theorem export_lines_sorted
    (getAddress : option (jsstring -> option jsstring)) (st : ChatState) :
  StronglySorted addrLe (exportAddresses getAddress st) /\
  exportAddresses getAddress st ≡ₚ checksummed getAddress (addressSet st).
Proof.
  split; [apply sortAddresses_StronglySorted | apply sortAddresses_Permutation].
Qed.

Lemma foldl_chunkStep_count addrs chunks cur :
  (length (foldl chunkStep (chunks, cur) addrs).1 = length chunks ->
     (foldl chunkStep (chunks, cur) addrs).2 = cur ++ renderLines addrs /\
     (addrs ≠ [] -> length (foldl chunkStep (chunks, cur) addrs).2 <= maxLength)) /\
  length chunks <= length (foldl chunkStep (chunks, cur) addrs).1 /\
  (addrs ≠ [] -> (foldl chunkStep (chunks, cur) addrs).2 ≠ []).
Proof.
  revert chunks cur. induction addrs as [|a addrs IH]; intros chunks cur.
  - simpl. split_and!; [| done | done]. intros _. split; [| done].
    unfold renderLines. simpl. by rewrite app_nil_r.
  - cbn [foldl chunkStep].
    destruct (maxLength <? length (cur ++ a ++ nl)) eqn:E.
    + destruct (IH (chunks ++ [cur]) (a ++ nl)) as (_ & H2 & H3).
      rewrite length_app in H2. simpl in H2. split_and!; [lia | lia |].
      intros _. destruct addrs as [|a' addrs]; [| by apply H3].
      simpl. by destruct a.
    + apply Nat.ltb_ge in E.
      destruct (IH chunks (cur ++ a ++ nl)) as (H1 & H2 & H3).
      split_and!; [| done |].
      * intros Hl. destruct (H1 Hl) as [Hc Hb]. split.
        -- rewrite Hc. unfold renderLines. simpl. by rewrite <- !app_assoc.
        -- intros _. destruct addrs as [|a' addrs]; [done | by apply Hb].
      * intros _. destruct addrs as [|a' addrs]; [| by apply H3].
        simpl. destruct cur; [by destruct a | done].
Qed.

Lemma join_renderLines_length lines :
  lines ≠ [] -> length (renderLines lines) = S (length (join nl lines)).
Proof.
  induction lines as [|a lines IH]; [done |]. intros _.
  destruct lines as [|b lines].
  - unfold renderLines. simpl. rewrite app_nil_r, length_app. simpl. lia.
  - change (renderLines (a :: b :: lines)) with ((a ++ nl) ++ renderLines (b :: lines)).
    change (join nl (a :: b :: lines)) with (a ++ nl ++ join nl (b :: lines)).
    rewrite !length_app, IH by done. simpl. lia.
Qed.

Lemma makeChunks_at_least_two header lines :
  lines ≠ [] -> maxLength < length (header ++ join nl lines) ->
  2 <= length (makeChunks header lines).
Proof.
  intros Hne Hlen. unfold makeChunks.
  destruct (foldl_chunkStep_count lines [] header) as (H1 & H2 & H3).
  destruct (foldl chunkStep ([], header) lines) as [chunks cur]. simpl in *.
  specialize (H3 Hne).
  assert (Ht : truthy cur = true) by (by destruct cur).
  rewrite Ht, length_app. simpl.
  destruct chunks as [|ch chunks]; [| simpl; lia].
  exfalso. destruct (H1 eq_refl) as [Hc Hb]. specialize (Hb Hne).
  rewrite Hc, length_app, join_renderLines_length in Hb by done.
  rewrite length_app in Hlen. lia.
Qed.

(** X2: an export cuts the sorted lines into consecutive groups of whole
    lines.  If header and lines fit into 4096 code units they go out as one
    block; otherwise there are at least two parts, part [i] of [n] being
    [Part i/n:], an empty line and the lines of group [i] (after the header,
    for the first), and the groups in order make up the lines again. *)
Theorem export_blocks_whole_lines
    (getAddress : option (jsstring -> option jsstring)) (ctx : Ctx) (st : ChatState) :
  exportAddresses getAddress st ≠ [] ->
  let header := exportHeader getAddress ctx st in
  let lines := exportAddresses getAddress st in
  let blocks := exportBlocks getAddress ctx st in
  (length (header ++ join nl lines) <= maxLength -> blocks = [header ++ join nl lines]) /\
  (maxLength < length (header ++ join nl lines) ->
     2 <= length blocks /\
     exists groups,
       concat groups = lines /\
       blocks = imap (partMessage (length groups)) (chunkTexts header groups)).
Proof.
  intros Hne header lines blocks. subst blocks. unfold exportBlocks.
  fold header. fold lines. split.
  - intros H. by rewrite (proj2 (Nat.leb_le _ _)).
  - intros H. rewrite (proj2 (Nat.leb_gt _ _)) by done.
    split.
    + rewrite length_imap. by apply makeChunks_at_least_two.
    + destruct (makeChunks_layout header lines) as (groups & Hc & Hm).
      exists groups. split; [done |]. by rewrite Hm, chunkTexts_length.
Qed.

Lemma export_blocks_whole_lines_witness :
  exportBlocks None ctx_group chat_four
  = [exportHeader None ctx_group chat_four ++ join nl (exportAddresses None chat_four)].
Proof.
  destruct (export_blocks_whole_lines None ctx_group chat_four) as [H _].
  - vm_compute. discriminate.
  - apply H. vm_compute. lia.
Defined.

Lemma partMessage_length total i chunk :
  length (partMessage total i chunk) = length (partMessage total i []) + length chunk.
Proof. unfold partMessage. rewrite !length_app. simpl. lia. Qed.

(** X3: if the header is at most 4096 code units long and every line is
    shorter than that, no delivered block is longer than 4096 code units
    plus its own [Part i/n] prefix: a single block is within 4096, and a
    part is its prefix followed by a chunk of at most 4096. *)
Theorem export_block_size
    (getAddress : option (jsstring -> option jsstring)) (ctx : Ctx) (st : ChatState) :
  length (exportHeader getAddress ctx st) <= maxLength ->
  Forall (fun a => length a < maxLength) (exportAddresses getAddress st) ->
  forall i b,
    exportBlocks getAddress ctx st !! i = Some b ->
    length b <=
      maxLength +
      (if length (exportHeader getAddress ctx st ++ join nl (exportAddresses getAddress st))
          <=? maxLength
       then 0
       else length (partMessage
                      (length (makeChunks (exportHeader getAddress ctx st)
                                 (exportAddresses getAddress st))) i [])).
Proof.
  intros Hh Ha i b. unfold exportBlocks.
  destruct (_ <=? maxLength) eqn:E.
  - apply Nat.leb_le in E. intros Hb.
    apply list_lookup_singleton_Some in Hb as [_ <-]. lia.
  - rewrite list_lookup_imap. intros Hb.
    destruct (makeChunks _ _ !! i) as [ch|] eqn:Hch; [| done].
    simpl in Hb. injection Hb as <-.
    pose proof (makeChunks_bound _ _ Hh Ha) as Hall.
    rewrite Forall_forall in Hall.
    assert (Hc : length ch <= maxLength).
    { apply Hall. apply list_elem_of_lookup. eauto. }
    rewrite partMessage_length. lia.
Qed.

Lemma export_block_size_witness :
  length (hd [] (exportBlocks None ctx_group chat_four)) <= maxLength + 0.
Proof.
  apply (export_block_size None ctx_group chat_four) with (i := 0).
  - vm_compute. lia.
  - apply (bool_decide_unpack _). vm_compute. reflexivity.
  - vm_compute. reflexivity.
Defined.

(* ===================================================================== *)
(** ** Delivery, the owner check and the dispatch of commands *)
(* ===================================================================== *)

Lemma sendAll_spec owner ok msgs :
  exists k,
    k <= length msgs /\
    sendAll owner ok msgs
    = (map (SendMessage owner) (take k msgs), bool_decide (k = length msgs)) /\
    (forall m, m ∈ take k msgs -> ok owner m = true) /\
    (k < length msgs -> exists m, msgs !! k = Some m /\ ok owner m = false).
Proof.
  induction msgs as [|m msgs IH].
  - exists 0. simpl. split_and!; [done | done | | lia].
    intros m Hm. by apply elem_of_nil in Hm.
  - simpl. destruct (ok owner m) eqn:E.
    + destruct IH as (k & Hk & Hs & Hall & Hstop). exists (S k).
      rewrite Hs. simpl. split_and!.
      * lia.
      * f_equal. apply bool_decide_ext. lia.
      * intros m' Hm'. apply elem_of_cons in Hm' as [-> | Hm']; [done | by apply Hall].
      * intros Hlt. apply Hstop. lia.
    + exists 0. simpl. split_and!; [lia | done | |].
      * intros m' Hm'. by apply elem_of_nil in Hm'.
      * intros _. by exists m.
Qed.

Lemma handleMakeListReplies_accepted
    ownerTelegramId getAddress sendMessageOk replyOk ctx s :
  (forall chat text, replyOk chat text = true) ->
  handleMakeListReplies ownerTelegramId getAddress sendMessageOk replyOk ctx s
  = (handleMakeList ownerTelegramId getAddress sendMessageOk ctx s, false).
Proof.
  intros Hr. unfold handleMakeListReplies, handleMakeList.
  destruct (negb (ownerOnly ownerTelegramId ctx)); [done |].
  destruct (ensureChat (chatId ctx) (memoryStore s)) as [store st].
  destruct (length (exportAddresses getAddress st) =? 0).
  - by rewrite Hr.
  - destruct (sendAll _ _ _) as [acts ok]. unfold closeDelivery.
    rewrite !Hr, andb_true_r. by destruct ok.
Qed.

(** X4: the parts of an export go out in order until the transport refuses
    one: the parts before the refused one have been sent and none after it
    is.  The reply that the results were sent closes the delivery exactly
    when every part went out and the transport accepted that reply too;
    otherwise the reply that reports a failure is tried, also after every
    part went out, and when it is refused as well nothing closes the
    delivery and the handler rejects.  With no reply refused this is
    [handleMakeList]. *)
Theorem makelist_delivery
    (ownerTelegramId : Z) (getAddress : option (jsstring -> option jsstring))
    (sendMessageOk replyOk : Z -> jsstring -> bool) (ctx : Ctx) (s : Sys) :
  ownerOnly ownerTelegramId ctx = true ->
  addressSet (ensureChat (chatId ctx) (memoryStore s)).2 ≠ [] ->
  let blocks := exportBlocks getAddress ctx (ensureChat (chatId ctx) (memoryStore s)).2 in
  let r := handleMakeListReplies ownerTelegramId getAddress sendMessageOk replyOk ctx s in
  (exists k,
    k <= length blocks /\
    (forall m, m ∈ take k blocks -> sendMessageOk ownerTelegramId m = true) /\
    (k < length blocks ->
       exists m, blocks !! k = Some m /\ sendMessageOk ownerTelegramId m = false) /\
    let confirmed := bool_decide (k = length blocks) && replyOk (chatId ctx) sentReply in
    r.1.2 = map (SendMessage ownerTelegramId) (take k blocks)
            ++ (if confirmed then [Reply (chatId ctx) sentReply]
                else if replyOk (chatId ctx) failedReply
                     then [Reply (chatId ctx) failedReply] else []) /\
    r.2 = negb confirmed && negb (replyOk (chatId ctx) failedReply)) /\
  ((forall chat text, replyOk chat text = true) ->
     r = (handleMakeList ownerTelegramId getAddress sendMessageOk ctx s, false)).
Proof.
  intros Ho Hne blocks r. split; [| apply handleMakeListReplies_accepted].
  destruct (sendAll_spec ownerTelegramId sendMessageOk blocks) as (k & Hk & Hs & Hall & Hstop).
  exists k. split_and!; [done | done | done |].
  subst r. unfold handleMakeListReplies. rewrite Ho. simpl.
  destruct (ensureChat (chatId ctx) (memoryStore s)) as [store st] eqn:E.
  simpl in Hne, blocks. rewrite exportAddresses_length.
  destruct (length (addressSet st)) eqn:El.
  { destruct (addressSet st); [done | discriminate]. }
  simpl. fold blocks. rewrite Hs. unfold closeDelivery.
  destruct (bool_decide (k = length blocks)); simpl;
    [destruct (replyOk (chatId ctx) sentReply); simpl |];
    destruct (replyOk (chatId ctx) failedReply); simpl;
    rewrite ?app_nil_r; done.
Qed.

Lemma makelist_delivery_witness :
  (handleMakeListReplies 42 None (fun _ _ => true)
     (fun _ text => bool_decide (text ≠ sentReply)) ctx_group sys_four).1.2
  = map (SendMessage 42)
      (exportBlocks None ctx_group (ensureChat (chatId ctx_group) (memoryStore sys_four)).2)
    ++ [Reply (chatId ctx_group) failedReply].
Proof.
  destruct (makelist_delivery 42 None (fun _ _ => true)
              (fun _ text => bool_decide (text ≠ sentReply)) ctx_group sys_four)
    as [(k & Hk & _ & Hstop & H & _) _].
  - vm_compute. reflexivity.
  - vm_compute. discriminate.
  - assert (Hlen : k = length (exportBlocks None ctx_group
                                 (ensureChat (chatId ctx_group) (memoryStore sys_four)).2)).
    { destruct (decide (k = length (exportBlocks None ctx_group
                                 (ensureChat (chatId ctx_group) (memoryStore sys_four)).2)))
        as [Heq | Hneq]; [exact Heq |].
      destruct Hstop as (m & _ & Hm); [lia | discriminate Hm]. }
    rewrite H, Hlen, firstn_all. reflexivity.
Defined.


(** X7: no command changes what has been collected.  Help and whoami leave
    the whole program state as it is; status and makelist leave every
    existing chat state, the calls in flight and the launch log as they are,
    and at most enter a fresh, empty state for the invoking chat. *)
Theorem commands_keep_state
    (ownerTelegramId : Z) (getAddress : option (jsstring -> option jsstring))
    (sendMessageOk : Z -> jsstring -> bool) (cmd : Command) (ctx : Ctx) (s : Sys) :
  let s' := (runCommand ownerTelegramId getAddress sendMessageOk cmd ctx s).1 in
  (cmd = CmdHelp \/ cmd = CmdWhoami -> s' = s) /\
  inflight s' = inflight s /\
  launched s' = launched s /\
  (forall c st, memoryStore s !! c = Some st -> memoryStore s' !! c = Some st) /\
  (forall c, memoryStore s !! c = None ->
     memoryStore s' !! c = None \/
     (c = chatId ctx /\ memoryStore s' !! c = Some freshChat)).
Proof.
  intros s'. split.
  { intros [-> | ->]; reflexivity. }
  subst s'.
  destruct (runCommand_store ownerTelegramId getAddress sendMessageOk cmd ctx s)
    as [-> | ->].
  - split_and!; [done | done | done | by left].
  - simpl. unfold ensureChat.
    destruct (memoryStore s !! chatId ctx) as [st0|] eqn:E; simpl.
    + split_and!; [done | done | done | by left].
    + split_and!; [done | done | |].
      * intros c st Hc. rewrite lookup_insert_ne; [done | congruence].
      * intros c Hc. destruct (decide (c = chatId ctx)) as [-> | Hne].
        -- right. by rewrite lookup_insert_eq.
        -- left. by rewrite lookup_insert_ne.
Qed.

Lemma channelCommand_isCmd (text : jsstring) (cmd : Command) :
  channelCommand text = Some cmd <-> isCmd text (cmdName cmd) = true.
Proof.
  unfold channelCommand, isCmd.
  destruct (trim text) as [|a [|b t]].
  - destruct cmd; simpl; split; discriminate.
  - destruct cmd; simpl; rewrite ?andb_false_r; split; discriminate.
  - assert (H1 : js "/" ++ js "help" = (47 :: 104 :: js "elp")%N) by reflexivity.
    assert (H2 : js "/" ++ js "whoami" = (47 :: 119 :: js "hoami")%N) by reflexivity.
    assert (H3 : js "/" ++ js "status" = (47 :: 115 :: js "tatus")%N) by reflexivity.
    assert (H4 : js "/" ++ js "makelist" = (47 :: 109 :: js "akelist")%N) by reflexivity.
    assert (Hcmd : js "/" ++ cmdName cmd
                   = match cmd with
                     | CmdHelp => (47 :: 104 :: js "elp")%N
                     | CmdWhoami => (47 :: 119 :: js "hoami")%N
                     | CmdStatus => (47 :: 115 :: js "tatus")%N
                     | CmdMakelist => (47 :: 109 :: js "akelist")%N
                     end) by (by destruct cmd).
    rewrite H1, H2, H3, H4, Hcmd. clear H1 H2 H3 H4 Hcmd.
    assert (Hsw : forall d p, startsWith (a :: b :: t) (47 :: d :: p)%N
                              = (47 =? a)%N && ((d =? b)%N && startsWith t p))
      by reflexivity.
    rewrite !Hsw.
    replace (startsWith (a :: b :: t)
               match cmd with
               | CmdHelp => (47 :: 104 :: js "elp")%N
               | CmdWhoami => (47 :: 119 :: js "hoami")%N
               | CmdStatus => (47 :: 115 :: js "tatus")%N
               | CmdMakelist => (47 :: 109 :: js "akelist")%N
               end)
      with ((47 =? a)%N &&
            match cmd with
            | CmdHelp => (104 =? b)%N && startsWith t (js "elp")
            | CmdWhoami => (119 =? b)%N && startsWith t (js "hoami")
            | CmdStatus => (115 =? b)%N && startsWith t (js "tatus")
            | CmdMakelist => (109 =? b)%N && startsWith t (js "akelist")
            end) by (by destruct cmd).
    generalize (startsWith t (js "elp")) (startsWith t (js "hoami"))
               (startsWith t (js "tatus")) (startsWith t (js "akelist")).
    intros q1 q2 q3 q4. clear Hsw.
    destruct (47 =? a)%N; cbn [andb]; [| destruct cmd; split; discriminate].
    destruct (N.eqb_spec 104 b) as [<- |N1]; [destruct cmd, q1, q2, q3, q4; cbn; split; congruence |].
    destruct (N.eqb_spec 119 b) as [<- |N2]; [destruct cmd, q1, q2, q3, q4; cbn; split; congruence |].
    destruct (N.eqb_spec 115 b) as [<- |N3]; [destruct cmd, q1, q2, q3, q4; cbn; split; congruence |].
    destruct (N.eqb_spec 109 b) as [<- |N4]; [destruct cmd, q1, q2, q3, q4; cbn; split; congruence |].
    destruct cmd; cbn; split; congruence.
Qed.

Lemma startsWith_spec s p : startsWith s p = true <-> exists rest, s = p ++ rest.
Proof.
  revert s. induction p as [|a p IH]; intros s; simpl.
  - destruct s; (split; [intros _; by eexists | intros _; reflexivity]).
  - destruct s as [|b s].
    + split; [discriminate | intros (rest & H); discriminate].
    + simpl. rewrite andb_true_iff, IH, N.eqb_eq. split.
      * intros (-> & rest & ->). by exists rest.
      * intros (rest & [= -> ->]). eauto.
Qed.

(** X8: the channel-post dispatcher runs a command exactly when the text,
    with the white space around it removed, is a slash, the command's name,
    and anything after that; the four names exclude one another, so the
    order of the tests does not matter. *)
Theorem channelCommand_iff (text : jsstring) (cmd : Command) :
  channelCommand text = Some cmd <->
  exists rest, trim text = js "/" ++ cmdName cmd ++ rest.
Proof.
  rewrite channelCommand_isCmd. unfold isCmd. rewrite startsWith_spec.
  split; intros (rest & H); exists rest; by rewrite H, <- ?app_assoc.
Qed.

Lemma trimStart_app_ws ws s :
  forallb isTrimChar ws = true -> trimStart (ws ++ s) = trimStart s.
Proof.
  induction ws as [|c ws IH]; simpl; [done |].
  intros H. apply andb_prop in H as [Hc Hws]. rewrite Hc. by apply IH.
Qed.

Lemma trimStart_ws ws : forallb isTrimChar ws = true -> trimStart ws = [].
Proof.
  intros H. rewrite <- (app_nil_r ws). by rewrite trimStart_app_ws.
Qed.

Lemma trimStart_app_r s ws :
  forallb isTrimChar ws = true ->
  trimStart (s ++ ws) = if trimStart s is [] then [] else trimStart s ++ ws.
Proof.
  intros H. induction s as [|c s IH]; simpl.
  - by apply trimStart_ws.
  - destruct (isTrimChar c); [done | done].
Qed.

Lemma forallb_rev {A} (p : A -> bool) l : forallb p (rev l) = forallb p l.
Proof.
  induction l as [|x l IH]; simpl; [done |].
  rewrite forallb_app, IH. simpl. rewrite andb_true_r. apply andb_comm.
Qed.

Lemma trim_surrounding ws1 ws2 s :
  forallb isTrimChar ws1 = true -> forallb isTrimChar ws2 = true ->
  trim (ws1 ++ s ++ ws2) = trim s.
Proof.
  intros H1 H2. unfold trim. rewrite trimStart_app_ws by done.
  rewrite trimStart_app_r by done.
  destruct (trimStart s) as [|c s'] eqn:E; [done |].
  rewrite rev_app_distr, trimStart_app_ws; [done |]. by rewrite forallb_rev.
Qed.

(** X9: white space and line breaks around a channel post do not affect
    which command it is taken for. *)
Theorem channelCommand_ignores_surrounding_space (ws1 ws2 text : jsstring) :
  forallb isTrimChar ws1 = true -> forallb isTrimChar ws2 = true ->
  channelCommand (ws1 ++ text ++ ws2) = channelCommand text.
Proof.
  intros H1 H2. unfold channelCommand, isCmd. by rewrite trim_surrounding.
Qed.

Lemma channelCommand_ignores_surrounding_space_witness :
  channelCommand (js "  " ++ js "/status now" ++ nl) = channelCommand (js "/status now").
Proof.
  apply (channelCommand_ignores_surrounding_space (js "  ") nl (js "/status now"));
    vm_compute; reflexivity.
Defined.

(* ===================================================================== *)
(** ** How events change a chat *)
(* ===================================================================== *)

Lemma chatOf_lookup s c st : memoryStore s !! c = Some st -> chatOf s c = st.
Proof. unfold chatOf. by intros ->. Qed.

Lemma chatOf_ensureChat s c c' :
  chatOf (withStore s (ensureChat c (memoryStore s)).1) c' = chatOf s c'.
Proof.
  unfold chatOf, ensureChat. simpl.
  destruct (memoryStore s !! c) eqn:E; simpl; [done |].
  destruct (decide (c = c')) as [<- | Hne].
  - by rewrite lookup_insert_eq, E.
  - by rewrite lookup_insert_ne.
Qed.

Lemma ensureChat_2_chatOf s c : (ensureChat c (memoryStore s)).2 = chatOf s c.
Proof. unfold ensureChat, chatOf. by destruct (memoryStore s !! c). Qed.

Lemma ensureChat_other c c' store :
  c' ≠ c -> (ensureChat c store).1 !! c' = store !! c'.
Proof.
  intros Hne. unfold ensureChat. destruct (store !! c); simpl; [done |].
  by rewrite lookup_insert_ne.
Qed.

Lemma chatGrow_refl st : chatGrow st st.
Proof.
  split; [done | | by left].
  exists []. split; [| done]. intros m Hm. by apply elem_of_nil in Hm.
Qed.

Lemma scanNames_keys_origin useEns c acc ms k :
  k ∈ (scanNames useEns c acc ms).1.1.*1 ->
  k ∈ acc.1.1.*1 \/ exists raw, raw ∈ ms /\ k = toLowerCase raw.
Proof.
  revert acc. induction ms as [|m ms IH]; intros acc; simpl; [by left |].
  intros H. destruct (IH _ H) as [Hk | (raw & Hraw & ->)].
  - destruct acc as [[names fl] la]. unfold nameStep in Hk.
    destruct (mapHas (toLowerCase m) names) eqn:E; simpl in Hk; [by left |].
    assert (Hm : toLowerCase m ∉ names.*1).
    { intros Hin. apply mapHas_true in Hin. congruence. }
    rewrite mapSet_keys_absent, fmap_app in Hk by done.
    apply elem_of_app in Hk as [Hk | Hk]; [by left |].
    apply list_elem_of_singleton in Hk as ->. right. exists m. split; [left | done].
  - right. exists raw. split; [by right | done].
Qed.

(** What an event does to the process state, case by case: the store
    outside the event's chat is untouched and the chat is never dropped;
    the chat itself and the two task lists are left alone, or the chat is
    set watching, or a watching chat collects from a text, or a backend
    call settles. *)
Lemma handle_cases ownerTelegramId useEns getAddress sendMessageOk e s s' acts :
  handle ownerTelegramId useEns getAddress sendMessageOk e s = Some (s', acts) ->
  let c := eventChat e in
  let st := chatOf s c in
  (forall c', c' ≠ c -> memoryStore s' !! c' = memoryStore s !! c') /\
  (is_Some (memoryStore s !! c) -> is_Some (memoryStore s' !! c)) /\
  ((chatOf s' c = st /\ inflight s' = inflight s /\ launched s' = launched s) \/
   (chatOf s' c = {| watching := true; ethSet := ethSet st; ensMap := ensMap st |} /\
    inflight s' = inflight s /\ launched s' = launched s) \/
   (exists text,
      let acc := scanNames useEns c (ensMap st, inflight s, launched s) (ensMatches text) in
      watching st = true /\
      chatOf s' c = {| watching := true;
                       ethSet := addAll (ethSet st) (ethMatches text);
                       ensMap := acc.1.1 |} /\
      inflight s' = acc.1.2 /\ launched s' = acc.2) \/
   (exists name result,
      e = EvResolved c name result /\ (c, name) ∈ inflight s /\
      inflight s' = filter (fun t => t ≠ (c, name)) (inflight s) /\
      launched s' = launched s /\
      (chatOf s' c = st \/
       exists resolved,
         result = Some resolved /\ truthy resolved = true /\
         is_Some (memoryStore s !! c) /\
         chatOf s' c = {| watching := watching st; ethSet := ethSet st;
                          ensMap := mapSet name (Some resolved) (ensMap st) |}))).
Proof.
  assert (Hsame : forall c,
    (forall c', c' ≠ c -> memoryStore s !! c' = memoryStore s !! c') /\
    (is_Some (memoryStore s !! c) -> is_Some (memoryStore s !! c)) /\
    chatOf s c = chatOf s c /\ inflight s = inflight s /\ launched s = launched s) by done.
  assert (Hens : forall c,
    (forall c', c' ≠ c -> (ensureChat c (memoryStore s)).1 !! c' = memoryStore s !! c') /\
    (is_Some (memoryStore s !! c) -> is_Some ((ensureChat c (memoryStore s)).1 !! c)) /\
    chatOf (withStore s (ensureChat c (memoryStore s)).1) c = chatOf s c /\
    inflight s = inflight s /\ launched s = launched s).
  { intros c. split_and!; [| | apply chatOf_ensureChat | done | done].
    - intros c' Hne. by apply ensureChat_other.
    - intros _. rewrite ensureChat_lookup. eauto. }
  assert (Hcmd : forall cmd ctx,
    let r := (runCommand ownerTelegramId getAddress sendMessageOk cmd ctx s).1 in
    (forall c', c' ≠ chatId ctx -> memoryStore r !! c' = memoryStore s !! c') /\
    (is_Some (memoryStore s !! chatId ctx) -> is_Some (memoryStore r !! chatId ctx)) /\
    chatOf r (chatId ctx) = chatOf s (chatId ctx) /\
    inflight r = inflight s /\ launched r = launched s).
  { intros cmd ctx r. subst r.
    destruct (runCommand_store ownerTelegramId getAddress sendMessageOk cmd ctx s)
      as [-> | ->]; [apply Hsame | apply Hens]. }
  assert (Htext : forall ctx text,
    let r := handleText useEns ctx text s in
    let st := chatOf s (chatId ctx) in
    (forall c', c' ≠ chatId ctx -> memoryStore r !! c' = memoryStore s !! c') /\
    (is_Some (memoryStore s !! chatId ctx) -> is_Some (memoryStore r !! chatId ctx)) /\
    ((chatOf r (chatId ctx) = st /\ inflight r = inflight s /\ launched r = launched s) \/
     (let acc := scanNames useEns (chatId ctx) (ensMap st, inflight s, launched s)
                   (ensMatches text) in
      watching st = true /\
      chatOf r (chatId ctx) = {| watching := true;
                                 ethSet := addAll (ethSet st) (ethMatches text);
                                 ensMap := acc.1.1 |} /\
      inflight r = acc.1.2 /\ launched r = acc.2))).
  { intros ctx text r st. subst r st.
    destruct (memoryStore s !! chatId ctx) as [st|] eqn:E.
    - destruct (watching st) eqn:W.
      + rewrite (handleText_watching useEns ctx text s st E W). cbv zeta. simpl.
        rewrite (chatOf_lookup s _ st E). split_and!.
        * intros c' Hne. by rewrite lookup_insert_ne.
        * intros _. rewrite lookup_insert_eq. eauto.
        * right. unfold chatOf. simpl. rewrite lookup_insert_eq. done.
      + rewrite handleText_off; rewrite E; simpl; [| congruence].
        rewrite <- E. destruct (Hsame (chatId ctx)) as (H1 & H2 & H3).
        split_and!; [done | done | by left].
    - rewrite handleText_off; rewrite E; simpl; [| congruence].
      replace (<[chatId ctx := freshChat]> (memoryStore s))
        with (ensureChat (chatId ctx) (memoryStore s)).1
        by (unfold ensureChat; by rewrite E).
      rewrite <- E. destruct (Hens (chatId ctx)) as (H1 & H2 & H3).
      split_and!; [done | done | by left]. }
  destruct e as [ctx type old new|cmd ctx|ctx text|ctx text|c name result]; simpl.
  - intros [= H]. rewrite (surjective_pairing (onMyChatMember _ _ _ _ _)) in H.
    injection H as <- _. unfold onMyChatMember.
    destruct (_ && _ && _).
    2:{ destruct (Hsame (chatId ctx)) as (H1 & H2 & H3).
        split_and!; [done | done | by left]. }
    destruct (ensureChat (chatId ctx) (memoryStore s)) as [store st] eqn:E.
    assert (Hst : st = chatOf s (chatId ctx)).
    { rewrite <- ensureChat_2_chatOf. by rewrite E. }
    replace store with (ensureChat (chatId ctx) (memoryStore s)).1 by (by rewrite E).
    simpl. rewrite insert_ensureChat. split_and!.
    + intros c' Hne. by rewrite lookup_insert_ne.
    + intros _. rewrite lookup_insert_eq. eauto.
    + right. left. unfold chatOf at 1. simpl. rewrite lookup_insert_eq. simpl.
      by rewrite <- Hst.
  - intros [= H]. rewrite (surjective_pairing (runCommand _ _ _ _ _ _)) in H.
    injection H as <- _. destruct (Hcmd cmd ctx) as (H1 & H2 & H3).
    split_and!; [done | done | by left].
  - unfold onText. destruct (negb _); intros [= <- _].
    + destruct (Hsame (chatId ctx)) as (H1 & H2 & H3).
      split_and!; [done | done | by left].
    + destruct (Htext ctx text) as (H1 & H2 & [H3 | H3]).
      * split_and!; [done | done | by left].
      * split_and!; [done | done |]. right. right. left. by exists text.
  - unfold onChannelPost. destruct (negb _).
    { intros [= <- _]. destruct (Hsame (chatId ctx)) as (H1 & H2 & H3).
      split_and!; [done | done | by left]. }
    destruct (channelCommand text) as [cmd|].
    + intros [= H]. rewrite (surjective_pairing (runCommand _ _ _ _ _ _)) in H.
      injection H as <- _. destruct (Hcmd cmd ctx) as (H1 & H2 & H3).
      split_and!; [done | done | by left].
    + intros [= <- _]. destruct (Htext ctx text) as (H1 & H2 & [H3 | H3]).
      * split_and!; [done | done | by left].
      * split_and!; [done | done |]. right. right. left. by exists text.
  - unfold onResolved. case_bool_decide as Hin; [| done].
    intros H. split_and!.
    + intros c' Hne. destruct result as [resolved|]; [| by injection H as <- _].
      destruct (memoryStore s !! c) as [st|]; [| by injection H as <- _].
      destruct (truthy resolved); injection H as <- _; [| done].
      simpl. by rewrite lookup_insert_ne.
    + intros Hs. destruct result as [resolved|]; [| by injection H as <- _].
      destruct (memoryStore s !! c) as [st|] eqn:E; [| by injection H as <- _].
      destruct (truthy resolved); injection H as <- _; simpl; [| by rewrite E].
      rewrite lookup_insert_eq. eauto.
    + right. right. right. exists name, result. split; [done |]. split; [done |].
      destruct result as [resolved|];
        [| injection H as <- _; split_and!; [done | done | by left]].
      destruct (memoryStore s !! c) as [st|] eqn:E;
        [| injection H as <- _; split_and!; [done | done | by left]].
      destruct (truthy resolved) eqn:T;
        [| injection H as <- _; split_and!; [done | done | by left]].
      injection H as <- _. split_and!; [done | done |].
      right. exists resolved. split_and!; [done | done | eauto |].
      unfold chatOf. simpl. rewrite lookup_insert_eq, E. done.
Qed.

Lemma addAll_prefix e ms : e `prefix_of` addAll e ms.
Proof.
  revert e. induction ms as [|m ms IH]; intros e; simpl; [done |].
  etrans; [| apply IH]. unfold setAdd. case_bool_decide; [done | by apply prefix_app_r].
Qed.

(** Every transition from a state that satisfies the invariant makes the
    event's chat grow. *)
Lemma handle_grow ownerTelegramId useEns getAddress sendMessageOk e s s' acts :
  Inv s ->
  handle ownerTelegramId useEns getAddress sendMessageOk e s = Some (s', acts) ->
  chatGrow (chatOf s (eventChat e)) (chatOf s' (eventChat e)).
Proof.
  intros HI H.
  destruct (handle_cases _ _ _ _ e s s' acts H)
    as (_ & _ & [(-> & _) | [(-> & _) | [(text & W & -> & _) | (name & result & _ & Hin & _ & _ & Hr)]]]).
  - apply chatGrow_refl.
  - split; simpl; [done | | by left].
    exists []. split; [| done]. intros m Hm. by apply elem_of_nil in Hm.
  - split; simpl; [done | |].
    + exists (ethMatches text). split; [eauto | done].
    + intros k Hk. apply scanNames_keys_origin in Hk as [Hk | (raw & Hraw & ->)];
        [by left | right; eauto].
  - destruct Hr as [-> | (resolved & _ & _ & [st E] & ->)]; [apply chatGrow_refl |].
    split; simpl; [done | |].
    + exists []. split; [| done]. intros m Hm. by apply elem_of_nil in Hm.
    + intros k Hk. left.
      pose proof (ni_inflight _ _ _ _ (inv_names s HI (eventChat e)) name Hin) as Hn.
      rewrite (namesOf_lookup s _ st E) in Hn. apply mapGet_keys in Hn.
      rewrite (chatOf_lookup s _ st E) in Hk |- *.
      by rewrite mapSet_keys_present in Hk.
Qed.

(* ===================================================================== *)
(** ** The form of what is stored *)
(* ===================================================================== *)

Lemma execFrom_elem ic r input fuel i m :
  m ∈ execFrom ic r input fuel i ->
  exists j e, i <= j <= length input /\ matchAt ic r input j = Some e /\
              m = substring input j e.
Proof.
  revert i. induction fuel as [|fuel IH]; intros i; cbn [execFrom].
  - intros H. by apply elem_of_nil in H.
  - destruct (length input <? i) eqn:E.
    { intros H. by apply elem_of_nil in H. }
    apply Nat.ltb_ge in E.
    destruct (matchAt ic r input i) as [e|] eqn:M.
    + intros H. apply elem_of_cons in H as [-> | H].
      * exists i, e. split; [lia | done].
      * pose proof (matchAt_range ic r input i e E M) as He.
        destruct (IH _ H) as (j & e' & Hj & Hm & ->). exists j, e'.
        split; [| done]. destruct (e =? i) eqn:Ee; [apply Nat.eqb_eq in Ee |]; lia.
    + intros H. destruct (IH _ H) as (j & e' & Hj & Hm & ->). exists j, e'.
      split; [lia | done].
Qed.

Lemma lowerChar_hex c : isHexDigit c = true -> isLowerHex (lowerChar c) = true.
Proof.
  unfold isHexDigit, isLowerHex, lowerChar, isUpper, isDigit, between.
  intros H. leb_cases; leb_cases; try done; lia.
Qed.

Lemma lowerChar_idemp c : lowerChar (lowerChar c) = lowerChar c.
Proof.
  unfold lowerChar, isUpper, between.
  leb_cases; leb_cases; try done; lia.
Qed.

Lemma toLowerCase_idemp s : toLowerCase (toLowerCase s) = toLowerCase s.
Proof.
  unfold toLowerCase. rewrite map_map. apply map_ext. intros c. apply lowerChar_idemp.
Qed.

Lemma charAt_lookup input i c : charAt input i c = true -> input !! i = Some c.
Proof.
  unfold charAt. destruct (input !! i) as [a|]; [| done].
  intros H. apply N.eqb_eq in H. by subst.
Qed.

(** A match of the address pattern, lower-cased, is a stored address. *)
Lemma ethMatch_form text m :
  m ∈ ethMatches text -> isStoredAddress (toLowerCase m) = true.
Proof.
  unfold ethMatches, matchAll. intros H.
  apply execFrom_elem in H as (j & e & Hj & Hm & ->).
  rewrite matchAt_ethRegex in Hm.
  destruct (isAddressAt text j) eqn:A; [| done]. injection Hm as <-.
  pose proof (isAddressAt_length text j A) as Hlen.
  unfold isAddressAt in A.
  repeat (apply andb_prop in A as [A ?]).
  unfold substring. replace (j + 42 - j) with 42 by lia.
  rewrite (drop_S text 48%N j) by (by apply charAt_lookup).
  rewrite (drop_S text 120%N (S j)) by (by apply charAt_lookup).
  cbn [take toLowerCase map isStoredAddress]. change (lowerChar 48) with 48%N.
  change (lowerChar 120) with 120%N. cbn [isStoredAddress].
  apply andb_true_intro. split.
  - apply Nat.eqb_eq. rewrite length_map, length_take, length_drop. lia.
  - apply forallb_forall. intros c Hc. apply in_map_iff in Hc as (c0 & <- & Hc0).
    apply lowerChar_hex. apply list_elem_of_In in Hc0.
    apply list_elem_of_lookup in Hc0 as [k Hk].
    pose proof (lookup_lt_Some _ _ _ Hk) as Hlt. rewrite length_take in Hlt.
    rewrite lookup_take_lt in Hk by lia. rewrite lookup_drop in Hk.
    assert (Hh : isHexAt text (S (S j) + k) = true)
      by (eapply forallb_seq_lookup; [eassumption | lia]).
    unfold isHexAt in Hh. by rewrite Hk in Hh.
Qed.

Lemma canon_lower a ch :
  ch = 46%N \/ isLower ch = true ->
  (canonicalize true a =? canonicalize true ch)%N = true -> lowerChar a = ch.
Proof.
  intros Hch H. apply N.eqb_eq in H.
  unfold canonicalize, lowerChar, isUpper, isLower, between in *. cbn [andb] in *.
  destruct Hch as [-> | Hch]; leb_cases; leb_cases; try done; lia.
Qed.

(** One or more class members: the continuation is reached further on. *)
Lemma quant1_class_progress ic input ranges x c z :
  compile ic input (Quant 1 None (Class ranges)) x c = Some z ->
  exists y, S x <= y <= length input /\ c y = Some z.
Proof.
  cbn [compile]. replace (1 + length input + 2) with (S (length input + 2)) by lia.
  cbn [repeatMatcher]. rewrite bool_decide_eq_false_2 by discriminate.
  cbn [Nat.eqb andb pred].
  destruct (input !! x) as [a|] eqn:E; [| done].
  apply lookup_lt_Some in E.
  destruct (charSetMatches ic ranges a); [| done].
  intros H.
  destruct (repeatMatcher_provenant (length input) _ (length input + 2) 0 (pred <$> None)
              (compile_provenant ic input (Class ranges)) (S x) c z ltac:(lia) H)
    as (y & Hy & Hc).
  exists y. split; [lia | done].
Qed.

Lemma compile_Lit_true input ch x c z :
  compile true input (Lit ch) x c = Some z ->
  exists a, input !! x = Some a /\
            (canonicalize true a =? canonicalize true ch)%N = true /\ c (S x) = Some z.
Proof.
  cbn [compile]. destruct (input !! x) as [a|]; [| done].
  destruct (_ =? _)%N eqn:E; [| done]. intros H. by exists a.
Qed.

(** A match of the name pattern ends in [.eth], whatever the case of the
    letters, after at least one more character. *)
Lemma matchAt_ensRegex_tail input i e :
  i <= length input -> matchAt true ensRegex input i = Some e ->
  exists y a1 a2 a3 a4,
    S i <= y /\ e = y + 4 /\ e <= length input /\
    drop y input = a1 :: a2 :: a3 :: a4 :: drop e input /\
    toLowerCase [a1; a2; a3; a4] = js ".eth".
Proof.
  intros Hi. unfold matchAt, ensRegex. cbn [seqAll].
  rewrite compile_Seq, compile_WordBoundary.
  destruct (wordBoundaryAt input i); [| done].
  rewrite compile_Seq. intros H.
  apply quant1_class_progress in H as (y1 & Hy1 & H).
  rewrite compile_Seq in H.
  apply (compile_provenant true input _ y1 _ e ltac:(lia)) in H as (y & Hy & H).
  rewrite compile_Seq in H. apply compile_Lit_true in H as (a1 & E1 & C1 & H).
  rewrite compile_Seq in H. apply compile_Lit_true in H as (a2 & E2 & C2 & H).
  rewrite compile_Seq in H. apply compile_Lit_true in H as (a3 & E3 & C3 & H).
  rewrite compile_Seq in H. apply compile_Lit_true in H as (a4 & E4 & C4 & H).
  rewrite compile_WordBoundary in H.
  destruct (wordBoundaryAt input (S (S (S (S y))))); [| done]. injection H as <-.
  exists y, a1, a2, a3, a4.
  pose proof (lookup_lt_Some _ _ _ E4) as Hlt.
  split_and!; [lia | lia | lia | |].
  - rewrite (drop_S input a1 y E1), (drop_S input a2 (S y) E2),
      (drop_S input a3 (S (S y)) E3), (drop_S input a4 (S (S (S y))) E4).
    do 4 f_equal.
  - cbn [toLowerCase map].
    rewrite (canon_lower a1 46), (canon_lower a2 101), (canon_lower a3 116),
      (canon_lower a4 104); auto.
Qed.

(** A match of the name pattern, lower-cased, is a stored name. *)
Lemma ensMatch_form text m :
  m ∈ ensMatches text -> isStoredName (toLowerCase m).
Proof.
  unfold ensMatches, matchAll. intros H.
  apply execFrom_elem in H as (j & e & Hj & Hm & ->).
  split; [apply toLowerCase_idemp |].
  apply matchAt_ensRegex_tail in Hm as (y & a1 & a2 & a3 & a4 & Hy & -> & He & Hd & Hl);
    [| lia].
  unfold substring.
  replace (y + 4 - j) with ((y - j) + 4) by lia.
  rewrite <- take_take_drop, drop_drop.
  replace (j + (y - j)) with y by lia. rewrite Hd. cbn [take].
  exists (toLowerCase (take (y - j) (drop j text))). split.
  - intros Hnil. apply (f_equal length) in Hnil.
    unfold toLowerCase in Hnil. rewrite length_map, length_take, length_drop in Hnil.
    simpl in Hnil. lia.
  - unfold toLowerCase in *. rewrite map_app, take_0. by rewrite Hl.
Qed.

Lemma ChatInv_fresh : ChatInv freshChat.
Proof.
  split; simpl; [apply NoDup_nil_2 | |]; intros x Hx; by apply elem_of_nil in Hx.
Qed.

Lemma ChatInv_grow st st' : ChatInv st -> chatGrow st st' -> ChatInv st'.
Proof.
  intros [N F K] [_ (ms & Hms & He) Hk]. split.
  - rewrite He. by apply addAll_NoDup.
  - intros a Ha. rewrite He in Ha.
    apply addAll_elem_of in Ha as [Ha | (m & Hm & ->)]; [by apply F |].
    destruct (Hms m Hm) as [text Ht]. by eapply ethMatch_form.
  - intros k Hin. destruct (Hk k Hin) as [Hold | (text & raw & Hr & ->)];
      [by apply K | by eapply ensMatch_form].
Qed.

Lemma reachable_ChatInv ownerTelegramId useEns getAddress sendMessageOk s :
  reachable ownerTelegramId useEns getAddress sendMessageOk s ->
  forall c, ChatInv (chatOf s c).
Proof.
  induction 1 as [|s e s' acts Hr IH H]; intros c.
  - unfold chatOf. simpl. rewrite lookup_empty. apply ChatInv_fresh.
  - pose proof (reachable_Inv _ _ _ _ s Hr) as HI.
    destruct (decide (c = eventChat e)) as [-> | Hne].
    + eapply ChatInv_grow; [apply IH | by eapply handle_grow].
    + destruct (handle_cases _ _ _ _ e s s' acts H) as (Ho & _).
      unfold chatOf. rewrite (Ho c Hne). apply IH.
Qed.

(** X10: in every state the bot can reach, each chat's address set has no
    duplicate and holds only strings made of [0x] and forty lower-case hex
    digits, and each key of its name mapping is unique, lower-case, and ends
    in [.eth] after at least one more character. *)
Theorem stored_forms
    (ownerTelegramId : Z) (useEns : bool)
    (getAddress : option (jsstring -> option jsstring))
    (sendMessageOk : Z -> jsstring -> bool) (s : Sys) (c : Z) (st : ChatState) :
  reachable ownerTelegramId useEns getAddress sendMessageOk s ->
  memoryStore s !! c = Some st ->
  NoDup (ethSet st) /\
  (forall a, a ∈ ethSet st -> isStoredAddress a = true) /\
  NoDup (ensMap st).*1 /\
  (forall k, k ∈ (ensMap st).*1 ->
     toLowerCase k = k /\ exists label, label ≠ [] /\ k = label ++ js ".eth").
Proof.
  intros Hr Hc.
  destruct (reachable_ChatInv _ _ _ _ s Hr c) as [N F K].
  rewrite (chatOf_lookup s c st Hc) in N, F, K.
  pose proof (ni_keys _ _ _ _ (inv_names s (reachable_Inv _ _ _ _ s Hr) c)) as Hk.
  rewrite (namesOf_lookup s c st Hc) in Hk.
  split_and!; [done | done | done |]. intros k Hin. apply (K k Hin).
Qed.

Lemma stored_forms_witness :
  NoDup [addr_b] /\ (forall a, a ∈ [addr_b] -> isStoredAddress a = true).
Proof.
  destruct (stored_forms 42 true None (fun _ _ => true) sys_three (chatId ctx_group)
              (mkChat true [addr_b]
                 [(js "vitalik.eth", Some (js "0x" ++ repeat 66%N 40)); (js "nick.eth", None)]))
    as (H1 & H2 & _).
  - apply run_reachable with (evs := trace_three). vm_compute. reflexivity.
  - vm_compute. reflexivity.
  - split; assumption.
Defined.

(* ===================================================================== *)
(** ** A collection only grows; chats do not touch one another *)
(* ===================================================================== *)

Lemma chatMono_refl st : chatMono st st.
Proof. by split_and!. Qed.

Lemma chatMono_trans a b c : chatMono a b -> chatMono b c -> chatMono a c.
Proof.
  intros (A1 & A2 & A3) (B1 & B2 & B3). split_and!; [auto | by etrans | by etrans].
Qed.

Lemma scanNames_keys_prefix useEns c acc ms :
  acc.1.1.*1 `prefix_of` (scanNames useEns c acc ms).1.1.*1.
Proof.
  revert acc. induction ms as [|m ms IH]; intros acc; simpl; [done |].
  etrans; [| apply IH]. destruct acc as [[names fl] la]. unfold nameStep.
  destruct (mapHas (toLowerCase m) names) eqn:E; simpl; [done |].
  assert (Hm : toLowerCase m ∉ names.*1).
  { intros Hin. apply mapHas_true in Hin. congruence. }
  rewrite mapSet_keys_absent, fmap_app by done. by apply prefix_app_r.
Qed.

Lemma handle_mono ownerTelegramId useEns getAddress sendMessageOk e s s' acts :
  Inv s ->
  handle ownerTelegramId useEns getAddress sendMessageOk e s = Some (s', acts) ->
  forall c, (is_Some (memoryStore s !! c) -> is_Some (memoryStore s' !! c)) /\
            chatMono (chatOf s c) (chatOf s' c).
Proof.
  intros HI H c.
  destruct (handle_cases _ _ _ _ e s s' acts H) as (Ho & Hk & Hc).
  destruct (decide (c = eventChat e)) as [-> | Hne].
  2:{ unfold chatOf. rewrite (Ho c Hne). split; [done | apply chatMono_refl]. }
  split; [done |].
  destruct Hc as [(-> & _) | [(-> & _) | [(text & W & -> & _) | (name & result & _ & Hin & _ & _ & Hr)]]].
  - apply chatMono_refl.
  - by split_and!.
  - split_and!; simpl; [done | apply addAll_prefix |].
    apply (scanNames_keys_prefix useEns _ (_, _, _)).
  - destruct Hr as [-> | (resolved & _ & _ & [st E] & ->)]; [apply chatMono_refl |].
    split_and!; simpl; [done | done |].
    pose proof (ni_inflight _ _ _ _ (inv_names s HI (eventChat e)) name Hin) as Hn.
    rewrite (namesOf_lookup s _ st E) in Hn. apply mapGet_keys in Hn.
    rewrite (chatOf_lookup s _ st E). by rewrite mapSet_keys_present.
Qed.

(** X11: nothing is ever taken out of a collection and watching is never
    switched off.  From a reachable state to any later one, a chat that has
    a state still has one, a watching chat is still watching, and its
    address set and the keys of its name mapping have only been extended at
    the end, in the order of arrival. *)
Theorem collection_only_grows
    (ownerTelegramId : Z) (useEns : bool)
    (getAddress : option (jsstring -> option jsstring))
    (sendMessageOk : Z -> jsstring -> bool) (s s' : Sys) :
  reachable ownerTelegramId useEns getAddress sendMessageOk s ->
  steps ownerTelegramId useEns getAddress sendMessageOk s s' ->
  forall c st,
    memoryStore s !! c = Some st ->
    exists st',
      memoryStore s' !! c = Some st' /\
      (watching st = true -> watching st' = true) /\
      ethSet st `prefix_of` ethSet st' /\
      (ensMap st).*1 `prefix_of` (ensMap st').*1.
Proof.
  intros Hr Hs. pose proof (reachable_Inv _ _ _ _ s Hr) as HI. clear Hr.
  induction Hs as [s|s e s1 acts s2 H _ IH]; intros c st Hc.
  - exists st. split; [done | apply chatMono_refl].
  - destruct (handle_step _ _ _ _ e s s1 acts HI H) as [HI1 _].
    destruct (handle_mono _ _ _ _ e s s1 acts HI H c) as [Hk Hm].
    destruct (Hk ltac:(eauto)) as [st1 Hc1].
    destruct (IH HI1 c st1 Hc1) as (st2 & Hc2 & Hm2).
    exists st2. split; [done |].
    rewrite (chatOf_lookup s c st Hc), (chatOf_lookup s1 c st1 Hc1) in Hm.
    by apply (chatMono_trans st st1 st2).
Qed.

Lemma collection_only_grows_witness :
  exists st', memoryStore sys_two !! chatId ctx_group = Some st' /\
              [addr_a] `prefix_of` ethSet st'.
Proof.
  destruct (collection_only_grows 42 true None (fun _ _ => true) sys_one sys_two)
    with (c := chatId ctx_group)
         (st := mkChat true [addr_a] [(js "vitalik.eth", None); (js "nick.eth", None)])
    as (st' & H1 & _ & H2 & _).
  - apply run_reachable with (evs := trace_one). vm_compute. reflexivity.
  - apply run_steps with (evs := trace_two). vm_compute. reflexivity.
  - vm_compute. reflexivity.
  - by exists st'.
Defined.

(** X12: an event changes the state of no chat but its own: whatever
    happens in one chat, every other chat's watching flag, address set and
    name mapping are what they were. *)
Theorem event_touches_one_chat
    (ownerTelegramId : Z) (useEns : bool)
    (getAddress : option (jsstring -> option jsstring))
    (sendMessageOk : Z -> jsstring -> bool)
    (e : Event) (s s' : Sys) (acts : list Action) (c : Z) :
  handle ownerTelegramId useEns getAddress sendMessageOk e s = Some (s', acts) ->
  c ≠ eventChat e ->
  memoryStore s' !! c = memoryStore s !! c.
Proof.
  intros H Hne. destruct (handle_cases _ _ _ _ e s s' acts H) as (Ho & _). by apply Ho.
Qed.

Lemma event_touches_one_chat_witness :
  memoryStore (handleText true ctx_channel (js "gm " ++ addr_b) sys_one) !! chatId ctx_group
  = memoryStore sys_one !! chatId ctx_group.
Proof.
  apply (event_touches_one_chat 42 true None (fun _ _ => true)
           (EvText ctx_channel (js "gm " ++ addr_b)) sys_one _ []).
  - reflexivity.
  - vm_compute. discriminate.
Defined.

(* ===================================================================== *)
(** ** Without a resolution backend *)
(* ===================================================================== *)

Lemma scanNames_disabled c acc ms :
  (scanNames false c acc ms).1.2 = acc.1.2 /\
  forall n v, (n, v) ∈ (scanNames false c acc ms).1.1 -> (n, v) ∈ acc.1.1 \/ v = None.
Proof.
  revert acc. induction ms as [|m ms IH]; intros acc; simpl; [by split; [| left] |].
  destruct (IH (nameStep false c acc m)) as [H1 H2]. split.
  - rewrite H1. destruct acc as [[names fl] la]. unfold nameStep.
    by destruct (mapHas _ names).
  - intros n v Hin. destruct (H2 n v Hin) as [Hold | ->]; [| by right].
    destruct acc as [[names fl] la]. unfold nameStep in Hold.
    destruct (mapHas _ names); simpl in Hold; [by left |].
    apply mapSet_elem in Hold as [[= _ ->] | Hold]; [by right | by left].
Qed.

Lemma isStoredAddress_inv a :
  isStoredAddress a = true ->
  exists ds, a = (48 :: 120 :: ds)%N /\ length ds = 40 /\ forallb isLowerHex ds = true.
Proof.
  destruct a as [|c0 a]; [done |]. destruct c0 as [|p]; [done |].
  repeat (match goal with p : positive |- _ => destruct p end; try (simpl; done)).
  destruct a as [|c1 ds]; [done |]. destruct c1 as [|p]; [done |].
  repeat (match goal with p : positive |- _ => destruct p end; try (simpl; done)).
  simpl. intros H. apply andb_prop in H as [H1 H2]. apply Nat.eqb_eq in H1. eauto.
Qed.

Lemma isStoredAddress_lower a : isStoredAddress a = true -> toLowerCase a = a.
Proof.
  intros H. apply isStoredAddress_inv in H as (ds & -> & _ & Hd).
  unfold toLowerCase. simpl. do 2 f_equal.
  rewrite <- (map_id ds) at 2. apply map_ext_in. intros c Hc.
  rewrite forallb_forall in Hd. specialize (Hd c Hc).
  unfold isLowerHex, isDigit, lowerChar, isUpper, between in *.
  leb_cases; try done; lia.
Qed.

Lemma addAll_fresh e l :
  NoDup (e ++ l) -> (forall a, a ∈ l -> toLowerCase a = a) -> addAll e l = e ++ l.
Proof.
  revert e. induction l as [|a l IH]; intros e Hnd Hl; simpl.
  - by rewrite app_nil_r.
  - rewrite (Hl a) by left.
    assert (Ha : a ∉ e).
    { apply NoDup_app in Hnd as (_ & Hd & _). intros Hin. apply (Hd a Hin). left. }
    unfold setAdd. rewrite bool_decide_eq_false_2 by done.
    rewrite IH.
    + by rewrite <- app_assoc.
    + by rewrite <- app_assoc.
    + intros b Hb. apply Hl. by right.
Qed.

Lemma addResolved_all_null s entries :
  (forall n v, (n, v) ∈ entries -> v = None) -> addResolved s entries = s.
Proof.
  revert s. induction entries as [|[n v] entries IH]; intros s H; simpl; [done |].
  rewrite (H n v) by left. simpl. apply IH. intros n' v' Hin. apply (H n' v'). by right.
Qed.

Lemma reachable_disabled ownerTelegramId getAddress sendMessageOk s :
  reachable ownerTelegramId false getAddress sendMessageOk s ->
  inflight s = [] /\ forall c n v, (n, v) ∈ ensMap (chatOf s c) -> v = None.
Proof.
  induction 1 as [|s e s' acts Hr [IHf IHn] H].
  - split; [done |]. intros c n v. unfold chatOf. simpl. rewrite lookup_empty. simpl.
    intros Hin. by apply elem_of_nil in Hin.
  - destruct (handle_cases _ _ _ _ e s s' acts H) as (Ho & _ & Hc).
    assert (Hother : forall c, c ≠ eventChat e -> forall n v,
              (n, v) ∈ ensMap (chatOf s' c) -> v = None).
    { intros c Hne n v. unfold chatOf. rewrite (Ho c Hne). apply IHn. }
    destruct Hc as [(Hst & Hfl & _) | [(Hst & Hfl & _) | [(text & W & Hst & Hfl & _) | (name & result & _ & Hin & _)]]].
    + split; [congruence |]. intros c n v.
      destruct (decide (c = eventChat e)) as [-> | Hne]; [| by apply Hother].
      rewrite Hst. apply IHn.
    + split; [congruence |]. intros c n v.
      destruct (decide (c = eventChat e)) as [-> | Hne]; [| by apply Hother].
      rewrite Hst. simpl. apply IHn.
    + destruct (scanNames_disabled (eventChat e)
                  (ensMap (chatOf s (eventChat e)), inflight s, launched s)
                  (ensMatches text)) as [S1 S2].
      split; [by rewrite Hfl, S1 |]. intros c n v.
      destruct (decide (c = eventChat e)) as [-> | Hne]; [| by apply Hother].
      rewrite Hst. simpl. intros Hnv.
      destruct (S2 n v Hnv) as [Hold | ->]; [simpl in Hold; by eapply IHn | done].
    + rewrite IHf in Hin. by apply elem_of_nil in Hin.
Qed.

(** X13: with no resolution backend configured, no backend call is ever in
    flight and no name ever gets an address: in every reachable state each
    stored outcome is [null], the header counts no resolved name, and the
    result set of makelist is the chat's address set as collected. *)
Theorem no_resolution_when_disabled
    (ownerTelegramId : Z) (getAddress : option (jsstring -> option jsstring))
    (sendMessageOk : Z -> jsstring -> bool) (s : Sys) (c : Z) (st : ChatState) :
  reachable ownerTelegramId false getAddress sendMessageOk s ->
  memoryStore s !! c = Some st ->
  inflight s = [] /\
  (forall n v, (n, v) ∈ ensMap st -> v = None) /\
  ensResolvedCount st = 0 /\
  addressSet st = ethSet st.
Proof.
  intros Hr Hc.
  destruct (reachable_disabled _ _ _ s Hr) as [Hf Hn].
  specialize (Hn c). rewrite (chatOf_lookup s c st Hc) in Hn.
  destruct (reachable_ChatInv _ _ _ _ s Hr c) as [N F _].
  rewrite (chatOf_lookup s c st Hc) in N, F.
  split_and!; [done | done | |].
  - unfold ensResolvedCount.
    assert (Hnil : filter (fun v : option jsstring => v ≠ None) (ensMap st).*2 = []).
    { destruct (filter _ _) as [|v l] eqn:Ef; [done |]. exfalso.
      assert (Hv : v ∈ filter (fun v : option jsstring => v ≠ None) (ensMap st).*2)
        by (rewrite Ef; left).
      apply list_elem_of_filter in Hv as [Hv1 Hv2].
      apply list_elem_of_fmap in Hv2 as ([n v'] & -> & Hin).
      simpl in Hv1. apply Hv1. by eapply Hn. }
    by rewrite Hnil.
  - rewrite addressSet_unfold, addResolved_all_null by done.
    rewrite addAll_fresh; [done | done |].
    intros a Ha. by apply isStoredAddress_lower, F.
Qed.

Lemma no_resolution_when_disabled_witness :
  addressSet chat_five = ethSet chat_five.
Proof.
  apply (no_resolution_when_disabled 42 None (fun _ _ => true) sys_five
           (chatId ctx_group) chat_five).
  - apply run_reachable with (evs := trace_five). vm_compute. reflexivity.
  - vm_compute. reflexivity.
Defined.

(* ===================================================================== *)
(** ** The counts in the header *)
(* ===================================================================== *)

Lemma setAdd_length x s : length s <= length (setAdd x s) <= S (length s).
Proof.
  unfold setAdd. case_bool_decide; [lia |]. rewrite length_app. simpl. lia.
Qed.

Lemma addAll_length e ms : length (addAll e ms) <= length e + length ms.
Proof.
  revert e. induction ms as [|m ms IH]; intros e; simpl; [lia |].
  pose proof (IH (setAdd (toLowerCase m) e)).
  pose proof (setAdd_length (toLowerCase m) e). lia.
Qed.

Lemma addResolved_cons s n v entries :
  addResolved s ((n, v) :: entries)
  = addResolved (match v with
                 | Some r => if truthy r then setAdd (toLowerCase r) s else s
                 | None => s
                 end) entries.
Proof. reflexivity. Qed.

Lemma addResolved_length s entries :
  length s <= length (addResolved s entries)
  <= length s + length (filter (fun v : option jsstring => v ≠ None) entries.*2).
Proof.
  revert s. induction entries as [|[n v] entries IH]; intros s.
  - simpl. lia.
  - rewrite addResolved_cons, fmap_cons. cbn [snd].
    destruct v as [r|].
    + rewrite filter_cons_True by done. cbn [length].
      destruct (truthy r).
      * pose proof (IH (setAdd (toLowerCase r) s)).
        pose proof (setAdd_length (toLowerCase r) s). lia.
      * pose proof (IH s). lia.
    + rewrite filter_cons_False by (intros H; by apply H). apply IH.
Qed.

(** X5: the three counts of the header, [x ETH + y resolved ENS = z unique],
    always satisfy [z <= x + y], and in every reachable state also
    [x <= z]: an address reached both directly and through a name is
    counted once in [z]. *)
Theorem header_counts
    (ownerTelegramId : Z) (useEns : bool)
    (getAddress : option (jsstring -> option jsstring))
    (sendMessageOk : Z -> jsstring -> bool) (s : Sys) (c : Z) (st : ChatState) :
  reachable ownerTelegramId useEns getAddress sendMessageOk s ->
  memoryStore s !! c = Some st ->
  length (ethSet st) <= length (exportAddresses getAddress st)
  <= length (ethSet st) + ensResolvedCount st.
Proof.
  intros Hr Hc.
  destruct (reachable_ChatInv _ _ _ _ s Hr c) as [N F _].
  rewrite (chatOf_lookup s c st Hc) in N, F.
  rewrite exportAddresses_length, addressSet_unfold.
  pose proof (addResolved_length (addAll [] (ethSet st)) (ensMap st)) as H.
  rewrite addAll_fresh in H; [| done | intros a Ha; by apply isStoredAddress_lower, F].
  simpl in H. unfold ensResolvedCount.
  rewrite addAll_fresh; [| done | intros a Ha; by apply isStoredAddress_lower, F].
  simpl. lia.
Qed.

Lemma header_counts_witness :
  length (ethSet chat_three) <= length (exportAddresses None chat_three)
  <= length (ethSet chat_three) + ensResolvedCount chat_three.
Proof.
  apply (header_counts 42 true None (fun _ _ => true) sys_three (chatId ctx_group) chat_three).
  - apply run_reachable with (evs := trace_three). vm_compute. reflexivity.
  - vm_compute. reflexivity.
Defined.

(* ===================================================================== *)
(** ** What a watched text adds *)
(* ===================================================================== *)

Lemma ethMatches_elem text m :
  m ∈ ethMatches text <->
  exists i, isAddressAt text i = true /\ m = substring text i (i + 42).
Proof.
  unfold ethMatches, matchAll. rewrite execFrom_ethRegex by lia.
  rewrite Nat.sub_0_r, list_elem_of_fmap. split.
  - intros (i & -> & Hi). apply list_elem_of_filter in Hi as [Hi _]. eauto.
  - intros (i & Hi & ->). exists i. split; [done |].
    apply list_elem_of_filter. split; [done |].
    apply elem_of_seq. pose proof (isAddressAt_length text i Hi). lia.
Qed.

Lemma scanNames_entries useEns c acc ms n v :
  (n, v) ∈ (scanNames useEns c acc ms).1.1 ->
  (n, v) ∈ acc.1.1 \/ (v = None /\ exists raw, raw ∈ ms /\ n = toLowerCase raw).
Proof.
  revert acc. induction ms as [|m ms IH]; intros acc; simpl; [by left |].
  intros Hin. destruct (IH _ Hin) as [Hold | (-> & raw & Hraw & ->)].
  - destruct acc as [[names fl] la]. unfold nameStep in Hold.
    destruct (mapHas _ names); simpl in Hold; [by left |].
    apply mapSet_elem in Hold as [[= -> ->] | Hold]; [| by left].
    right. split; [done |]. exists m. split; [left | done].
  - right. split; [done |]. exists raw. split; [by right | done].
Qed.

(** X14: a text that reaches the collector in a watching chat is collected
    completely and nothing else is: afterwards the address set holds, in
    lower case, every address standing in the text, and every element it
    holds was there before or is such an address; every name match is a key
    of the name mapping, in lower case, and every entry was there before or
    is a name match stored as [null]. *)
Theorem watched_text_is_collected
    (useEns : bool) (ctx : Ctx) (text : jsstring) (s : Sys) (st : ChatState) :
  memoryStore s !! chatId ctx = Some st ->
  watching st = true ->
  exists st',
    memoryStore (handleText useEns ctx text s) !! chatId ctx = Some st' /\
    watching st' = true /\
    (forall i, isAddressAt text i = true ->
       toLowerCase (substring text i (i + 42)) ∈ ethSet st') /\
    (forall a, a ∈ ethSet st' ->
       a ∈ ethSet st \/
       exists i, isAddressAt text i = true /\ a = toLowerCase (substring text i (i + 42))) /\
    (forall raw, raw ∈ ensMatches text -> toLowerCase raw ∈ (ensMap st').*1) /\
    (forall n v, (n, v) ∈ ensMap st' ->
       (n, v) ∈ ensMap st \/
       (v = None /\ exists raw, raw ∈ ensMatches text /\ n = toLowerCase raw)).
Proof.
  intros Hc W. rewrite (handleText_watching useEns ctx text s st Hc W). cbv zeta.
  eexists. split; [simpl; apply lookup_insert_eq |]. simpl. split_and!.
  - done.
  - intros i Hi. apply addAll_contains. apply ethMatches_elem. eauto.
  - intros a Ha. apply addAll_elem_of in Ha as [Ha | (m & Hm & ->)]; [by left |].
    right. apply ethMatches_elem in Hm as (i & Hi & ->). eauto.
  - intros raw Hraw. by apply scanNames_contains.
  - intros n v Hin. by apply scanNames_entries in Hin.
Qed.

Lemma watched_text_is_collected_witness :
  exists st',
    memoryStore (handleText true ctx_group (js "to " ++ addr_b ++ js " or a.b.eth") sys_one)
      !! chatId ctx_group = Some st' /\
    watching st' = true.
Proof.
  destruct (watched_text_is_collected true ctx_group (js "to " ++ addr_b ++ js " or a.b.eth")
              sys_one (mkChat true [addr_a] [(js "vitalik.eth", None); (js "nick.eth", None)]))
    as (st' & H1 & H2 & _).
  - vm_compute. reflexivity.
  - reflexivity.
  - exists st'. split; [exact H1 | exact H2].
Defined.

(* ===================================================================== *)
(** ** The settling of a backend call *)
(* ===================================================================== *)

Lemma exportAddresses_elem getAddress st a :
  a ∈ addressSet st ->
  match getAddress with
  | Some f => checksumOrKeep f a
  | None => a
  end ∈ exportAddresses getAddress st.
Proof.
  intros Ha. unfold exportAddresses. rewrite sortAddresses_Permutation.
  unfold checksummed. destruct getAddress as [f|]; [| done].
  by apply (list_elem_of_fmap_2 (checksumOrKeep f)).
Qed.

Lemma inflight_chat s c name :
  Inv s -> (c, name) ∈ inflight s ->
  exists st, memoryStore s !! c = Some st /\ mapGet name (ensMap st) = Some None.
Proof.
  intros HI Hin.
  pose proof (ni_inflight _ _ _ _ (inv_names s HI c) name Hin) as Hn.
  unfold namesOf, collected in Hn.
  destruct (memoryStore s !! c) as [st|]; [eauto | done].
Qed.

(** X15: when a backend call settles with an address, the name's entry
    takes it and the next export lists it: the stored outcome is the
    address, its lower-case form is in the result set, and the export has
    the line for it (checksummed when a checksum function is there, as it
    is when that function throws).  Nothing else in the chat changes. *)
Theorem settled_name_is_exported
    (ownerTelegramId : Z) (useEns : bool)
    (getAddress : option (jsstring -> option jsstring))
    (sendMessageOk : Z -> jsstring -> bool)
    (s s' : Sys) (acts : list Action) (c : Z) (name resolved : jsstring) :
  reachable ownerTelegramId useEns getAddress sendMessageOk s ->
  onResolved c name (Some resolved) s = Some (s', acts) ->
  truthy resolved = true ->
  exists st st',
    memoryStore s !! c = Some st /\
    memoryStore s' !! c = Some st' /\
    mapGet name (ensMap st) = Some None /\
    mapGet name (ensMap st') = Some (Some resolved) /\
    watching st' = watching st /\ ethSet st' = ethSet st /\
    toLowerCase resolved ∈ addressSet st' /\
    match getAddress with
    | Some f => checksumOrKeep f (toLowerCase resolved)
    | None => toLowerCase resolved
    end ∈ exportAddresses getAddress st'.
Proof.
  intros Hr H Ht. pose proof (reachable_Inv _ _ _ _ s Hr) as HI.
  unfold onResolved in H. case_bool_decide as Hin; [| done].
  destruct (inflight_chat s c name HI Hin) as (st & Hc & Hn).
  rewrite Hc, Ht in H. injection H as <- _.
  eexists st, _. split; [done |]. split; [simpl; apply lookup_insert_eq |].
  simpl.
  assert (Ha : toLowerCase resolved
               ∈ addressSet {| watching := watching st; ethSet := ethSet st;
                               ensMap := mapSet name (Some resolved) (ensMap st) |}).
  { rewrite addressSet_unfold. apply addResolved_elem_of. right.
    exists name, resolved. split_and!; [| done | done]. simpl.
    apply mapGet_Some_elem, mapGet_mapSet_eq. }
  split_and!; [done | apply mapGet_mapSet_eq | done | done | done |].
  by apply exportAddresses_elem.
Qed.

Lemma settled_name_is_exported_witness :
  exists st',
    memoryStore sys_two !! chatId ctx_group = Some st' /\
    toLowerCase addr_b ∈ exportAddresses None st'.
Proof.
  destruct (settled_name_is_exported 42 true None (fun _ _ => true) sys_one
              {| memoryStore := memoryStore sys_two;
                 inflight := [(chatId ctx_group, js "nick.eth")];
                 launched := launched sys_two |}
              [] (chatId ctx_group) (js "vitalik.eth") addr_b)
    as (st & st' & _ & H1 & _ & _ & _ & _ & _ & H2).
  - apply run_reachable with (evs := trace_one). vm_compute. reflexivity.
  - vm_compute. reflexivity.
  - reflexivity.
  - exists st'. split; [exact H1 | exact H2].
Defined.

(** What the name loop adds to the launch log and to the calls in flight
    are names of its chat that the mapping did not have. *)
Lemma scanNames_new useEns c acc ms :
  exists newl newf,
    (scanNames useEns c acc ms).2 = acc.2 ++ newl /\
    (scanNames useEns c acc ms).1.2 = acc.1.2 ++ newf /\
    (forall t, t ∈ newl -> t.1 = c /\ t.2 ∉ acc.1.1.*1) /\
    (forall t, t ∈ newf -> t ∈ newl).
Proof.
  revert acc. induction ms as [|m ms IH]; intros acc.
  - exists [], []. simpl. rewrite !app_nil_r.
    split_and!; [done | done | |]; intros t Ht; by apply elem_of_nil in Ht.
  - unfold scanNames. simpl. fold (scanNames useEns c (nameStep useEns c acc m) ms).
    destruct (IH (nameStep useEns c acc m)) as (newl & newf & Hl & Hf & Hn & Hsub).
    destruct acc as [[names fl] la]. unfold nameStep in *.
    destruct (mapHas (toLowerCase m) names) eqn:Eh.
    + by exists newl, newf.
    + simpl in *.
      exists ((c, toLowerCase m) :: newl),
             (if useEns then (c, toLowerCase m) :: newf else newf).
      split_and!.
      * by rewrite Hl, <- app_assoc.
      * rewrite Hf. destruct useEns; [by rewrite <- app_assoc | done].
      * intros t Ht. apply elem_of_cons in Ht as [-> | Ht].
        -- simpl. split; [done |]. intros Hk. apply mapHas_true in Hk. congruence.
        -- destruct (Hn t Ht) as [H1 H2]. split; [done |].
           intros Hk. apply H2. by apply mapSet_keys_mono.
      * intros t Ht. destruct useEns.
        -- apply elem_of_cons in Ht as [-> | Ht]; [left | right; by apply Hsub].
        -- right. by apply Hsub.
Qed.

Lemma handleText_new useEns ctx text s :
  exists newl newf,
    launched (handleText useEns ctx text s) = launched s ++ newl /\
    inflight (handleText useEns ctx text s) = inflight s ++ newf /\
    (forall t, t ∈ newl ->
       t.1 = chatId ctx /\ t.2 ∉ (ensMap (chatOf s (chatId ctx))).*1) /\
    (forall t, t ∈ newf -> t ∈ newl).
Proof.
  rewrite <- (ensureChat_2_chatOf s (chatId ctx)). unfold handleText.
  destruct (ensureChat (chatId ctx) (memoryStore s)) as [store st]. simpl.
  destruct (watching st); simpl.
  - destruct (scanNames_new useEns (chatId ctx) (ensMap st, inflight s, launched s)
                (ensMatches text)) as (newl & newf & Hl & Hf & Hn & Hsub).
    unfold scanNames in Hl, Hf.
    destruct (foldl _ _ (ensMatches text)) as [[names fl] la]. simpl in *.
    by exists newl, newf.
  - exists [], []. rewrite !app_nil_r.
    split_and!; [done | done | |]; intros t Ht; by apply elem_of_nil in Ht.
Qed.

(** A name that is stored as [null] with no call in flight stays so through
    any event, and the event launches no resolver for it. *)
Lemma handle_keeps_failed ownerTelegramId useEns getAddress sendMessageOk
    e s s1 acts c name :
  handle ownerTelegramId useEns getAddress sendMessageOk e s = Some (s1, acts) ->
  mapGet name (ensMap (chatOf s c)) = Some None ->
  (c, name) ∉ inflight s ->
  mapGet name (ensMap (chatOf s1 c)) = Some None /\
  (c, name) ∉ inflight s1 /\
  exists later, launched s1 = launched s ++ later /\ (c, name) ∉ later.
Proof.
  intros H Hn Hfl.
  pose proof (handle_cases _ _ _ _ _ _ _ _ H) as Hc. cbv zeta in Hc.
  destruct Hc as (Hoth & _ & Hc).
  assert (Hother : eventChat e ≠ c -> chatOf s1 c = chatOf s c).
  { intros Hne. unfold chatOf. rewrite Hoth; [done | congruence]. }
  assert (Hnil : exists later, launched s = launched s ++ later /\ (c, name) ∉ later).
  { exists []. rewrite app_nil_r. split; [done | apply not_elem_of_nil]. }
  destruct Hc as [(Hst & Hi & Hl) | [(Hst & Hi & Hl)
                 | [(text & W & Hst & Hi & Hl) | (name0 & result & He & Hin & Hi & Hl & Hst)]]].
  - rewrite Hi, Hl. split_and!; [| done | done].
    destruct (decide (eventChat e = c)) as [<- | Hne];
      [by rewrite Hst | by rewrite Hother].
  - rewrite Hi, Hl. split_and!; [| done | done].
    destruct (decide (eventChat e = c)) as [<- | Hne];
      [by rewrite Hst | by rewrite Hother].
  - destruct (scanNames_new useEns (eventChat e)
                (ensMap (chatOf s (eventChat e)), inflight s, launched s)
                (ensMatches text)) as (newl & newf & Hl' & Hf' & Hnew & Hsub).
    simpl in Hl', Hf', Hnew.
    assert (Hnot : (c, name) ∉ newl).
    { intros Hx. destruct (Hnew _ Hx) as [E1 E2]. simpl in E1, E2. subst c.
      apply E2. by eapply mapGet_keys. }
    split_and!.
    + destruct (decide (eventChat e = c)) as [<- | Hne]; [| by rewrite Hother].
      rewrite Hst. simpl.
      by apply (scanNames_accRel useEns (eventChat e)
                  (ensMap (chatOf s (eventChat e)), inflight s, launched s)
                  (ensMatches text)).
    + rewrite Hi, Hf'. intros Hx. apply elem_of_app in Hx as [Hx | Hx]; [done |].
      by apply Hnot, Hsub.
    + exists newl. by rewrite Hl.
  - rewrite Hl. split_and!; [| | done].
    + destruct (decide (eventChat e = c)) as [Heq | Hne]; [| by rewrite Hother].
      subst c. destruct Hst as [-> | (resolved & _ & _ & _ & ->)]; [done |]. simpl.
      rewrite mapGet_mapSet_ne; [done |]. intros Heq. by subst name0.
    + rewrite Hi. intros Hx. by apply list_elem_of_filter in Hx as [_ Hx].
Qed.

Lemma steps_keep_failed ownerTelegramId useEns getAddress sendMessageOk s s2 c name :
  steps ownerTelegramId useEns getAddress sendMessageOk s s2 ->
  mapGet name (ensMap (chatOf s c)) = Some None ->
  (c, name) ∉ inflight s ->
  mapGet name (ensMap (chatOf s2 c)) = Some None /\
  (c, name) ∉ inflight s2 /\
  exists later, launched s2 = launched s ++ later /\ (c, name) ∉ later.
Proof.
  induction 1 as [s | s e s1 acts s2 He Hs IH]; intros Hn Hfl.
  - split_and!; [done | done |]. exists []. rewrite app_nil_r.
    split; [done | apply not_elem_of_nil].
  - destruct (handle_keeps_failed _ _ _ _ _ _ _ _ c name He Hn Hfl)
      as (Hn1 & Hfl1 & l1 & Hl1 & Hx1).
    destruct (IH Hn1 Hfl1) as (Hn2 & Hfl2 & l2 & Hl2 & Hx2).
    split_and!; [done | done |]. exists (l1 ++ l2). split.
    + by rewrite Hl2, Hl1, <- app_assoc.
    + intros Hx. apply elem_of_app in Hx as [Hx | Hx]; done.
Qed.

(** X16: a resolution that fails or yields nothing is absorbed and never
    tried again.  The settling changes no chat state and sends nothing; and
    in every state the process is in from then on, whatever arrived in
    between, the name is still stored as unresolved, no call for it is in
    flight, the launch log has taken no further entry for it, and a text of
    any chat, with the name in it alone or beside others, launches no
    resolver and issues no call for it. *)
Theorem failed_resolution_is_not_retried
    (ownerTelegramId : Z) (useEns : bool)
    (getAddress : option (jsstring -> option jsstring))
    (sendMessageOk : Z -> jsstring -> bool)
    (s s' : Sys) (acts : list Action) (c : Z) (name : jsstring)
    (result : option jsstring) :
  reachable ownerTelegramId useEns getAddress sendMessageOk s ->
  onResolved c name result s = Some (s', acts) ->
  result = None \/ result = Some [] ->
  memoryStore s' = memoryStore s /\ launched s' = launched s /\ acts = [] /\
  (forall s2,
    steps ownerTelegramId useEns getAddress sendMessageOk s' s2 ->
    mapGet name (ensMap (chatOf s2 c)) = Some None /\
    ((c, name) ∉ inflight s2) /\
    (exists later, launched s2 = launched s' ++ later /\ (c, name) ∉ later) /\
    (forall ctx text,
      exists newl newf,
        launched (handleText useEns ctx text s2) = launched s2 ++ newl /\
        inflight (handleText useEns ctx text s2) = inflight s2 ++ newf /\
        ((c, name) ∉ newl) /\ ((c, name) ∉ newf))).
Proof.
  intros Hr H Hres. pose proof (reachable_Inv _ _ _ _ s Hr) as HI.
  unfold onResolved in H. case_bool_decide as Hin; [| done].
  destruct (inflight_chat s c name HI Hin) as (st & Hc & Hn).
  set (fl := filter (fun t => t ≠ (c, name)) (inflight s)) in *.
  assert (Hs' : s' = {| memoryStore := memoryStore s; inflight := fl; launched := launched s |}
                /\ acts = []).
  { destruct Hres as [-> | ->].
    - by injection H as <- <-.
    - rewrite Hc in H. simpl in H. by injection H as <- <-. }
  destruct Hs' as [-> ->]. simpl. split_and!; [done | done | done |].
  intros s2 Hsteps.
  destruct (steps_keep_failed _ _ _ _ _ _ c name Hsteps) as (Hn2 & Hfl2 & Hlog).
  { unfold chatOf. simpl. by rewrite Hc. }
  { simpl. intros Hx. apply list_elem_of_filter in Hx as [Hx _]. by apply Hx. }
  split_and!; [done | done | done |].
  intros ctx text.
  destruct (handleText_new useEns ctx text s2) as (newl & newf & Hl & Hf & Hnew & Hsub).
  assert (Hnot : (c, name) ∉ newl).
  { intros Hx. destruct (Hnew _ Hx) as [E1 E2]. simpl in E1, E2. subst c.
    apply E2. by eapply mapGet_keys. }
  exists newl, newf. split_and!; [done | done | done |].
  intros Hx. by apply Hnot, Hsub.
Qed.

Lemma failed_resolution_is_not_retried_witness :
  mapGet (js "nick.eth") (ensMap (chatOf sys_one (chatId ctx_group))) = Some None /\
  (chatId ctx_group, js "nick.eth")
  ∉ filter (fun t => t ≠ (chatId ctx_group, js "nick.eth")) (inflight sys_one).
Proof.
  destruct (failed_resolution_is_not_retried 42 true None (fun _ _ => true) sys_one
              {| memoryStore := memoryStore sys_one;
                 inflight := filter (fun t => t ≠ (chatId ctx_group, js "nick.eth"))
                               (inflight sys_one);
                 launched := launched sys_one |}
              [] (chatId ctx_group) (js "nick.eth") None)
    as (_ & _ & _ & H).
  - apply run_reachable with (evs := trace_one). vm_compute. reflexivity.
  - vm_compute. reflexivity.
  - by left.
  - destruct (H {| memoryStore := memoryStore sys_one;
                   inflight := filter (fun t => t ≠ (chatId ctx_group, js "nick.eth"))
                                 (inflight sys_one);
                   launched := launched sys_one |})
      as (H1 & H2 & _); [apply steps_refl |].
    split; [exact H1 | exact H2].
Defined.

(* ===================================================================== *)
(** ** Joining a chat *)
(* ===================================================================== *)

Lemma handleText_adds_addresses useEns ctx text s st i :
  memoryStore s !! chatId ctx = Some st -> watching st = true ->
  isAddressAt text i = true ->
  toLowerCase (substring text i (i + 42))
  ∈ ethSet (chatOf (handleText useEns ctx text s) (chatId ctx)).
Proof.
  intros Hc W Hi. rewrite (handleText_watching useEns ctx text s st Hc W). cbv zeta.
  unfold chatOf. simpl. rewrite lookup_insert_eq. simpl.
  apply addAll_contains, ethMatches_elem. eauto.
Qed.

Lemma onMyChatMember_joins ctx type old new s :
  onMyChatMember ctx type old new s =
    if joinsChat type old new then
      ({| memoryStore :=
            <[chatId ctx := {| watching := true;
                               ethSet := ethSet (chatOf s (chatId ctx));
                               ensMap := ensMap (chatOf s (chatId ctx)) |}]> (memoryStore s);
          inflight := inflight s; launched := launched s |}, [])
    else (s, []).
Proof.
  unfold onMyChatMember, joinsChat. cbv zeta.
  destruct (_ && _ && _); [| done].
  rewrite <- (ensureChat_2_chatOf s (chatId ctx)).
  destruct (ensureChat (chatId ctx) (memoryStore s)) as [store st] eqn:E.
  replace store with (ensureChat (chatId ctx) (memoryStore s)).1 by (by rewrite E).
  by rewrite insert_ensureChat.
Qed.

(** X17: when the bot is added to a group, supergroup or channel (it had
    left or been kicked, and is now member, administrator or creator), the
    chat is set watching and keeps whatever it had collected before, and the
    next text is collected without any command; any other membership
    change, and any change in a private chat, does nothing at all. *)
Theorem joining_starts_collection
    (useEns : bool) (ctx : Ctx) (type : ChatType) (old new : option MemberStatus)
    (s : Sys) :
  let r := onMyChatMember ctx type old new s in
  r.2 = [] /\
  (joinsChat type old new = false -> r.1 = s) /\
  (joinsChat type old new = true ->
     watching (chatOf r.1 (chatId ctx)) = true /\
     inflight r.1 = inflight s /\ launched r.1 = launched s /\
     (forall c, collected r.1 c = collected s c) /\
     forall text i,
       isAddressAt text i = true ->
       toLowerCase (substring text i (i + 42))
       ∈ ethSet (chatOf (handleText useEns ctx text r.1) (chatId ctx))).
Proof.
  intros r. subst r. rewrite onMyChatMember_joins.
  destruct (joinsChat type old new); simpl.
  - split; [done |]. split; [done |]. intros _.
    assert (Hc : forall c,
      collected {| memoryStore :=
                     <[chatId ctx := {| watching := true;
                                        ethSet := ethSet (chatOf s (chatId ctx));
                                        ensMap := ensMap (chatOf s (chatId ctx)) |}]>
                       (memoryStore s);
                   inflight := inflight s; launched := launched s |} c = collected s c).
    { intros c. unfold collected, chatOf. simpl.
      destruct (decide (chatId ctx = c)) as [<- | Hne].
      - rewrite lookup_insert_eq. by destruct (memoryStore s !! chatId ctx).
      - by rewrite lookup_insert_ne. }
    split_and!; [| done | done | done |].
    + unfold chatOf at 1. simpl. by rewrite lookup_insert_eq.
    + intros text i Hi. eapply handleText_adds_addresses; [| | done].
      * simpl. apply lookup_insert_eq.
      * done.
  - split; [done |]. split; [done | discriminate].
Qed.

(* ===================================================================== *)
(** ** The first revision: watch, stop and wrap-up *)
(* ===================================================================== *)

Lemma Rev1_setWatching_spec b ctx s :
  Rev1.setWatching b ctx s
  = {| memoryStore :=
         <[chatId ctx := {| watching := b;
                            ethSet := ethSet (chatOf s (chatId ctx));
                            ensMap := ensMap (chatOf s (chatId ctx)) |}]> (memoryStore s);
       inflight := inflight s; launched := launched s |}.
Proof.
  unfold Rev1.setWatching. rewrite <- (ensureChat_2_chatOf s (chatId ctx)).
  destruct (ensureChat (chatId ctx) (memoryStore s)) as [store st] eqn:E.
  replace store with (ensureChat (chatId ctx) (memoryStore s)).1 by (by rewrite E).
  by rewrite insert_ensureChat.
Qed.

Lemma Rev1_setWatching_collected b ctx s c :
  collected (Rev1.setWatching b ctx s) c = collected s c.
Proof.
  rewrite Rev1_setWatching_spec. unfold collected, chatOf. simpl.
  destruct (decide (chatId ctx = c)) as [<- | Hne].
  - rewrite lookup_insert_eq. by destruct (memoryStore s !! chatId ctx).
  - by rewrite lookup_insert_ne.
Qed.

Lemma Rev1_handleText_not_watching useEns ctx text s st :
  memoryStore s !! chatId ctx = Some st -> watching st = false ->
  Rev1.handleText useEns ctx text s = s.
Proof.
  intros Hc W. unfold Rev1.handleText, ensureChat. rewrite Hc, W. simpl. by destruct s.
Qed.

(** X18: in the first revision the owner's [/watch] and [/stop] switch
    collection on and off and lose nothing.  After [/watch] the chat is
    watching, after a following [/stop] it is not, the address set and name
    mapping of every chat are the same throughout, and a text that arrives
    after [/stop] changes nothing at all.  From anyone else, and in a
    channel post without a sender, neither command does or answers
    anything. *)
Theorem Rev1_watch_stop
    (ownerTelegramId : Z) (useEns : bool) (ctx : Ctx) (text : jsstring) (s : Sys) :
  (fromId ctx = Some ownerTelegramId ->
     let s1 := (Rev1.handleWatch ownerTelegramId ctx s).1 in
     let s2 := (Rev1.handleStop ownerTelegramId ctx s1).1 in
     watching (chatOf s1 (chatId ctx)) = true /\
     watching (chatOf s2 (chatId ctx)) = false /\
     (forall c, collected s1 c = collected s c /\ collected s2 c = collected s c) /\
     Rev1.handleText useEns ctx text s2 = s2) /\
  (fromId ctx ≠ Some ownerTelegramId ->
     Rev1.handleWatch ownerTelegramId ctx s = (s, []) /\
     Rev1.handleStop ownerTelegramId ctx s = (s, [])).
Proof.
  split.
  - intros Hf.
    assert (Ho : Rev1.ownerOnly ownerTelegramId ctx = true).
    { unfold Rev1.ownerOnly. rewrite Hf. by apply bool_decide_eq_true. }
    unfold Rev1.handleWatch, Rev1.handleStop. rewrite Ho. simpl.
    split_and!.
    + rewrite Rev1_setWatching_spec. unfold chatOf at 1. simpl. by rewrite lookup_insert_eq.
    + rewrite (Rev1_setWatching_spec false). unfold chatOf at 1. simpl.
      by rewrite lookup_insert_eq.
    + intros c. by rewrite !Rev1_setWatching_collected.
    + eapply Rev1_handleText_not_watching;
        [rewrite (Rev1_setWatching_spec false); simpl; apply lookup_insert_eq | reflexivity].
  - intros Hf.
    assert (Ho : Rev1.ownerOnly ownerTelegramId ctx = false).
    { unfold Rev1.ownerOnly. destruct (fromId ctx) as [id|]; [| done].
      apply bool_decide_eq_false. congruence. }
    unfold Rev1.handleWatch, Rev1.handleStop. by rewrite Ho.
Qed.

Lemma Rev1_insertBy_Permutation cmp x l : Rev1.insertBy cmp x l ≡ₚ x :: l.
Proof.
  induction l as [|y l IH]; simpl; [done |].
  destruct (cmp x y); [done | done |]. rewrite IH. apply Permutation_swap.
Qed.

Lemma Rev1_sortBy_Permutation cmp l : Rev1.sortBy cmp l ≡ₚ l.
Proof.
  induction l as [|x l IH]; simpl; [done |].
  by rewrite Rev1_insertBy_Permutation, IH.
Qed.

Lemma Rev1_wrapupLines_Permutation st :
  Rev1.wrapupLines st ≡ₚ ethSet st ++ map Rev1.nameLine (ensMap st).
Proof.
  unfold Rev1.wrapupLines. by rewrite !Rev1_sortBy_Permutation.
Qed.

Lemma Rev1_sortBy_compareAddr l : Rev1.sortBy compareAddr l = sortAddresses l.
Proof.
  assert (Hi : forall x l0, Rev1.insertBy compareAddr x l0 = insertSorted x l0).
  { intros x l0. induction l0 as [|y l0 IH]; simpl; [done |]. by rewrite IH. }
  induction l as [|x l IH]; simpl; [done |]. by rewrite IH, Hi.
Qed.

Lemma Rev1_wrapupLines_sorted st : StronglySorted addrLe (Rev1.wrapupLines st).
Proof.
  unfold Rev1.wrapupLines. rewrite Rev1_sortBy_compareAddr.
  apply sortAddresses_StronglySorted.
Qed.

(** X19: the wrap-up of the first revision lists everything collected, one
    line each, in the order of the case-insensitive comparator: the lines
    are the addresses of the address set and one line for every name of the
    mapping, the name alone while it is unresolved, so there are as many
    lines as addresses and names together.  The file holds the joined lines,
    or a note when nothing was collected, and goes to the owner whenever the
    transport accepts it; the wrap-up changes nothing that was collected.
    The reply that the results were sent follows exactly when the file went
    out and the transport accepted that reply too; otherwise the reply that
    reports a failure is tried, also after the file went out, and when it is
    refused as well the handler rejects. *)
Theorem Rev1_wrapup_lists_everything
    (ownerTelegramId : Z) (sendDocumentOk replyOk : Z -> jsstring -> bool)
    (ctx : Ctx) (s : Sys) :
  fromId ctx = Some ownerTelegramId ->
  let st := chatOf s (chatId ctx) in
  let content := Rev1.wrapupContent (chatId ctx) st in
  let file :=
    Rev1.SendDocument ownerTelegramId
      (js "addresses_" ++ decimal (chatId ctx) ++ js ".txt") content
      (js "Collected from chat " ++ decimal (chatId ctx) ++ js ".") in
  let r := Rev1.handleWrapup ownerTelegramId sendDocumentOk replyOk ctx s in
  let delivered := sendDocumentOk ownerTelegramId content in
  let confirmed := delivered && replyOk (chatId ctx) sentReply in
  Rev1.wrapupLines st ≡ₚ ethSet st ++ map Rev1.nameLine (ensMap st) /\
  StronglySorted addrLe (Rev1.wrapupLines st) /\
  length (Rev1.wrapupLines st) = length (ethSet st) + length (ensMap st) /\
  (forall n, (n, None) ∈ ensMap st -> n ∈ Rev1.wrapupLines st) /\
  (ethSet st = [] -> ensMap st = [] ->
     content = js "(Chat " ++ decimal (chatId ctx) ++ js ") No ENS/ETH collected.") /\
  (Rev1.wrapupLines st ≠ [] -> content = join nl (Rev1.wrapupLines st)) /\
  (forall c, collected r.1.1 c = collected s c) /\
  r.1.2 = (if delivered then [file] else [])
          ++ (if confirmed then [Rev1.Reply (chatId ctx) sentReply]
              else if replyOk (chatId ctx) failedReply
                   then [Rev1.Reply (chatId ctx) failedReply] else []) /\
  r.2 = negb confirmed && negb (replyOk (chatId ctx) failedReply).
Proof.
  intros Hf st content file r delivered confirmed.
  pose proof (Rev1_wrapupLines_Permutation st) as Hp.
  assert (Ho : Rev1.ownerOnly ownerTelegramId ctx = true).
  { unfold Rev1.ownerOnly. rewrite Hf. by apply bool_decide_eq_true. }
  assert (Hr : r = (withStore s (ensureChat (chatId ctx) (memoryStore s)).1,
                    (if delivered then [file] else [])
                    ++ (if confirmed then [Rev1.Reply (chatId ctx) sentReply]
                        else if replyOk (chatId ctx) failedReply
                             then [Rev1.Reply (chatId ctx) failedReply] else []),
                    negb confirmed && negb (replyOk (chatId ctx) failedReply))).
  { subst r confirmed delivered file content st.
    unfold Rev1.handleWrapup, Rev1.reportFailure. rewrite Ho. simpl.
    rewrite <- (ensureChat_2_chatOf s (chatId ctx)).
    destruct (ensureChat (chatId ctx) (memoryStore s)) as [store st]. simpl.
    destruct (sendDocumentOk _ _); simpl;
      [destruct (replyOk (chatId ctx) sentReply); simpl |];
      destruct (replyOk (chatId ctx) failedReply); simpl; done. }
  split_and!.
  - done.
  - apply Rev1_wrapupLines_sorted.
  - rewrite Hp, length_app, length_map. done.
  - intros n Hn. rewrite Hp. apply elem_of_app. right.
    apply list_elem_of_fmap. by exists (n, None).
  - intros He Hn. subst content. unfold Rev1.wrapupContent, Rev1.wrapupLines.
    by rewrite He, Hn.
  - intros Hne. subst content. unfold Rev1.wrapupContent.
    by destruct (Rev1.wrapupLines st).
  - intros c. rewrite Hr. simpl. apply ensureChat_collected.
  - by rewrite Hr.
  - by rewrite Hr.
Qed.

Lemma Rev1_wrapup_lists_everything_witness :
  (Rev1.handleWrapup 42 (fun _ _ => true) (fun _ text => bool_decide (text ≠ sentReply))
     ctx_group sys_three).1.2
  = [Rev1.SendDocument 42 (js "addresses_-1001.txt")
       (Rev1.wrapupContent (chatId ctx_group) (chatOf sys_three (chatId ctx_group)))
       (js "Collected from chat -1001.");
     Rev1.Reply (chatId ctx_group) failedReply].
Proof.
  destruct (Rev1_wrapup_lists_everything 42 (fun _ _ => true)
              (fun _ text => bool_decide (text ≠ sentReply)) ctx_group sys_three)
    as (_ & _ & _ & _ & _ & _ & _ & H & _).
  - reflexivity.
  - exact H.
Defined.

(* ===================================================================== *)
(** ** Texts without identifiers; the order of arrival *)
(* ===================================================================== *)

(** X20: a text in which neither pattern matches, the empty text for one,
    leaves the whole program state as it is when the chat has a state,
    watching or not. *)
Theorem text_without_identifiers
    (useEns : bool) (ctx : Ctx) (text : jsstring) (s : Sys) (st : ChatState) :
  memoryStore s !! chatId ctx = Some st ->
  ethMatches text = [] -> ensMatches text = [] ->
  handleText useEns ctx text s = s.
Proof.
  intros Hc He Hn. destruct (watching st) eqn:W.
  - rewrite (handleText_watching useEns ctx text s st Hc W), He, Hn. simpl.
    rewrite insert_id; [by destruct s |]. rewrite Hc. f_equal.
    destruct st. simpl in *. by subst.
  - rewrite handleText_off; rewrite Hc; simpl; [done | congruence].
Qed.

Lemma text_without_identifiers_witness :
  handleText true ctx_group [] sys_one = sys_one.
Proof.
  apply (text_without_identifiers true ctx_group [] sys_one
           (mkChat true [addr_a] [(js "vitalik.eth", None); (js "nick.eth", None)]));
    vm_compute; reflexivity.
Defined.

Lemma localeCompare_Eq a b : localeCompare a b = Eq -> a = b.
Proof.
  revert b. induction a as [|x a IH]; intros [|y b]; simpl; try done.
  destruct (N.compare_spec x y) as [-> | |]; [| done | done].
  intros H. f_equal. by apply IH.
Qed.

Lemma addrLe_antisym a b : addrLe a b -> addrLe b a -> toLowerCase a = toLowerCase b.
Proof.
  unfold addrLe, compareAddr. intros H1 H2.
  rewrite localeCompare_antisym in H2.
  apply localeCompare_Eq.
  destruct (localeCompare (toLowerCase a) (toLowerCase b)); [done | | done].
  by exfalso; apply H2.
Qed.

Lemma StronglySorted_unique_on (l1 l2 : list jsstring) :
  StronglySorted addrLe l1 -> StronglySorted addrLe l2 -> l1 ≡ₚ l2 ->
  (forall a b, a ∈ l1 -> b ∈ l1 -> toLowerCase a = toLowerCase b -> a = b) ->
  l1 = l2.
Proof.
  revert l2. induction l1 as [|x l1 IH]; intros l2 S1 S2 Hp Hinj.
  - by apply Permutation_nil_l in Hp.
  - destruct l2 as [|y l2]; [by apply Permutation_nil_r in Hp |].
    apply StronglySorted_inv in S1 as [S1 F1]. apply StronglySorted_inv in S2 as [S2 F2].
    rewrite Forall_forall in F1, F2.
    assert (Hxy : x = y).
    { destruct (decide (x = y)) as [| Hne]; [done |].
      assert (Hy : y ∈ l1).
      { assert (Hy : y ∈ x :: l1) by (rewrite Hp; left).
        apply elem_of_cons in Hy as [-> | Hy]; done. }
      assert (Hx : x ∈ l2).
      { assert (Hx : x ∈ y :: l2) by (rewrite <- Hp; left).
        apply elem_of_cons in Hx as [-> | Hx]; done. }
      apply Hinj; [left | by right |].
      apply addrLe_antisym; [by apply F1 | by apply F2]. }
    subst y. f_equal. apply IH; [done | done | by eapply Permutation_cons_inv |].
    intros a b Ha Hb. apply Hinj; by right.
Qed.

(** X21: the export does not depend on the order in which a collection came
    together.  If two chats hold the same result set up to order, and no
    two lines of the export differ only in the case of their letters, their
    exports have the same lines in the same order. *)
Theorem export_independent_of_arrival_order
    (getAddress : option (jsstring -> option jsstring)) (st1 st2 : ChatState) :
  addressSet st1 ≡ₚ addressSet st2 ->
  (forall a b,
     a ∈ checksummed getAddress (addressSet st1) ->
     b ∈ checksummed getAddress (addressSet st1) ->
     toLowerCase a = toLowerCase b -> a = b) ->
  exportAddresses getAddress st1 = exportAddresses getAddress st2.
Proof.
  intros Hp Hinj. unfold exportAddresses.
  apply StronglySorted_unique_on; [apply sortAddresses_StronglySorted .. | |].
  - rewrite !sortAddresses_Permutation. unfold checksummed.
    destruct getAddress as [f|]; [by apply Permutation_map | done].
  - intros a b Ha Hb. rewrite sortAddresses_Permutation in Ha, Hb. by apply Hinj.
Qed.

Lemma export_independent_of_arrival_order_witness :
  exportAddresses None (mkChat true [addr_b; addr_a] [])
  = exportAddresses None (mkChat false [addr_a; addr_b] []).
Proof.
  apply (export_independent_of_arrival_order None
           (mkChat true [addr_b; addr_a] []) (mkChat false [addr_a; addr_b] [])).
  - vm_compute. apply Permutation_swap.
  - intros a b Ha Hb. vm_compute in Ha, Hb.
    apply elem_of_cons in Ha as [-> | Ha]; apply elem_of_cons in Hb as [-> | Hb];
      try apply list_elem_of_singleton in Ha as ->;
      try apply list_elem_of_singleton in Hb as ->;
      try done; vm_compute; discriminate.
Defined.

(* ===================================================================== *)
(** ** Exporting twice *)
(* ===================================================================== *)

Lemma ensureChat_idemp c store :
  ensureChat c (ensureChat c store).1 = ensureChat c store.
Proof.
  unfold ensureChat. destruct (store !! c) as [st|] eqn:E; simpl.
  - by rewrite E.
  - by rewrite lookup_insert_eq.
Qed.

(** X22: an export uses nothing up.  Makelist run a second time, right
    after the first, sends the same messages and leaves the state the first
    run left; the same holds for status. *)
Theorem makelist_repeatable
    (ownerTelegramId : Z) (getAddress : option (jsstring -> option jsstring))
    (sendMessageOk : Z -> jsstring -> bool) (ctx : Ctx) (s : Sys) :
  let r := handleMakeList ownerTelegramId getAddress sendMessageOk ctx s in
  let q := handleStatus ownerTelegramId ctx s in
  handleMakeList ownerTelegramId getAddress sendMessageOk ctx r.1 = r /\
  handleStatus ownerTelegramId ctx q.1 = q.
Proof.
  intros r q. subst r q. unfold handleMakeList, handleStatus.
  destruct (ownerOnly ownerTelegramId ctx) eqn:Ho; simpl; [| done].
  destruct (ensureChat (chatId ctx) (memoryStore s)) as [store st] eqn:E.
  assert (E' : ensureChat (chatId ctx) store = (store, st)).
  { replace store with (ensureChat (chatId ctx) (memoryStore s)).1 by (by rewrite E).
    by rewrite ensureChat_idemp, E. }
  split.
  - destruct (length (exportAddresses getAddress st) =? 0) eqn:Z; simpl.
    + by rewrite E', Z.
    + destruct (sendAll ownerTelegramId sendMessageOk (exportBlocks getAddress ctx st))
        as [acts ok] eqn:S. simpl. by rewrite E', Z, S.
  - simpl. by rewrite E'.
Qed.
